(** * The learning Kalman-Bucy filter of [lib/lkf_smoothed.py]

    A shallow embedding of the class [LKF]: the packing of the augmented
    state, the drift field [f] handed to the integrator, the constructor and
    the per-tick [__call__], followed by the properties the specification
    states about them.

    numpy arrays are lists (1-D) and lists of rows (2-D); every numpy
    operation that can raise returns a [result].  Scalars are kept abstract
    (record [Scalar]): a theorem that assumes no law of the arithmetic holds
    for IEEE doubles as well as for exact numbers.  Where the identity of an
    array matters (what [copy] buys), arrays are views of buffers in a
    heap. *)

From Stdlib Require Import List ZArith Bool Arith Lia QArith Qcanon.
Import ListNotations.

Set Implicit Arguments.
Close Scope Qc_scope.
Close Scope Q_scope.
Open Scope nat_scope.

(** ** Errors *)

(** The Python exceptions the modelled code can raise. *)
Inductive error : Type :=
| ValueError      (* numpy: shapes do not match *)
| IndexError      (* list index out of range *)
| LinAlgError     (* numpy.linalg: not square, singular *)
| OverflowError   (* int() of an infinite float *)
| TypeError       (* a call with missing arguments *)
| NumericalError. (* the integrator: a step produced a non-finite value *)

Inductive result (A : Type) : Type :=
| Ok (a : A)
| Err (e : error).

Arguments Ok {A} a.
Arguments Err {A} e.

Definition bind {A B : Type} (m : result A) (k : A -> result B) : result B :=
  match m with
  | Ok a => k a
  | Err e => Err e
  end.

Declare Scope result_scope.
Delimit Scope result_scope with result.
Notation "x <- m ;; k" := (bind m (fun x => k))
  (at level 61, m at next level, right associativity) : result_scope.
Notation "' p <- m ;; k" := (bind m (fun x => match x with p => k end))
  (at level 61, p pattern, m at next level, right associativity) : result_scope.
Open Scope result_scope.

Definition is_ok {A : Type} (m : result A) : bool :=
  match m with Ok _ => true | Err _ => false end.

(** The value of a computation that returned, [d] otherwise. *)
Definition get {A : Type} (d : A) (m : result A) : A :=
  match m with Ok a => a | Err _ => d end.

(** ** numpy arrays: the operations that move data *)

Section Ndarray.
Context {A : Type}.

Definition vec : Type := list A.
Definition mat : Type := list (list A).

(** [M] is a 2-D array of shape [(r, c)]. *)
Definition is_mat (r c : nat) (M : mat) : Prop :=
  length M = r /\ Forall (fun row => length row = c) M.

Definition is_matb (r c : nat) (M : mat) : bool :=
  (length M =? r) && forallb (fun row => length row =? c) M.

(** [M.shape[1]], read off the first row. *)
Definition ncols (M : mat) : nat :=
  match M with
  | [] => 0
  | row :: _ => length row
  end.

(** [v[:, np.newaxis]]: a 1-D array of length [n] as an [n x 1] array. *)
Definition newaxis (v : vec) : mat := map (fun a => [a]) v.

(** [M.ravel()]: row-major flattening. *)
Definition ravel (M : mat) : vec := concat M.

(** [r] consecutive rows of width [w] cut from a flat buffer. *)
Fixpoint chunks (w r : nat) (l : vec) : mat :=
  match r with
  | O => []
  | S r' => firstn w l :: chunks w r' (skipn w l)
  end.

(** [v.reshape((r, w))]: raises unless the sizes agree. *)
Definition reshape (r w : nat) (l : vec) : result mat :=
  if length l =? r * w then Ok (chunks w r l) else Err ValueError.

(** [np.concatenate((M, N), axis=1)]: raises unless both have the same
    number of rows. *)
Fixpoint zip_app (M N : mat) : mat :=
  match M, N with
  | r :: M', s :: N' => (r ++ s) :: zip_app M' N'
  | _, _ => []
  end.

Definition concat1 (M N : mat) : result mat :=
  if length M =? length N then Ok (zip_app M N) else Err ValueError.

(** [np.concatenate((X, P, E), axis=1)]. *)
Definition concatenate3 (X P E : mat) : result mat :=
  XP <- concat1 X P ;; concat1 XP E.

(** [M[:, a:b]] for [a <= b] within range: never raises. *)
Definition cols (a b : nat) (M : mat) : mat :=
  map (fun row => firstn (b - a) (skipn a row)) M.

(** [M[:, a:]]. *)
Definition cols_from (a : nat) (M : mat) : mat :=
  map (fun row => skipn a row) M.

(** [M.T]: column [j] collects entry [j] of every row. *)
Definition column (j : nat) (M : mat) : vec :=
  flat_map (fun row => firstn 1 (skipn j row)) M.

Definition transpose (M : mat) : mat :=
  map (fun j => column j M) (seq 0 (ncols M)).

(** A Python list indexed by an int: [l[i]], negative [i] counting from
    the end; out of range raises. *)
Definition py_index {B : Type} (l : list B) (i : Z) : result B :=
  let n := Z.of_nat (length l) in
  let j := if (i <? 0)%Z then (n + i)%Z else i in
  if ((0 <=? j) && (j <? n))%Z then
    match nth_error l (Z.to_nat j) with
    | Some b => Ok b
    | None => Err IndexError
    end
  else Err IndexError.

(** The augmented state as the code lays it out (lines 59 and 75):
    [np.concatenate((x, P, eta), axis=1).ravel()]. *)
Definition pack (x P eta : mat) : result vec :=
  M <- concatenate3 x P eta ;; Ok (ravel M).

(** [LKF.load_vars] with [self.ndim = n], so that
    [self.ode_shape = (n, 1 + 2*n)]. *)
Definition ode_shape (n : nat) : nat * nat := (n, 1 + 2 * n).

Definition ode_ndim (n : nat) : nat := fst (ode_shape n) * snd (ode_shape n).

Definition load_vars (n : nat) (state : vec) : result (mat * mat * mat) :=
  state <- reshape (fst (ode_shape n)) (snd (ode_shape n)) state ;;
  Ok (cols 0 1 state, cols 1 (1 + n) state, cols_from (1 + n) state).

End Ndarray.

Arguments vec A : clear implicits.
Arguments mat A : clear implicits.

(** ** Scalars and numpy arithmetic *)

(** The float arithmetic the code relies on.  No law is part of the
    interface: the theorems that need one state it as a hypothesis. *)
Record Scalar : Type := {
  num :> Type;
  of_Z : Z -> num;             (* a Python int used as a float *)
  fadd : num -> num -> num;
  fsub : num -> num -> num;
  fmul : num -> num -> num;
  fdiv : num -> num -> num;
  fgt : num -> num -> bool;    (* a > b *)
  fle : num -> num -> bool;    (* a <= b *)
  trunc : num -> result Z;     (* int(a) *)
  is_finite : num -> bool      (* neither an infinity nor a NaN *)
}.

(** [numpy.linalg]: taken as given. *)
Record Linalg (S : Scalar) : Type := {
  inv : mat S -> result (mat S);
  solve : mat S -> mat S -> result (mat S);
  norm : mat S -> S
}.

Fixpoint sequence {A : Type} (l : list (result A)) : result (list A) :=
  match l with
  | [] => Ok []
  | m :: l' => a <- m ;; r <- sequence l' ;; Ok (a :: r)
  end.

Fixpoint map2 {A B C : Type} (g : A -> B -> C) (u : list A) (v : list B)
  : list C :=
  match u, v with
  | a :: u', b :: v' => g a b :: map2 g u' v'
  | _, _ => []
  end.

Section Arith.
Variable S : Scalar.

Definition zero : S := of_Z S 0.
Definition one : S := of_Z S 1.
Definition two : S := of_Z S 2.

(** [np.zeros((r, c))] and [np.eye(n)]. *)
Definition zeros (r c : nat) : mat S := repeat (repeat zero c) r.

Definition eye (n : nat) : mat S :=
  map (fun i => map (fun j => if i =? j then one else zero) (seq 0 n))
      (seq 0 n).

(** [c * M] and [M / c] for a scalar [c]. *)
Definition scale (c : S) (M : mat S) : mat S := map (map (fmul S c)) M.
Definition divide (M : mat S) (c : S) : mat S :=
  map (map (fun a => fdiv S a c)) M.

(** Elementwise binary operation on 1-D arrays with numpy's broadcasting:
    equal lengths, or one side of length 1. *)
Definition bcast1 (op : S -> S -> S) (u v : vec S) : result (vec S) :=
  if length u =? length v then Ok (map2 op u v)
  else match u, v with
       | [a], _ => Ok (map (op a) v)
       | _, [b] => Ok (map (fun x => op x b) u)
       | _, _ => Err ValueError
       end.

(** The same on 2-D arrays: the rule applies to rows and to columns. *)
Definition bcast2 (op : S -> S -> S) (M N : mat S) : result (mat S) :=
  if length M =? length N then sequence (map2 (bcast1 op) M N)
  else match M, N with
       | [r], _ => sequence (map (fun s => bcast1 op r s) N)
       | _, [s] => sequence (map (fun r => bcast1 op r s) M)
       | _, _ => Err ValueError
       end.

Definition madd : mat S -> mat S -> result (mat S) := bcast2 (fadd S).
Definition msub : mat S -> mat S -> result (mat S) := bcast2 (fsub S).

(** Inner product, summed from the right. *)
Definition dot (u v : vec S) : S :=
  fold_right (fun p acc => fadd S (fmul S (fst p) (snd p)) acc) zero
             (combine u v).

(** [M @ N] on 2-D arrays: raises unless [M.shape[1] == N.shape[0]]. *)
Definition matmul (M N : mat S) : result (mat S) :=
  if ncols M =? length N
  then Ok (map (fun row => map (dot row) (transpose N)) M)
  else Err ValueError.

(** [v @ N] for a 1-D [v]: raises unless [len(v) == N.shape[0]]. *)
Definition vecmat (v : vec S) (N : mat S) : result (vec S) :=
  if length v =? length N
  then Ok (map (dot v) (transpose N))
  else Err ValueError.

End Arith.

Arguments scale {S} c M.
Arguments divide {S} M c.
Arguments bcast1 {S} op u v.
Arguments bcast2 {S} op M N.
Arguments madd {S} M N.
Arguments msub {S} M N.
Arguments dot {S} u v.
Arguments matmul {S} M N.
Arguments vecmat {S} v N.

(** ** The integrator *)

(** Modelled from the spec: [lib/integrator.py] (class [Integrator]) is not
    among the sources.  The specification describes it as a generic stepper
    that holds an opaque state vector and a clock, forwards the parameters
    bound by [set_f_params] to the drift field, and advances from the
    current time to the target "using one or more internal sub-steps"; a
    zero diffusion field, as [LKF] passes, makes it a pure ODE stepper; it
    "fails with a NumericalError kind if the step produces non-finite
    values".  The model takes [nsub] explicit Euler sub-steps of equal
    length and fails when the state it has reached holds a non-finite
    entry.  The drift field may update the object that owns it ([Self]), as
    [f] does. *)
Section Integrator.
Variable S : Scalar.
Variables Self Params : Type.

Record Integrator : Type := {
  r_y : vec S;
  r_t : S;
  r_params : option Params
}.

Definition drift : Type :=
  Self -> S -> vec S -> Params -> result (vec S * Self).

Definition set_initial_value (y0 : vec S) (t0 : S) : Integrator :=
  {| r_y := y0; r_t := t0; r_params := None |}.

Definition set_f_params (r : Integrator) (p : Params) : Integrator :=
  {| r_y := r_y r; r_t := r_t r; r_params := Some p |}.

(** The update of one entry by a sub-step of length [h]: [a + h * b]. *)
Definition upd (h a b : S) : S := fadd S a (fmul S h b).

(** One sub-step: [y + h * f(t, y, *params)]. *)
Definition euler_step (fd : drift) (p : Params) (h : S)
           (self : Self) (t : S) (y : vec S) : result (vec S * Self) :=
  '(d, self) <- fd self t y p ;;
  y' <- bcast1 (upd h) y d ;;
  Ok (y', self).

Fixpoint euler_steps (fd : drift) (p : Params) (h : S) (k : nat)
         (self : Self) (t : S) (y : vec S) : result (vec S * Self) :=
  match k with
  | O => Ok (y, self)
  | Datatypes.S k' =>
      '(y', self) <- euler_step fd p h self t y ;;
      euler_steps fd p h k' self (fadd S t h) y'
  end.

(** [integrate(t_target)] with [nsub] sub-steps. *)
Definition integrate (nsub : nat) (fd : drift) (self : Self)
           (r : Integrator) (t_target : S) : result (Integrator * Self) :=
  match r_params r with
  | None => Err TypeError
  | Some p =>
      let h := fdiv S (fsub S t_target (r_t r)) (of_Z S (Z.of_nat nsub)) in
      '(y', self) <- euler_steps fd p h nsub self (r_t r) (r_y r) ;;
      if forallb (is_finite S) y'
      then Ok ({| r_y := y'; r_t := t_target; r_params := Some p |}, self)
      else Err NumericalError
  end.

End Integrator.

Arguments upd {S} h a b.
Arguments set_initial_value {S Params} y0 t0.
Arguments set_f_params {S Params} r p.
Arguments euler_step {S Self Params} fd p h self t y.
Arguments euler_steps {S Self Params} fd p h k self t y.
Arguments integrate {S Self Params} nsub fd self r t_target.

(** ** The filter *)

Section Filter.
Variable S : Scalar.
Variable LA : Linalg S.

(** The parameters [__call__] binds with [set_f_params]:
    [(z_t, err_hist, F_t)]. *)
Definition params : Type := (vec S * list (vec S) * mat S)%type.

(** The attributes of an [LKF] instance. *)
Record LKF : Type := {
  F : S -> mat S;
  H : mat S;
  Q : mat S;
  R : mat S;
  dt : S;
  tau : S;
  eps : S;
  eta_bnd : S;
  gamma : S;
  ndim : nat;
  err_hist : list (vec S);
  P_hist : list (mat S);
  e_zz_t : mat S;
  p_inv_t : mat S;
  x_t : mat S;
  P_t : mat S;
  eta_t : mat S;
  r : Integrator S params
}.

Definition set_p_inv_t (self : LKF) (M : mat S) : LKF :=
  {| F := F self; H := H self; Q := Q self; R := R self; dt := dt self;
     tau := tau self; eps := eps self; eta_bnd := eta_bnd self;
     gamma := gamma self; ndim := ndim self; err_hist := err_hist self;
     P_hist := P_hist self; e_zz_t := e_zz_t self; p_inv_t := M;
     x_t := x_t self; P_t := P_t self; eta_t := eta_t self; r := r self |}.

Definition set_e_zz_t (self : LKF) (M : mat S) : LKF :=
  {| F := F self; H := H self; Q := Q self; R := R self; dt := dt self;
     tau := tau self; eps := eps self; eta_bnd := eta_bnd self;
     gamma := gamma self; ndim := ndim self; err_hist := err_hist self;
     P_hist := P_hist self; e_zz_t := M; p_inv_t := p_inv_t self;
     x_t := x_t self; P_t := P_t self; eta_t := eta_t self; r := r self |}.

Definition set_r (self : LKF) (r' : Integrator S params) : LKF :=
  {| F := F self; H := H self; Q := Q self; R := R self; dt := dt self;
     tau := tau self; eps := eps self; eta_bnd := eta_bnd self;
     gamma := gamma self; ndim := ndim self; err_hist := err_hist self;
     P_hist := P_hist self; e_zz_t := e_zz_t self; p_inv_t := p_inv_t self;
     x_t := x_t self; P_t := P_t self; eta_t := eta_t self; r := r' |}.

(** [self.P_hist.append(P)] *)
Definition append_P_hist (self : LKF) (P : mat S) : LKF :=
  {| F := F self; H := H self; Q := Q self; R := R self; dt := dt self;
     tau := tau self; eps := eps self; eta_bnd := eta_bnd self;
     gamma := gamma self; ndim := ndim self; err_hist := err_hist self;
     P_hist := P_hist self ++ [P]; e_zz_t := e_zz_t self;
     p_inv_t := p_inv_t self;
     x_t := x_t self; P_t := P_t self; eta_t := eta_t self; r := r self |}.

(** [self.err_hist.append(e)] *)
Definition append_err_hist (self : LKF) (e : vec S) : LKF :=
  {| F := F self; H := H self; Q := Q self; R := R self; dt := dt self;
     tau := tau self; eps := eps self; eta_bnd := eta_bnd self;
     gamma := gamma self; ndim := ndim self; err_hist := err_hist self ++ [e];
     P_hist := P_hist self; e_zz_t := e_zz_t self; p_inv_t := p_inv_t self;
     x_t := x_t self; P_t := P_t self; eta_t := eta_t self; r := r self |}.

(** [self.x_t, self.P_t, self.eta_t = x, P, eta] *)
Definition set_vars (self : LKF) (x P eta : mat S) : LKF :=
  {| F := F self; H := H self; Q := Q self; R := R self; dt := dt self;
     tau := tau self; eps := eps self; eta_bnd := eta_bnd self;
     gamma := gamma self; ndim := ndim self; err_hist := err_hist self;
     P_hist := P_hist self; e_zz_t := e_zz_t self; p_inv_t := p_inv_t self;
     x_t := x; P_t := P; eta_t := eta; r := r self |}.

(** *** The drift field [f], lines 32 to 60 *)

(** Line 38: [K_t = P_t@self.H@np.linalg.inv(self.R)]. *)
Definition kalman_gain (self : LKF) (P : mat S) : result (mat S) :=
  PH <- matmul P (H self) ;;
  Rinv <- inv LA (R self) ;;
  matmul PH Rinv.

(** Line 43:
    [np.linalg.solve(P_t.T@P_t + self.eps*np.eye(self.ndim), P_t.T)]. *)
Definition regularized_inverse (self : LKF) (P : mat S) : result (mat S) :=
  PtP <- matmul (transpose P) P ;;
  A <- madd PtP (scale (eps self) (eye S (ndim self))) ;;
  solve LA A (transpose P).

(** Lines 46 to 48: the entries of the two history buffers the learning
    rule reads, [(err_t, err_tau, p_t, p_tau)]. *)
Definition lookback (self : LKF) (err_hist : list (vec S))
  : result (mat S * mat S * mat S * mat S) :=
  tau_n <- trunc S (fdiv S (tau self) (dt self)) ;;
  e_t <- py_index err_hist (-1) ;;
  e_tau <- py_index err_hist (- tau_n) ;;
  p_t <- py_index (P_hist self) (-1) ;;
  p_tau <- py_index (P_hist self) (- tau_n) ;;
  Ok (newaxis e_t, newaxis e_tau, p_t, p_tau).

(** Line 49. *)
Definition innovation_rate (self : LKF) (err_t err_tau p_t p_tau : mat S)
  : result (mat S) :=
  ee_t <- matmul err_t (transpose err_t) ;;
  ee_tau <- matmul err_tau (transpose err_tau) ;;
  de <- msub ee_t ee_tau ;;
  dp <- msub p_t p_tau ;;
  Hdp <- matmul (H self) dp ;;
  HdpH <- matmul Hdp (transpose (H self)) ;;
  msub (divide de (tau self)) (divide HdpH (tau self)).

(** Line 52: [self.gamma * H_inv@d_zz@H_inv.T@P_inv / 2], the operators
    associating to the left. *)
Definition candidate (self : LKF) (H_inv d_zz P_inv : mat S)
  : result (mat S) :=
  a <- matmul (scale (gamma self) H_inv) d_zz ;;
  b <- matmul a (transpose H_inv) ;;
  c <- matmul b P_inv ;;
  Ok (divide c (two S)).

(** Lines 42 to 52: the candidate [eta_new], with the two diagnostics
    stored on the way. *)
Definition eta_new (self : LKF) (P : mat S) (err_hist : list (vec S))
  : result (mat S * LKF) :=
  H_inv <- inv LA (H self) ;;
  P_inv <- regularized_inverse self P ;;
  let self := set_p_inv_t self P_inv in
  '(err_t, err_tau, p_t, p_tau) <- lookback self err_hist ;;
  d_zz <- innovation_rate self err_t err_tau p_t p_tau ;;
  let self := set_e_zz_t self d_zz in
  e <- candidate self H_inv d_zz P_inv ;;
  Ok (e, self).

(** Lines 40 to 54: the derivative of the drift correction. *)
Definition d_eta (self : LKF) (t : S) (P eta : mat S)
           (err_hist : list (vec S)) : result (mat S * LKF) :=
  let d := zeros S (ndim self) (ndim self) in
  if fgt S t (tau self) then
    '(e, self) <- eta_new self P err_hist ;;
    if fle S (norm LA e) (eta_bnd self) then
      de <- msub e eta ;;
      Ok (divide de (dt self), self)
    else Ok (d, self)
  else Ok (d, self).

Definition f (self : LKF) (t : S) (state : vec S) (p : params)
  : result (vec S * LKF) :=
  let '(z_t, err_hist, F_t) := p in
  state <- reshape (fst (ode_shape (ndim self)))
                   (snd (ode_shape (ndim self))) state ;;
  let x := cols 0 1 state in
  let P := cols 1 (1 + ndim self) state in
  let eta := cols_from (1 + ndim self) state in
  let z_t := newaxis z_t in
  K_t <- kalman_gain self P ;;
  '(de, self) <- d_eta self t P eta err_hist ;;
  F_est <- msub F_t eta ;;
  Fx <- matmul F_est x ;;
  Hx <- matmul (H self) x ;;
  innov <- msub z_t Hx ;;
  Kinnov <- matmul K_t innov ;;
  d_x <- madd Fx Kinnov ;;
  FP <- matmul F_est P ;;
  PFt <- matmul P (transpose F_est) ;;
  s1 <- madd FP PFt ;;
  s2 <- madd s1 (Q self) ;;
  KR <- matmul K_t (R self) ;;
  KRKt <- matmul KR (transpose K_t) ;;
  d_P <- msub s2 KRKt ;;
  d_state <- pack d_x d_P de ;;
  Ok (d_state, self).

(** Lines 62 and 63: the diffusion field is identically zero. *)
Definition g (self : LKF) (t : S) (state : vec S) : mat S :=
  zeros S (ode_ndim (ndim self)) (ode_ndim (ndim self)).

(** *** The constructor, lines 15 to 77 *)

(** [LKF(x0, F, H, Q, R, dt, tau, eta_bnd, eps, gamma)].  The defaults
    of the source are [tau = inf], [eta_bnd = inf], [eps = 1e-4] and
    [gamma = 1.]; here every argument is passed.  The closure [f] reads
    the argument [eta_bnd] rather than the attribute, which holds the same
    value. *)
Definition init (x0 : vec S) (F : S -> mat S) (H Q R : mat S)
           (dt tau eta_bnd eps gamma : S) : result LKF :=
  let ndim := length x0 in
  let x0 := newaxis x0 in
  let P0 := eye S ndim in
  let eta0 := zeros S ndim ndim in
  iv <- pack x0 P0 eta0 ;;
  Ok {| F := F; H := H; Q := Q; R := R; dt := dt; tau := tau; eps := eps;
        eta_bnd := eta_bnd; gamma := gamma; ndim := ndim;
        err_hist := []; P_hist := [];
        e_zz_t := zeros S ndim ndim; p_inv_t := zeros S ndim ndim;
        x_t := x0; P_t := P0; eta_t := eta0;
        r := set_initial_value iv (zero S) |}.

(** *** The per-tick operation [__call__], lines 84 to 94 *)

(** Modelled from the spec: [self.t] comes from the base class
    [LSProcess], which is not among the sources; a tick "advances internal
    time by exactly [dt]" and the integrator holds the clock, so [self.t]
    is the integrator's time. *)
Definition clock (self : LKF) : S := r_t (r self).

(** [np.squeeze] of an array of shape [(n, 1)]: 0-dimensional when
    [n = 1], 1-D of length [n] otherwise. *)
Inductive squeezed : Type :=
| Dim0 (a : S)
| Dim1 (v : vec S).

Definition squeeze (M : mat S) : squeezed :=
  match M with
  | [[a]] => Dim0 a
  | _ => Dim1 (ravel M)
  end.

(** [x @ N] after the squeeze: [matmul] refuses a 0-dimensional
    operand. *)
Definition squeezed_matmul (x : squeezed) (N : mat S) : result (vec S) :=
  match x with
  | Dim0 _ => Err ValueError
  | Dim1 v => vecmat v N
  end.

(** [x.copy()]: the same entries in an array of its own. *)
Definition copy (x : squeezed) : squeezed := x.

(** Lines 88 to 94: what [__call__] does once the integrator has
    advanced. *)
Definition record_and_return (self : LKF) (z_t : vec S)
  : result (LKF * (squeezed * vec S)) :=
  '(x, P, eta) <- load_vars (ndim self) (r_y (r self)) ;;
  let self := append_P_hist self P in
  let self := set_vars self x P eta in
  let x := squeeze x in
  xH <- squeezed_matmul x (transpose (H self)) ;;
  err_t <- bcast1 (fsub S) z_t xH ;;
  let self := append_err_hist self err_t in
  Ok (self, (copy x, err_t)).

Definition call (nsub : nat) (self : LKF) (z_t : vec S)
  : result (LKF * (squeezed * vec S)) :=
  let r1 := set_f_params (r self)
              (z_t, err_hist self, F self (clock self)) in
  let self := set_r self r1 in
  '(r2, self) <- integrate nsub (f) self (r self)
                   (fadd S (clock self) (dt self)) ;;
  let self := set_r self r2 in
  record_and_return self z_t.

(** The filter driven through a sequence of observations, starting from
    [self]; the outputs are returned in tick order. *)
Fixpoint run (nsub : nat) (self : LKF) (zs : list (vec S))
  : result (LKF * list (squeezed * vec S)) :=
  match zs with
  | [] => Ok (self, [])
  | z :: zs' =>
      '(self, out) <- call nsub self z ;;
      '(self, outs) <- run nsub self zs' ;;
      Ok (self, out :: outs)
  end.

End Filter.

Arguments init {S} x0 F H Q R dt tau eta_bnd eps gamma.
Arguments squeeze {S} M.
Arguments squeezed_matmul {S} x N.
Arguments copy {S} x.
Arguments Dim0 {S} a.
Arguments Dim1 {S} v.

(** ** Arrays as objects: buffers and views

    For the property that is about the identity of an array rather than
    its entries.  A numpy array is a view of a buffer: [reshape], slicing and
    [squeeze] return views of the buffer of their argument, while arithmetic
    and [copy] return an array with a buffer of its own. *)

Section Views.
Variable S : Scalar.

(** The buffers allocated so far, addressed by position. *)
Definition heap : Type := list (vec S).

(** An array object: the buffer it views and the offset of each entry. *)
Record view1 : Type := { base1 : nat; offs1 : list nat }.
Record view2 : Type := { base2 : nat; offs2 : list (list nat) }.

Definition buffer (h : heap) (b : nat) : vec S := nth b h [].

Definition read1 (h : heap) (v : view1) : vec S :=
  map (fun i => nth i (buffer h (base1 v)) (zero S)) (offs1 v).

Definition read2 (h : heap) (v : view2) : mat S :=
  map (map (fun i => nth i (buffer h (base2 v)) (zero S))) (offs2 v).

(** A new array holding [v]: a buffer of its own, viewed whole. *)
Definition alloc (h : heap) (v : vec S) : heap * view1 :=
  (h ++ [v], {| base1 := length h; offs1 := seq 0 (length v) |}).

(** In-place modification of the buffer [b], as an assignment through an
    array that views it does. *)
Definition store (h : heap) (b : nat) (w : vec S) : heap :=
  firstn b h ++ [w] ++ skipn (Datatypes.S b) h.

(** The array-valued attributes lines 88 to 94 read or assign: the
    integrator's vector [self.r.y], [self.x_t], [self.P_t], [self.eta_t]
    and the two history buffers. *)
Record refs : Type := {
  y_ref : view1;
  x_ref : view2;
  P_ref : view2;
  eta_ref : view2;
  P_hist_ref : list view2;
  err_hist_ref : list view1
}.

(** The buffers the filter's attributes view. *)
Definition bases (rs : refs) : list nat :=
  base1 (y_ref rs) :: base2 (x_ref rs) :: base2 (P_ref rs)
  :: base2 (eta_ref rs)
  :: map base2 (P_hist_ref rs) ++ map base1 (err_hist_ref rs).

(** Lines 88 to 94 on objects, for a state of dimension [n] and observation
    matrix [H]: the views [load_vars] cuts out of [self.r.y], the
    assignments, the squeeze (a view), the innovation (a new array) and the
    copy (a new array).  Returns the heap, the attributes and the two
    returned arrays [(x_t.copy(), err_t)]. *)
Definition record_and_return_refs (n : nat) (H : mat S) (h : heap)
           (rs : refs) (z_t : vec S)
  : result (heap * refs * (view1 * view1)) :=
  st <- reshape (fst (ode_shape n)) (snd (ode_shape n)) (offs1 (y_ref rs)) ;;
  let b := base1 (y_ref rs) in
  let x := {| base2 := b; offs2 := cols 0 1 st |} in
  let P := {| base2 := b; offs2 := cols 1 (1 + n) st |} in
  let eta := {| base2 := b; offs2 := cols_from (1 + n) st |} in
  let rs := {| y_ref := y_ref rs; x_ref := x; P_ref := P; eta_ref := eta;
               P_hist_ref := P_hist_ref rs ++ [P];
               err_hist_ref := err_hist_ref rs |} in
  match offs2 x with
  | [[_]] => Err ValueError
  | _ =>
      let xs := {| base1 := b; offs1 := ravel (offs2 x) |} in
      xH <- vecmat (read1 h xs) (transpose H) ;;
      err_t <- bcast1 (fsub S) z_t xH ;;
      let '(h, err_ref) := alloc h err_t in
      let rs := {| y_ref := y_ref rs; x_ref := x_ref rs; P_ref := P_ref rs;
                   eta_ref := eta_ref rs; P_hist_ref := P_hist_ref rs;
                   err_hist_ref := err_hist_ref rs ++ [err_ref] |} in
      let '(h, x_copy) := alloc h (read1 h xs) in
      Ok (h, rs, (x_copy, err_ref))
  end.

End Views.

Arguments buffer {S} h b.
Arguments read1 {S} h v.
Arguments read2 {S} h v.
Arguments alloc {S} h v.
Arguments store {S} h b w.
Arguments record_and_return_refs {S} n H h rs z_t.

(** ** Vocabulary of the specification *)

Section Vocabulary.
Variable S : Scalar.
Variable LA : Linalg S.
Implicit Types self : LKF S.

(** [self'] is [self] up to the two diagnostics [f] stores. *)
Definition frame self self' : Prop :=
  self' = set_e_zz_t (set_p_inv_t self (p_inv_t self')) (e_zz_t self').

(** The configuration has the dimensions the filter expects: [H], [Q], [R]
    and every [F(t)] are [n x n] for [n = ndim], and [n] is positive. *)
Definition well_shaped self : Prop :=
  0 < ndim self /\
  is_mat (ndim self) (ndim self) (H self) /\
  is_mat (ndim self) (ndim self) (Q self) /\
  is_mat (ndim self) (ndim self) (R self) /\
  forall t, is_mat (ndim self) (ndim self) (F self t).

(** [numpy.linalg.inv] returns an array of the shape of its argument. *)
Definition inv_keeps_shape : Prop :=
  forall n M X, is_mat n n M -> inv LA M = Ok X -> is_mat n n X.

(** The attributes agree with the augmented vector the integrator holds. *)
Definition synced self : Prop :=
  load_vars (ndim self) (r_y (r self)) = Ok (x_t self, P_t self, eta_t self).

(** The length of a sub-step of the tick that starts at [clock self]. *)
Definition substep (nsub : nat) self : S :=
  fdiv S (fsub S (fadd S (clock self) (dt self)) (clock self))
       (of_Z S (Z.of_nat nsub)).

(** The Kalman gain in the words of the specification,
    [K = P . H^T . R^-1], to be compared with [kalman_gain]. *)
Definition kalman_gain_spec self (P : mat S) : result (mat S) :=
  PHt <- matmul P (transpose (H self)) ;;
  Rinv <- inv LA (R self) ;;
  matmul PHt Rinv.

(** The entries of the history buffers in the words of the specification:
    "the most recent and tau-ticks-ago innovations" and "the corresponding
    covariances", [tau] seconds being [tau / dt] ticks: the last entry of
    each buffer and the entry [tau_n] places before it. *)
Definition lookback_spec self (eh : list (vec S))
  : result (mat S * mat S * mat S * mat S) :=
  tau_n <- trunc S (fdiv S (tau self) (dt self)) ;;
  e_t <- py_index eh (-1) ;;
  e_tau <- py_index eh (-1 - tau_n) ;;
  p_t <- py_index (P_hist self) (-1) ;;
  p_tau <- py_index (P_hist self) (-1 - tau_n) ;;
  Ok (newaxis e_t, newaxis e_tau, p_t, p_tau).

(** The innovation second-moment rate in the words of the specification:
    [d_zz = (err_t.err_t^T - err_tau.err_tau^T)/tau
            - H.(P_t - P_tau).H^T/tau]. *)
Definition d_zz_spec self (err_t err_tau p_t p_tau : mat S)
  : result (mat S) :=
  ee_t <- matmul err_t (transpose err_t) ;;
  ee_tau <- matmul err_tau (transpose err_tau) ;;
  de <- msub ee_t ee_tau ;;
  dp <- msub p_t p_tau ;;
  Hdp <- matmul (H self) dp ;;
  HdpH <- matmul Hdp (transpose (H self)) ;;
  msub (divide de (tau self)) (divide HdpH (tau self)).

(** The candidate drift correction in the words of the specification,
    [eta_new = (gamma / 2) . H^-1 . d_zz . H^-T . P_inv] with
    [P_inv = solve(P^T.P + eps.I, P^T)], for given history entries. *)
Definition eta_new_from self (P : mat S)
           (entries : result (mat S * mat S * mat S * mat S))
  : result (mat S) :=
  H_inv <- inv LA (H self) ;;
  PtP <- matmul (transpose P) P ;;
  A <- madd PtP (scale (eps self) (eye S (ndim self))) ;;
  P_inv <- solve LA A (transpose P) ;;
  '(err_t, err_tau, p_t, p_tau) <- entries ;;
  d_zz <- d_zz_spec self err_t err_tau p_t p_tau ;;
  a <- matmul H_inv d_zz ;;
  b <- matmul a (transpose H_inv) ;;
  c <- matmul b P_inv ;;
  Ok (scale (fdiv S (gamma self) (two S)) c).

(** The candidate of the specification: the formula over the entries the
    specification names. *)
Definition eta_new_spec self (P : mat S) (eh : list (vec S))
  : result (mat S) :=
  eta_new_from self P (lookback_spec self eh).

(** The dimensions of a configuration and of an observation agree with
    one another: for [n = len(x0)], [H], [Q] and [R] are [n x n] and the
    observation has length [n]. *)
Definition dims_consistent (x0 : vec S) (H Q R : mat S) (z : vec S) : Prop :=
  is_mat (length x0) (length x0) H /\
  is_mat (length x0) (length x0) Q /\
  is_mat (length x0) (length x0) R /\
  length z = length x0.

(** The dimension numpy's broadcasting gives to the result from the
    dimensions [a] and [b] of the operands, when it accepts them: they are
    equal, or one of them is 1 and gives way to the other. *)
Definition bcast_dim (a b : nat) : nat :=
  if a =? b then a else if a =? 1 then b else a.

Definition bcast_compatible (a b : nat) : Prop := a = b \/ a = 1 \/ b = 1.

(** [numpy.linalg.inv] raises unless its argument is square, and returns
    an array of the same shape. *)
Definition inv_wants_square : Prop :=
  forall M X, inv LA M = Ok X -> exists k, is_mat k k M /\ is_mat k k X.

(** The product [H . x] of a matrix and a vector, as the specification
    writes the predicted observation. *)
Definition matvec (M : mat S) (v : vec S) : vec S :=
  map (fun row => dot row v) M.

(** The gate test of line 53 fails: [norm <= bound] is false. *)
Definition gate_fails (a b : S) : bool := negb (fle S a b).

(** The evaluation of [f] at time [t] on covariance block [P] computes no
    candidate whose norm does not exceed [eta_bnd]: none is computed
    ([t <= tau]), its computation raises, or its norm exceeds the bound in
    the sense of [exceeds]. *)
Definition rejected (exceeds : S -> S -> bool) self (t : S) (P : mat S)
           (eh : list (vec S)) : bool :=
  if fgt S t (tau self) then
    match eta_new LA self P eh with
    | Ok (e, _) => exceeds (norm LA e) (eta_bnd self)
    | Err _ => true
    end
  else true.

(** The same for every candidate computed during [k] Euler sub-steps from
    [(t, y)]. *)
Fixpoint all_rejected (exceeds : S -> S -> bool) (p : params S) (h : S)
         (k : nat) self (t : S) (y : vec S) : bool :=
  match k with
  | O => true
  | Datatypes.S k' =>
      match reshape (ndim self) (1 + 2 * ndim self) y with
      | Ok st =>
          rejected exceeds self t (cols 1 (1 + ndim self) st) (snd (fst p))
      | Err _ => true
      end
      && match euler_step (f LA) p h self t y with
         | Ok (y', self') =>
             all_rejected exceeds p h k' self' (fadd S t h) y'
         | Err _ => true
         end
  end.

(** The same for the tick [call nsub self z]. *)
Definition tick_rejected (exceeds : S -> S -> bool) (nsub : nat) self
           (z : vec S) : bool :=
  let p := (z, err_hist self, F self (clock self)) in
  all_rejected exceeds p (substep nsub self) nsub
               (set_r self (set_f_params (r self) p))
               (clock self) (r_y (r self)).

End Vocabulary.

Arguments dims_consistent {S} x0 H Q R z.
Arguments matvec {S} M v.

(** ** Two instances of the scalar interface, for evaluation *)

(** Exact rational arithmetic on canonical fractions. *)
Module Exact.

Definition of_int (z : Z) : Qc := Q2Qc (inject_Z z).

Definition gt (a b : Qc) : bool := negb (Qle_bool (this a) (this b)).
Definition le (a b : Qc) : bool := Qle_bool (this a) (this b).

(** [int(a)]: truncation towards zero. *)
Definition to_int (a : Qc) : result Z :=
  Ok (Z.quot (Qnum (this a)) (Zpos (Qden (this a)))).

Definition scalar : Scalar :=
  {| num := Qc; of_Z := of_int;
     fadd := Qcplus; fsub := Qcminus; fmul := Qcmult; fdiv := Qcdiv;
     fgt := gt; fle := le; trunc := to_int; is_finite := fun _ => true |}.

Definition is_zero (a : Qc) : bool := Qeq_bool (this a) (inject_Z 0).

(** [numpy.linalg.inv] on square arrays of order one and two; larger
    orders are not needed for the evaluations below and are refused. *)
Definition inverse (M : mat scalar) : result (mat scalar) :=
  match M with
  | [[a]] =>
      if is_zero a then Err LinAlgError
      else Ok [[Qcdiv (of_int 1) a]]
  | [[a; b]; [c; d]] =>
      let det := Qcminus (Qcmult a d) (Qcmult b c) in
      if is_zero det then Err LinAlgError
      else Ok [[Qcdiv d det; Qcdiv (Qcopp b) det];
               [Qcdiv (Qcopp c) det; Qcdiv a det]]
  | _ => Err LinAlgError
  end.

Definition solve_with (A B : mat scalar) : result (mat scalar) :=
  Ainv <- inverse A ;; @matmul scalar Ainv B.

(** The Frobenius norm: exact whenever the sum of the squares is the
    square of a fraction, the integer square roots being rounded down
    otherwise. *)
Definition frobenius (M : mat scalar) : scalar :=
  let s := fold_right Qcplus (of_int 0)
             (map (fun a : Qc => Qcmult a a) (concat M)) in
  Q2Qc (Qmake (Z.sqrt (Qnum (this s))) (Z.to_pos (Z.sqrt (Zpos (Qden (this s)))))).

Definition linalg : Linalg scalar :=
  {| inv := inverse; solve := solve_with; norm := frobenius |}.

(** Arrays of canonical fractions shown as plain fractions. *)
Definition show1 (v : vec scalar) : list QArith_base.Q := map this v.
Definition show2 (M : mat scalar) : list (list QArith_base.Q) :=
  map show1 M.

End Exact.

(** The rationals with a greatest element [None] adjoined, standing for
    [float('inf')].  [None] absorbs sums, differences, quotients and
    products by a non-zero factor; no number is greater than it. *)
Module WithInf.

Definition ext : Type := option Qc.

Definition lift (op : Qc -> Qc -> Qc) (a b : ext) : ext :=
  match a, b with
  | Some x, Some y => Some (op x y)
  | _, _ => None
  end.

Definition times (a b : ext) : ext :=
  match a, b with
  | Some x, Some y => Some (Qcmult x y)
  | Some x, None | None, Some x =>
      if Exact.is_zero x then Some x else None
  | None, None => None
  end.

Definition gt (a b : ext) : bool :=
  match a, b with
  | Some x, Some y => Exact.gt x y
  | None, Some _ => true
  | _, None => false
  end.

Definition le (a b : ext) : bool :=
  match a, b with
  | Some x, Some y => Exact.le x y
  | _, None => true
  | None, Some _ => false
  end.

Definition to_int (a : ext) : result Z :=
  match a with
  | Some x => Exact.to_int x
  | None => Err OverflowError
  end.

Definition scalar : Scalar :=
  {| num := ext; of_Z := fun z => Some (Exact.of_int z);
     fadd := lift Qcplus; fsub := lift Qcminus; fmul := times;
     fdiv := lift Qcdiv; fgt := gt; fle := le; trunc := to_int;
     is_finite := fun a => match a with Some _ => true | None => false end |}.

Definition inf : scalar := None.

Definition fin (M : mat Exact.scalar) : mat scalar := map (map Some) M.

Fixpoint unfin1 (v : vec scalar) : result (vec Exact.scalar) :=
  match v with
  | [] => Ok []
  | Some a :: v' => r <- unfin1 v' ;; Ok (a :: r)
  | None :: _ => Err LinAlgError
  end.

Definition unfin (M : mat scalar) : result (mat Exact.scalar) :=
  sequence (map unfin1 M).

(** [numpy.linalg] through the exact instance; an infinite entry is
    refused. *)
Definition linalg : Linalg scalar :=
  {| inv := fun M => M' <- unfin M ;; R <- Exact.inverse M' ;; Ok (fin R);
     solve := fun A B =>
                A' <- unfin A ;; B' <- unfin B ;;
                R <- Exact.solve_with A' B' ;; Ok (fin R);
     norm := fun M =>
               match unfin M with
               | Ok M' => Some (Exact.frobenius M')
               | Err _ => None
               end |}.

End WithInf.

(** ** Sample data

    A two-dimensional system with [H = Q = R = I], as in the experiments,
    over exact fractions. *)
Module Sample.

Definition c (z : Z) : Exact.scalar := Exact.of_int z.
Definition frac (a : Z) (b : positive) : Exact.scalar := Q2Qc (Qmake a b).

Definition x : mat Exact.scalar := [[c 1]; [c 2]].
Definition P : mat Exact.scalar := [[c 3; c 4]; [c 5; c 6]].
Definition eta : mat Exact.scalar := [[c 7; c 8]; [c 9; c 10]].

(** The configuration: a rotation as nominal dynamics, [dt = 1/2],
    [tau = 1], [eps = 1/10], [gamma = 1]. *)
Definition I2 : mat Exact.scalar := eye Exact.scalar 2.
Definition F0 (t : Exact.scalar) : mat Exact.scalar :=
  [[c 0; c 1]; [c (-1); c 0]].
Definition x0 : vec Exact.scalar := [c (-1); c (-1)].
Definition dt0 : Exact.scalar := frac 1 2.
Definition tau0 : Exact.scalar := c 1.
Definition eps0 : Exact.scalar := frac 1 10.
Definition gamma0 : Exact.scalar := c 1.

(** Four observations of the same point. *)
Definition z : vec Exact.scalar := [c 1; c 2].
Definition zs : list (vec Exact.scalar) := [z; z; z; z].

(** The filter with the gate wide open ([eta_bnd = 100]) and with the gate
    shut ([eta_bnd = 0], no non-zero candidate passes). *)
Definition open_gate : result (LKF Exact.scalar) :=
  init x0 F0 I2 I2 I2 dt0 tau0 (c 100) eps0 gamma0.
Definition shut_gate : result (LKF Exact.scalar) :=
  init x0 F0 I2 I2 I2 dt0 tau0 (c 0) eps0 gamma0.

(** A filter whose observation matrix is not symmetric, freshly
    constructed: [H = [[1, 1], [0, 1]]], [Q = R = I], [F(t) = 0],
    [x0 = (0, 0)]; and the observation [(1, 0)]. *)
Definition H_skew : mat Exact.scalar := [[c 1; c 1]; [c 0; c 1]].
Definition F_zero (t : Exact.scalar) : mat Exact.scalar :=
  zeros Exact.scalar 2 2.
Definition skew : result (LKF Exact.scalar) :=
  init [c 0; c 0] F_zero H_skew I2 I2 dt0 tau0 (c 100) eps0 gamma0.
Definition z10 : vec Exact.scalar := [c 1; c 0].

(** Configurations whose dimensions do not agree with [n = 2]: a
    process-noise covariance of shape [(1, 1)], an observation of length
    one, and an observation matrix of shape [(2, 3)]. *)
Definition Q_small : mat Exact.scalar := [[c 1]].
Definition small_Q : result (LKF Exact.scalar) :=
  init x0 F0 I2 Q_small I2 dt0 tau0 (c 100) eps0 gamma0.
Definition z_short : vec Exact.scalar := [c 1].
Definition H_wide : mat Exact.scalar := [[c 1; c 0; c 0]; [c 0; c 1; c 0]].
Definition wide_H : result (LKF Exact.scalar) :=
  init x0 F0 H_wide I2 I2 dt0 tau0 (c 100) eps0 gamma0.

(** The attributes of a filter whose only array so far is the integrator's
    vector, of length [len], in buffer 0. *)
Definition only_y (len : nat) : refs :=
  {| y_ref := {| base1 := 0; offs1 := seq 0 len |};
     x_ref := {| base2 := 0; offs2 := [] |};
     P_ref := {| base2 := 0; offs2 := [] |};
     eta_ref := {| base2 := 0; offs2 := [] |};
     P_hist_ref := []; err_hist_ref := [] |}.

(** The state of a filter after its first [k] sample ticks, one Euler
    sub-step per tick. *)
Definition blank : LKF Exact.scalar :=
  {| F := F0; H := []; Q := []; R := []; dt := dt0; tau := tau0; eps := eps0;
     eta_bnd := c 0; gamma := gamma0; ndim := 0; err_hist := []; P_hist := [];
     e_zz_t := []; p_inv_t := []; x_t := []; P_t := []; eta_t := [];
     r := set_initial_value [] (c 0) |}.

Definition after (k : nat) (flt : result (LKF Exact.scalar))
  : LKF Exact.scalar :=
  fst (get (blank, [])
           (self <- flt ;; run Exact.linalg 1 self (firstn k zs))).

End Sample.

(** The sample configuration with an infinite delay window, over the
    rationals with infinity. *)
Module SampleInf.

Definition I2 : mat WithInf.scalar := WithInf.fin Sample.I2.
Definition F0 (t : WithInf.scalar) : mat WithInf.scalar :=
  WithInf.fin (Sample.F0 (Sample.c 0)).
Definition x0 : vec WithInf.scalar := map Some Sample.x0.
Definition zs : list (vec WithInf.scalar) := map (map Some) Sample.zs.

Definition never_learning : result (LKF WithInf.scalar) :=
  init x0 F0 I2 I2 I2 (Some Sample.dt0) WithInf.inf (Some (Sample.c 100))
       (Some Sample.eps0) (Some Sample.gamma0).

End SampleInf.

(** ** Sample data for the edges of the code *)

Module Edge.

(** A filter with a one-dimensional state, [x0 = (1)], [F = 0] and
    [H = Q = R = (1)], freshly constructed. *)
Definition I1 : mat Exact.scalar := eye Exact.scalar 1.
Definition F1 (t : Exact.scalar) : mat Exact.scalar := [[Sample.c 0]].
Definition scalar_state : LKF Exact.scalar :=
  get Sample.blank
      (init [Sample.c 1] F1 I1 I1 I1 Sample.dt0 Sample.tau0 (Sample.c 100)
            Sample.eps0 Sample.gamma0).

(** The sample configuration with a delay window shorter than a tick,
    [tau = 1/4 < dt = 1/2], after its first [k] ticks. *)
Definition short_window (k : nat) : LKF Exact.scalar :=
  Sample.after k
    (init Sample.x0 Sample.F0 Sample.I2 Sample.I2 Sample.I2 Sample.dt0
          (Sample.frac 1 4) (Sample.c 100) Sample.eps0 Sample.gamma0).

(** The sample configuration with a singular [R], freshly constructed. *)
Definition singular_R : LKF Exact.scalar :=
  get Sample.blank
      (init Sample.x0 Sample.F0 Sample.I2 Sample.I2 (zeros Exact.scalar 2 2)
            Sample.dt0 Sample.tau0 (Sample.c 100) Sample.eps0 Sample.gamma0).

(** The integrator's vector of the freshly constructed sample filter, of
    length ten. *)
Definition y0 : vec Exact.scalar := r_y (r (Sample.after 0 Sample.open_gate)).

End Edge.

(** * Properties *)

(** ** Shapes and the layout of the augmented state *)

Section NdarrayFacts.
Context {A : Type}.
Implicit Types (M N : mat A) (l : vec A).

Lemma is_mat_length r c M : is_mat r c M -> length M = r.
Proof. intros [HM _]; exact HM. Qed.

Lemma is_mat_cons r c row M :
  is_mat (S r) c (row :: M) <-> length row = c /\ is_mat r c M.
Proof.
  unfold is_mat; simpl; split.
  - intros [Hl Hf]; inversion Hf; subst; repeat split; auto.
  - intros [Hr [Hl Hf]]; split; [lia | constructor; auto].
Qed.

Lemma is_matb_spec r c M : is_matb r c M = true <-> is_mat r c M.
Proof.
  unfold is_matb, is_mat.
  rewrite andb_true_iff, Nat.eqb_eq, forallb_forall, Forall_forall.
  split; intros [H1 H2]; split; auto; intros x Hx; specialize (H2 x Hx);
    now apply Nat.eqb_eq.
Qed.

Lemma length_ravel r c M : is_mat r c M -> length (ravel M) = r * c.
Proof.
  revert r; induction M as [|row M IH]; intros r HM.
  - apply is_mat_length in HM; simpl in *; subst; reflexivity.
  - destruct r as [|r]; [apply is_mat_length in HM; discriminate|].
    apply is_mat_cons in HM as [Hrow HM].
    unfold ravel in *; simpl; rewrite length_app, (IH r HM); lia.
Qed.

Lemma chunks_ravel r c M : is_mat r c M -> chunks c r (ravel M) = M.
Proof.
  revert r; induction M as [|row M IH]; intros r HM.
  - apply is_mat_length in HM; simpl in HM; subst; reflexivity.
  - destruct r as [|r]; [apply is_mat_length in HM; discriminate|].
    apply is_mat_cons in HM as [Hrow HM].
    subst c; unfold ravel in *; simpl.
    rewrite firstn_app, skipn_app, firstn_all, skipn_all, Nat.sub_diag.
    simpl; rewrite app_nil_r; now rewrite (IH r HM).
Qed.

Lemma reshape_ravel r c M : is_mat r c M -> reshape r c (ravel M) = Ok M.
Proof.
  intros HM; unfold reshape.
  rewrite (length_ravel HM), Nat.eqb_refl, (chunks_ravel HM); reflexivity.
Qed.

Lemma zip_app_is_mat r c d M N :
  is_mat r c M -> is_mat r d N -> is_mat r (c + d) (zip_app M N).
Proof.
  revert r N; induction M as [|row M IH]; intros r N HM HN.
  - apply is_mat_length in HM; simpl in HM; subst; split; simpl; auto.
  - destruct r as [|r]; [apply is_mat_length in HM; discriminate|].
    destruct N as [|s N]; [apply is_mat_length in HN; discriminate|].
    apply is_mat_cons in HM as [Hrow HM]; apply is_mat_cons in HN as [Hs HN].
    simpl; apply is_mat_cons; split; [rewrite length_app; lia | auto].
Qed.

Lemma concat1_ok r c d M N :
  is_mat r c M -> is_mat r d N -> concat1 M N = Ok (zip_app M N).
Proof.
  intros HM HN; unfold concat1.
  now rewrite (is_mat_length HM), (is_mat_length HN), Nat.eqb_refl.
Qed.

(** The slices of a row-wise concatenation give the parts back. *)
Lemma zip_app_left r c d M N :
  is_mat r c M -> is_mat r d N ->
  map (fun row => firstn c row) (zip_app M N) = M.
Proof.
  revert r N; induction M as [|row M IH]; intros r N HM HN; [reflexivity|].
  destruct r as [|r]; [apply is_mat_length in HM; discriminate|].
  destruct N as [|s N]; [apply is_mat_length in HN; discriminate|].
  apply is_mat_cons in HM as [Hrow HM]; apply is_mat_cons in HN as [Hs HN].
  subst c; simpl; rewrite (IH r N HM HN); f_equal.
  rewrite firstn_app, firstn_all, Nat.sub_diag; simpl.
  now rewrite app_nil_r.
Qed.

Lemma zip_app_right r c d M N :
  is_mat r c M -> is_mat r d N ->
  map (fun row => skipn c row) (zip_app M N) = N.
Proof.
  revert r N; induction M as [|row M IH]; intros r N HM HN.
  - apply is_mat_length in HM; simpl in HM; subst r.
    destruct N; [reflexivity | apply is_mat_length in HN; discriminate].
  - destruct r as [|r]; [apply is_mat_length in HM; discriminate|].
    destruct N as [|s N]; [apply is_mat_length in HN; discriminate|].
    apply is_mat_cons in HM as [Hrow HM]; apply is_mat_cons in HN as [Hs HN].
    subst c; simpl; rewrite (IH r N HM HN); f_equal.
    now rewrite skipn_app, skipn_all, Nat.sub_diag.
Qed.

End NdarrayFacts.

Section RoundTrip.
Context {A : Type}.

Lemma pack_ok n (x P eta : mat A) :
  is_mat n 1 x -> is_mat n n P -> is_mat n n eta ->
  pack x P eta = Ok (ravel (zip_app (zip_app x P) eta)).
Proof.
  intros Hx HP He; unfold pack, concatenate3.
  rewrite (concat1_ok Hx HP); simpl.
  now rewrite (concat1_ok (zip_app_is_mat Hx HP) He).
Qed.

Lemma slices_zip_app n (x P eta : mat A) :
  is_mat n 1 x -> is_mat n n P -> is_mat n n eta ->
  let M := zip_app (zip_app x P) eta in
  cols 0 1 M = x /\ cols 1 (1 + n) M = P /\ cols_from (1 + n) M = eta.
Proof.
  intros Hx HP He M.
  pose proof (zip_app_is_mat Hx HP) as HXP.
  assert (Hleft : map (fun row => firstn (1 + n) row) M = zip_app x P)
    by (apply (zip_app_left HXP He)).
  repeat split.
  - transitivity (map (fun row => firstn 1 row) (zip_app x P));
      [|exact (zip_app_left Hx HP)].
    rewrite <- Hleft.
    unfold cols; rewrite map_map; apply map_ext; intros row.
    rewrite firstn_firstn; simpl; reflexivity.
  - transitivity (map (fun row => skipn 1 row) (zip_app x P));
      [|exact (zip_app_right Hx HP)].
    rewrite <- Hleft.
    unfold cols; rewrite map_map; apply map_ext; intros row.
    replace (1 + n - 1) with n by lia.
    now rewrite firstn_skipn_comm.
  - apply (zip_app_right HXP He).
Qed.

Lemma load_vars_pack n (x P eta : mat A) (v : vec A) :
  is_mat n 1 x -> is_mat n n P -> is_mat n n eta ->
  pack x P eta = Ok v ->
  length v = n * (1 + 2 * n) /\ load_vars n v = Ok (x, P, eta).
Proof.
  intros Hx HP He Hv.
  rewrite (pack_ok Hx HP He) in Hv; injection Hv as <-.
  assert (HM : is_mat n (1 + 2 * n) (zip_app (zip_app x P) eta)).
  { replace (1 + 2 * n) with (1 + n + n) by lia.
    exact (zip_app_is_mat (zip_app_is_mat Hx HP) He). }
  split; [exact (length_ravel HM)|].
  unfold load_vars, ode_shape; cbn [fst snd].
  rewrite (reshape_ravel HM); cbn [bind].
  destruct (slices_zip_app Hx HP He) as (-> & -> & ->); reflexivity.
Qed.

End RoundTrip.

(** C4.  For [x] of shape [n x 1] and [P], [eta] of shape [n x n], packing
    [(x, P, eta)] succeeds, gives a flat vector of length [n * (1 + 2n)],
    and [load_vars] on that vector gives back exactly [(x, P, eta)]: the
    entries are moved, never computed with, so each one is the very value
    that was packed. *)
Theorem pack_load_vars_round_trip (A : Type) (n : nat) (x P eta : mat A) :
  is_mat n 1 x -> is_mat n n P -> is_mat n n eta ->
  exists v : vec A,
    pack x P eta = Ok v /\
    length v = n * (1 + 2 * n) /\
    load_vars n v = Ok (x, P, eta).
Proof.
  intros Hx HP He.
  exists (ravel (zip_app (zip_app x P) eta)).
  pose proof (pack_ok Hx HP He) as Hv.
  destruct (load_vars_pack Hx HP He Hv) as [Hlen Hload]; auto.
Qed.

Lemma pack_load_vars_round_trip_witness :
  exists v : vec Exact.scalar,
    pack Sample.x Sample.P Sample.eta = Ok v /\
    length v = 2 * (1 + 2 * 2) /\
    load_vars 2 v = Ok (Sample.x, Sample.P, Sample.eta).
Proof.
  apply (@pack_load_vars_round_trip Exact.scalar 2);
    apply is_matb_spec; reflexivity.
Defined.

(** ** The constructor *)

Section Construction.
Variable S : Scalar.

Lemma is_mat_intro (A : Type) r c (M : mat A) :
  length M = r -> (forall row, In row M -> length row = c) -> is_mat r c M.
Proof. intros Hl Hr; split; [exact Hl | now apply Forall_forall]. Qed.

Lemma newaxis_is_mat (A : Type) (v : vec A) : is_mat (length v) 1 (newaxis v).
Proof.
  apply is_mat_intro; unfold newaxis.
  - apply length_map.
  - intros row Hin; apply in_map_iff in Hin as (a & <- & _); reflexivity.
Qed.

Lemma zeros_is_mat r c : is_mat r c (zeros S r c).
Proof.
  apply is_mat_intro; unfold zeros.
  - apply repeat_length.
  - intros row Hin; apply repeat_spec in Hin; subst; apply repeat_length.
Qed.

Lemma eye_is_mat n : is_mat n n (eye S n).
Proof.
  apply is_mat_intro; unfold eye.
  - now rewrite length_map, length_seq.
  - intros row Hin; apply in_map_iff in Hin as (i & <- & _).
    now rewrite length_map, length_seq.
Qed.

(** The entries of [np.eye(n)]: one on the diagonal, zero elsewhere. *)
Lemma eye_entry n i j :
  i < n -> j < n ->
  nth j (nth i (eye S n) []) (zero S) = if i =? j then one S else zero S.
Proof.
  intros Hi Hj; unfold eye.
  rewrite (nth_indep _ [] (map (fun j => if 0 =? j then one S else zero S)
                               (seq 0 n)))
    by now rewrite length_map, length_seq.
  rewrite (map_nth (fun i => map (fun j => if i =? j then one S else zero S)
                                 (seq 0 n))).
  rewrite seq_nth by assumption; simpl.
  rewrite (nth_indep _ (zero S) (if i =? 0 then one S else zero S))
    by now rewrite length_map, length_seq.
  rewrite (map_nth (fun j => if i =? j then one S else zero S)).
  now rewrite seq_nth by assumption.
Qed.

Lemma zeros_entry r c i j :
  i < r -> j < c -> nth j (nth i (zeros S r c) []) (zero S) = zero S.
Proof.
  intros Hi Hj; unfold zeros.
  assert (Hrow : nth i (repeat (repeat (zero S) c) r) [] = repeat (zero S) c).
  { apply (@repeat_spec _ r); apply nth_In; now rewrite repeat_length. }
  rewrite Hrow; apply (@repeat_spec _ c); apply nth_In.
  now rewrite repeat_length.
Qed.

Lemma init_ok (x0 : vec S) (F : S -> mat S) (H Q R : mat S)
      (dt tau eta_bnd eps gamma : S) :
  exists iv,
    pack (newaxis x0) (eye S (length x0)) (zeros S (length x0) (length x0))
    = Ok iv /\
    init x0 F H Q R dt tau eta_bnd eps gamma =
    Ok {| F := F; H := H; Q := Q; R := R; dt := dt; tau := tau; eps := eps;
          eta_bnd := eta_bnd; gamma := gamma; ndim := length x0;
          err_hist := []; P_hist := [];
          e_zz_t := zeros S (length x0) (length x0);
          p_inv_t := zeros S (length x0) (length x0);
          x_t := newaxis x0; P_t := eye S (length x0);
          eta_t := zeros S (length x0) (length x0);
          r := set_initial_value iv (zero S) |}.
Proof.
  eexists; split.
  - apply (pack_ok (newaxis_is_mat x0) (eye_is_mat _) (zeros_is_mat _ _)).
  - unfold init.
    rewrite (pack_ok (newaxis_is_mat x0) (eye_is_mat _) (zeros_is_mat _ _)).
    reflexivity.
Qed.

(** C10.  Construction never fails; the new filter has [P = np.eye(n)],
    [eta = np.zeros((n, n))] and state estimate [x0] (as a column), both in
    its attributes and in the augmented vector handed to the integrator,
    whose clock starts at zero; both history buffers are empty.  Entry
    [(i, j)] of [P] is one on the diagonal and zero off it, every entry of
    [eta] is zero. *)
Theorem init_state (x0 : vec S) (F : S -> mat S) (H Q R : mat S)
        (dt tau eta_bnd eps gamma : S) :
  exists self : LKF S,
    init x0 F H Q R dt tau eta_bnd eps gamma = Ok self /\
    ndim self = length x0 /\
    x_t self = newaxis x0 /\
    P_t self = eye S (length x0) /\
    eta_t self = zeros S (length x0) (length x0) /\
    load_vars (length x0) (r_y (r self))
    = Ok (newaxis x0, eye S (length x0), zeros S (length x0) (length x0)) /\
    clock self = zero S /\
    err_hist self = [] /\ P_hist self = [] /\
    forall i j, i < length x0 -> j < length x0 ->
      nth j (nth i (P_t self) []) (zero S)
      = (if i =? j then one S else zero S) /\
      nth j (nth i (eta_t self) []) (zero S) = zero S.
Proof.
  destruct (init_ok x0 F H Q R dt tau eta_bnd eps gamma) as (iv & Hiv & Hinit).
  eexists; split; [exact Hinit|]; cbn.
  repeat split.
  - apply (load_vars_pack (newaxis_is_mat x0) (eye_is_mat _)
                          (zeros_is_mat _ _) Hiv).
  - now apply eye_entry.
  - now apply zeros_entry.
Qed.

End Construction.

(** ** What the drift field leaves alone *)

Lemma ok_inv (A : Type) (m : result A) : is_ok m = true -> exists a, m = Ok a.
Proof. destruct m; [eexists; reflexivity | discriminate]. Qed.

(** Splits a successful [bind] in hypothesis [H] into its two steps. *)
Ltac bind_inv H :=
  match type of H with
  | bind ?m _ = Ok _ =>
      let E := fresh "E" in
      destruct m eqn:E; cbn [bind] in H; [|discriminate H]
  end.

Ltac bind_inv_as H E :=
  match type of H with
  | bind ?m _ = Ok _ =>
      destruct m eqn:E; cbn [bind] in H; [|discriminate H]
  end.

Section Frame.
Variable S : Scalar.
Variable LA : Linalg S.
Implicit Types self : LKF S.

Lemma frame_refl self : frame self self.
Proof. destruct self; reflexivity. Qed.

Lemma frame_trans self1 self2 self3 :
  frame self1 self2 -> frame self2 self3 -> frame self1 self3.
Proof.
  unfold frame; intros H12 H23; rewrite H23 at 1; rewrite H12 at 1.
  reflexivity.
Qed.

Lemma frame_set_p_inv_t self M : frame self (set_p_inv_t self M).
Proof. destruct self; reflexivity. Qed.

Lemma frame_set_e_zz_t self M : frame self (set_e_zz_t self M).
Proof. destruct self; reflexivity. Qed.

Lemma frame_set_r self self' r' :
  frame self self' -> frame (set_r self r') (set_r self' r').
Proof. unfold frame; intros ->; reflexivity. Qed.

Lemma frame_fields self self' :
  frame self self' ->
  H self' = H self /\ Q self' = Q self /\ R self' = R self /\
  dt self' = dt self /\ tau self' = tau self /\ eps self' = eps self /\
  eta_bnd self' = eta_bnd self /\ gamma self' = gamma self /\
  ndim self' = ndim self /\ F self' = F self /\
  err_hist self' = err_hist self /\ P_hist self' = P_hist self /\
  x_t self' = x_t self /\ P_t self' = P_t self /\ eta_t self' = eta_t self /\
  r self' = r self.
Proof. unfold frame; intros ->; repeat split. Qed.

Lemma eta_new_frame self P eh e self' :
  eta_new LA self P eh = Ok (e, self') -> frame self self'.
Proof.
  unfold eta_new; intros Hn.
  bind_inv Hn; bind_inv Hn; bind_inv Hn.
  destruct a1 as [[[err_t err_tau] p_t] p_tau].
  bind_inv Hn; bind_inv Hn.
  injection Hn as _ <-.
  eapply frame_trans; [apply frame_set_p_inv_t | apply frame_set_e_zz_t].
Qed.

Lemma d_eta_frame self t P eta eh d self' :
  d_eta LA self t P eta eh = Ok (d, self') -> frame self self'.
Proof.
  unfold d_eta; intros Hd.
  destruct (fgt S t (tau self)).
  - bind_inv Hd; destruct a as [e self1].
    apply eta_new_frame in E.
    destruct (fle S (norm LA e) (eta_bnd self1)).
    + bind_inv Hd; injection Hd as _ <-; exact E.
    + injection Hd as _ <-; exact E.
  - injection Hd as _ <-; apply frame_refl.
Qed.

End Frame.

(** ** Shapes of the results of numpy arithmetic *)

Section Shapes.
Context {A : Type}.
Implicit Types (M N : mat A) (u v : vec A).

Lemma length_map2 (B C : Type) (g : A -> B -> C) u (w : list B) :
  length u = length w -> length (map2 g u w) = length u.
Proof.
  revert w; induction u as [|a u IH]; intros [|b w] Hl; simpl in *;
    try discriminate; auto.
Qed.

Lemma map2_app (B C : Type) (g : A -> B -> C) u1 u2 (w1 w2 : list B) :
  length u1 = length w1 ->
  map2 g (u1 ++ u2) (w1 ++ w2) = map2 g u1 w1 ++ map2 g u2 w2.
Proof.
  revert w1; induction u1 as [|a u1 IH]; intros [|b w1] Hl; simpl in *;
    try discriminate; auto.
  now rewrite IH by lia.
Qed.

Lemma map2_zip_app_rows (g : A -> A -> A) r c d (M1 M2 N1 N2 : mat A) :
  is_mat r c M1 -> is_mat r d M2 -> is_mat r c N1 -> is_mat r d N2 ->
  map2 (map2 g) (zip_app M1 M2) (zip_app N1 N2)
  = zip_app (map2 (map2 g) M1 N1) (map2 (map2 g) M2 N2).
Proof.
  revert r M2 N1 N2; induction M1 as [|a M1 IH]; intros r M2 N1 N2 H1 H2 H3 H4.
  - reflexivity.
  - destruct r as [|r]; [apply is_mat_length in H1; discriminate|].
    destruct M2 as [|b M2]; [apply is_mat_length in H2; discriminate|].
    destruct N1 as [|a' N1]; [apply is_mat_length in H3; discriminate|].
    destruct N2 as [|b' N2]; [apply is_mat_length in H4; discriminate|].
    apply is_mat_cons in H1 as [Ha H1]; apply is_mat_cons in H2 as [Hb H2].
    apply is_mat_cons in H3 as [Ha' H3]; apply is_mat_cons in H4 as [Hb' H4].
    simpl; rewrite (IH r M2 N1 N2 H1 H2 H3 H4); f_equal.
    apply map2_app; congruence.
Qed.

Lemma map2_ravel (g : A -> A -> A) r c M N :
  is_mat r c M -> is_mat r c N ->
  map2 g (ravel M) (ravel N) = ravel (map2 (map2 g) M N).
Proof.
  revert r N; induction M as [|a M IH]; intros r N HM HN.
  - reflexivity.
  - destruct r as [|r]; [apply is_mat_length in HM; discriminate|].
    destruct N as [|b N]; [apply is_mat_length in HN; discriminate|].
    apply is_mat_cons in HM as [Ha HM]; apply is_mat_cons in HN as [Hb HN].
    unfold ravel in *; simpl; rewrite <- (IH r N HM HN).
    apply map2_app; congruence.
Qed.

Lemma map2_is_mat (g : A -> A -> A) r c M N :
  is_mat r c M -> is_mat r c N -> is_mat r c (map2 (map2 g) M N).
Proof.
  revert r N; induction M as [|a M IH]; intros r N HM HN.
  - apply is_mat_length in HM; simpl in HM; subst; split; simpl; auto.
  - destruct r as [|r]; [apply is_mat_length in HM; discriminate|].
    destruct N as [|b N]; [apply is_mat_length in HN; discriminate|].
    apply is_mat_cons in HM as [Ha HM]; apply is_mat_cons in HN as [Hb HN].
    simpl; apply is_mat_cons; split; [|now apply IH].
    rewrite length_map2; congruence.
Qed.

Lemma chunks_is_mat w r (l : vec A) :
  length l = r * w -> is_mat r w (chunks w r l) /\ ravel (chunks w r l) = l.
Proof.
  revert l; induction r as [|r IH]; intros l Hl; simpl in *.
  - destruct l; [|discriminate]; split; [split; simpl; auto | reflexivity].
  - destruct (IH (skipn w l)) as [Hm Hr]; [rewrite length_skipn; lia|].
    split.
    + apply is_mat_cons; split; [rewrite length_firstn; lia | exact Hm].
    + unfold ravel in *; simpl; rewrite Hr; apply firstn_skipn.
Qed.

Lemma reshape_inv r w (l : vec A) M :
  reshape r w l = Ok M -> length l = r * w /\ is_mat r w M /\ ravel M = l.
Proof.
  unfold reshape; destruct (length l =? r * w) eqn:E; [|discriminate].
  apply Nat.eqb_eq in E; intros [= <-].
  destruct (chunks_is_mat w r l E); auto.
Qed.

End Shapes.

Section ArithShapes.
Variable S : Scalar.
Implicit Types (M N : mat S) (u v : vec S).

Lemma bcast1_same (op : S -> S -> S) u v :
  length u = length v -> bcast1 op u v = Ok (map2 op u v).
Proof. intros Hl; unfold bcast1; now rewrite Hl, Nat.eqb_refl. Qed.

Lemma sequence_bcast1_same (op : S -> S -> S) r c M N :
  is_mat r c M -> is_mat r c N ->
  sequence (map2 (bcast1 op) M N) = Ok (map2 (map2 op) M N).
Proof.
  revert r N; induction M as [|a M IH]; intros r N HM HN.
  - reflexivity.
  - destruct r as [|r]; [apply is_mat_length in HM; discriminate|].
    destruct N as [|b N]; [apply is_mat_length in HN; discriminate|].
    apply is_mat_cons in HM as [Ha HM]; apply is_mat_cons in HN as [Hb HN].
    simpl; rewrite bcast1_same by congruence; simpl.
    now rewrite (IH r N HM HN).
Qed.

Lemma bcast2_same (op : S -> S -> S) r c M N :
  is_mat r c M -> is_mat r c N ->
  bcast2 op M N = Ok (map2 (map2 op) M N) /\
  is_mat r c (map2 (map2 op) M N).
Proof.
  intros HM HN; split; [|now apply map2_is_mat].
  unfold bcast2.
  rewrite (is_mat_length HM), (is_mat_length HN), Nat.eqb_refl.
  apply (sequence_bcast1_same op HM HN).
Qed.

Lemma bcast2_same_is_mat (op : S -> S -> S) r c M N X :
  is_mat r c M -> is_mat r c N -> bcast2 op M N = Ok X -> is_mat r c X.
Proof.
  intros HM HN HX; destruct (bcast2_same op HM HN) as [E Hs].
  rewrite E in HX; injection HX as <-; exact Hs.
Qed.

Lemma ncols_is_mat (A : Type) r c (M : mat A) :
  is_mat r c M -> 0 < r -> ncols M = c.
Proof.
  intros HM Hr; destruct M as [|row M].
  - apply is_mat_length in HM; simpl in HM; lia.
  - destruct r; [lia|]; now apply is_mat_cons in HM as [Hrow _].
Qed.

Lemma matmul_rows M N X :
  matmul M N = Ok X -> is_mat (length M) (ncols N) X.
Proof.
  unfold matmul; destruct (ncols M =? length N); [|discriminate].
  intros [= <-]; apply is_mat_intro.
  - apply length_map.
  - intros row Hin; apply in_map_iff in Hin as (r0 & <- & _).
    unfold transpose; now rewrite !length_map, length_seq.
Qed.

Lemma matmul_is_mat r k c M N X :
  is_mat r k M -> is_mat k c N -> 0 < k ->
  matmul M N = Ok X -> is_mat r c X.
Proof.
  intros HM HN Hk HX; apply matmul_rows in HX.
  now rewrite (is_mat_length HM), (ncols_is_mat HN Hk) in HX.
Qed.

Lemma length_column (A : Type) r c j (M : mat A) :
  is_mat r c M -> j < c -> length (column j M) = r.
Proof.
  revert r; induction M as [|row M IH]; intros r HM Hj.
  - apply is_mat_length in HM; simpl in HM; now subst.
  - destruct r as [|r]; [apply is_mat_length in HM; discriminate|].
    apply is_mat_cons in HM as [Hrow HM].
    change (column j (row :: M)) with (firstn 1 (skipn j row) ++ column j M).
    rewrite length_app, (IH r HM Hj), length_firstn, length_skipn; lia.
Qed.

Lemma transpose_is_mat (A : Type) r c (M : mat A) :
  is_mat r c M -> 0 < r -> is_mat c r (transpose M).
Proof.
  intros HM Hr; unfold transpose; rewrite (ncols_is_mat HM Hr).
  apply is_mat_intro.
  - now rewrite length_map, length_seq.
  - intros col Hin; apply in_map_iff in Hin as (j & <- & Hj).
    apply in_seq in Hj; apply (length_column HM); lia.
Qed.

Lemma scale_is_mat r c (a : S) M : is_mat r c M -> is_mat r c (scale a M).
Proof.
  intros [Hl Hf]; apply is_mat_intro; unfold scale.
  - now rewrite length_map.
  - intros row Hin; apply in_map_iff in Hin as (r0 & <- & Hr0).
    rewrite Forall_forall in Hf; rewrite length_map; auto.
Qed.

Lemma divide_is_mat r c (a : S) M : is_mat r c M -> is_mat r c (divide M a).
Proof.
  intros [Hl Hf]; apply is_mat_intro; unfold divide.
  - now rewrite length_map.
  - intros row Hin; apply in_map_iff in Hin as (r0 & <- & Hr0).
    rewrite Forall_forall in Hf; rewrite length_map; auto.
Qed.

End ArithShapes.

(** ** The shape of the drift *)

Section DriftShape.
Variable S : Scalar.
Variable LA : Linalg S.
Implicit Types self : LKF S.

Lemma matmul_shape r k c (M N X : mat S) :
  matmul M N = Ok X -> is_mat r k M -> is_mat k c N -> 0 < k -> is_mat r c X.
Proof. intros; eapply matmul_is_mat; eauto. Qed.

Lemma madd_shape r c (M N X : mat S) :
  madd M N = Ok X -> is_mat r c M -> is_mat r c N -> is_mat r c X.
Proof. intros E HM HN; exact (@bcast2_same_is_mat S _ r c M N X HM HN E). Qed.

Lemma msub_shape r c (M N X : mat S) :
  msub M N = Ok X -> is_mat r c M -> is_mat r c N -> is_mat r c X.
Proof. intros E HM HN; exact (@bcast2_same_is_mat S _ r c M N X HM HN E). Qed.

Lemma transpose_shape r c (M : mat S) :
  0 < r -> is_mat r c M -> is_mat c r (transpose M).
Proof. intros; now apply transpose_is_mat. Qed.

Lemma split_state (A : Type) n (st : mat A) :
  is_mat n (1 + 2 * n) st ->
  is_mat n 1 (cols 0 1 st) /\
  is_mat n n (cols 1 (1 + n) st) /\
  is_mat n n (cols_from (1 + n) st) /\
  st = zip_app (zip_app (cols 0 1 st) (cols 1 (1 + n) st))
               (cols_from (1 + n) st).
Proof.
  intros [Hl Hf]; rewrite Forall_forall in Hf.
  repeat split.
  - unfold cols; now rewrite length_map.
  - apply Forall_forall; intros row Hin.
    apply in_map_iff in Hin as (r0 & <- & Hr0).
    rewrite length_firstn, length_skipn, (Hf r0 Hr0); lia.
  - unfold cols; now rewrite length_map.
  - apply Forall_forall; intros row Hin.
    apply in_map_iff in Hin as (r0 & <- & Hr0).
    rewrite length_firstn, length_skipn, (Hf r0 Hr0); lia.
  - unfold cols_from; now rewrite length_map.
  - apply Forall_forall; intros row Hin.
    apply in_map_iff in Hin as (r0 & <- & Hr0).
    rewrite length_skipn, (Hf r0 Hr0); lia.
  - clear Hl Hf; unfold cols, cols_from.
    induction st as [|row st IH]; [reflexivity|].
    cbn [map zip_app]; rewrite <- IH; f_equal.
    replace (1 + n - 1) with n by lia.
    rewrite <- (firstn_skipn 1 row) at 1.
    rewrite <- (firstn_skipn n (skipn 1 row)) at 1.
    rewrite skipn_skipn, (Nat.add_comm n 1), app_assoc; reflexivity.
Qed.

End DriftShape.

Arguments matmul_shape {S r k c M N X}.
Arguments madd_shape {S r c M N X}.
Arguments msub_shape {S r c M N X}.
Arguments transpose_shape {S r c M}.


Section Drift.
Variable S : Scalar.
Variable LA : Linalg S.
Implicit Types self : LKF S.

Lemma kalman_gain_shape self P K :
  well_shaped self -> inv_keeps_shape LA ->
  is_mat (ndim self) (ndim self) P ->
  kalman_gain LA self P = Ok K -> is_mat (ndim self) (ndim self) K.
Proof.
  intros (Hn & HH & HQ & HR & HF) Hinv HP HK; unfold kalman_gain in HK.
  bind_inv HK; bind_inv HK.
  pose proof (Hinv _ _ _ HR E0) as HRinv.
  exact (matmul_shape HK (matmul_shape E HP HH Hn) HRinv Hn).
Qed.

(** A successful evaluation of [f] on a well-shaped configuration: the
    three blocks of the derivative and their shapes. *)
Lemma f_layout self t y z eh F_t d self' :
  well_shaped self -> inv_keeps_shape LA ->
  length z = ndim self -> is_mat (ndim self) (ndim self) F_t ->
  f LA self t y (z, eh, F_t) = Ok (d, self') ->
  exists st K d_x d_P de,
    reshape (ndim self) (1 + 2 * ndim self) y = Ok st /\
    kalman_gain LA self (cols 1 (1 + ndim self) st) = Ok K /\
    d_eta LA self t (cols 1 (1 + ndim self) st)
          (cols_from (1 + ndim self) st) eh = Ok (de, self') /\
    is_mat (ndim self) 1 d_x /\
    is_mat (ndim self) (ndim self) d_P /\
    pack d_x d_P de = Ok d.
Proof.
  intros Hws Hinv Hz HFt Hf.
  pose proof Hws as (Hn & HH & HQ & HR & HF).
  unfold f, ode_shape in Hf; cbn [fst snd] in Hf.
  bind_inv Hf; rename a into st.
  destruct (reshape_inv _ _ _ E) as (_ & Hst & _).
  destruct (split_state Hst) as (Hx & HP & Heta & _).
  bind_inv Hf; rename a into K.
  pose proof (kalman_gain_shape Hws Hinv HP E0) as HK.
  bind_inv Hf; destruct a as [de self1].
  pose proof (frame_fields (d_eta_frame _ _ _ _ _ _ E1))
    as (EH & EQ & ER & _ & _ & _ & _ & _ & En & _).
  rewrite ?EH, ?EQ, ?ER in Hf.
  assert (Hzc : is_mat (ndim self) 1 (newaxis z))
    by (rewrite <- Hz; apply newaxis_is_mat).
  do 13 bind_inv Hf.
  bind_inv Hf. injection Hf as <- <-.
  exists st, K, a4, a11, de.
  split; [reflexivity|]; split; [exact E0|]; split; [exact E1|].
  pose proof (msub_shape E2 HFt Heta) as Ha.
  pose proof (matmul_shape E3 Ha Hx Hn) as Ha0.
  pose proof (matmul_shape E4 HH Hx Hn) as Ha1.
  pose proof (msub_shape E5 Hzc Ha1) as Ha2.
  pose proof (matmul_shape E6 HK Ha2 Hn) as Ha3.
  pose proof (matmul_shape E8 Ha HP Hn) as Ha5.
  pose proof (matmul_shape E9 HP (transpose_shape Hn Ha) Hn) as Ha6.
  pose proof (madd_shape E11 (madd_shape E10 Ha5 Ha6) HQ) as Ha8.
  pose proof (matmul_shape E12 HK HR Hn) as Ha9.
  pose proof (matmul_shape E13 Ha9 (transpose_shape Hn HK) Hn) as Ha10.
  split; [|split].
  - exact (madd_shape E7 Ha0 Ha3).
  - exact (msub_shape E14 Ha8 Ha10).
  - exact E15.
Qed.

End Drift.

(** ** One Euler sub-step on the packed layout *)

Section StepLayout.
Variable S : Scalar.
Implicit Types (M N : mat S).

Lemma step_layout n h (y d : vec S) (st d_x d_P de : mat S) :
  reshape n (1 + 2 * n) y = Ok st ->
  is_mat n 1 d_x -> is_mat n n d_P -> is_mat n n de ->
  pack d_x d_P de = Ok d ->
  exists y',
    bcast1 (upd h) y d = Ok y' /\
    length y' = n * (1 + 2 * n) /\
    load_vars n y'
    = Ok (map2 (map2 (upd h)) (cols 0 1 st) d_x,
          map2 (map2 (upd h)) (cols 1 (1 + n) st) d_P,
          map2 (map2 (upd h)) (cols_from (1 + n) st) de).
Proof.
  intros Hy Hdx HdP Hde Hd.
  destruct (reshape_inv _ _ _ Hy) as (Hlen & Hst & Hrav).
  destruct (split_state Hst) as (Hx & HP & Heta & Hsplit).
  rewrite (pack_ok Hdx HdP Hde) in Hd; injection Hd as <-.
  set (x := cols 0 1 st) in *; set (P := cols 1 (1 + n) st) in *.
  set (eta := cols_from (1 + n) st) in *.
  assert (HD : is_mat n (1 + 2 * n) (zip_app (zip_app d_x d_P) de)).
  { replace (1 + 2 * n) with (1 + n + n) by lia.
    exact (zip_app_is_mat (zip_app_is_mat Hdx HdP) Hde). }
  assert (Hnew : map2 (upd h) y (ravel (zip_app (zip_app d_x d_P) de))
                 = ravel (zip_app (zip_app (map2 (map2 (upd h)) x d_x)
                                           (map2 (map2 (upd h)) P d_P))
                                  (map2 (map2 (upd h)) eta de))).
  { rewrite <- Hrav, (map2_ravel (upd h) Hst HD); f_equal.
    rewrite Hsplit at 1.
    rewrite (map2_zip_app_rows (upd h) (zip_app_is_mat Hx HP) Heta
                               (zip_app_is_mat Hdx HdP) Hde).
    now rewrite (map2_zip_app_rows (upd h) Hx HP Hdx HdP). }
  eexists; split.
  - apply bcast1_same; rewrite Hlen; symmetry; exact (length_ravel HD).
  - rewrite Hnew.
    apply (load_vars_pack (n := n)); try (apply map2_is_mat; assumption).
    apply (pack_ok (n := n)); apply map2_is_mat; assumption.
Qed.

(** A zero derivative leaves a block as it is, provided [a + h * 0 = a]. *)
Lemma upd_zeros h r c M :
  (forall a : S, fadd S a (fmul S h (zero S)) = a) ->
  is_mat r c M -> map2 (map2 (upd h)) M (zeros S r c) = M.
Proof.
  intros Hlaw; revert r; induction M as [|row M IH]; intros r HM.
  - reflexivity.
  - destruct r as [|r]; [apply is_mat_length in HM; discriminate|].
    apply is_mat_cons in HM as [Hrow HM].
    unfold zeros in *; cbn [repeat map2]; rewrite (IH r HM); f_equal.
    clear - Hlaw Hrow; subst c.
    induction row as [|a row IHr]; [reflexivity|].
    cbn [length repeat map2]; rewrite IHr; unfold upd; now rewrite Hlaw.
Qed.

End StepLayout.

(** ** Sub-steps and ticks *)

Section Tick.
Variable S : Scalar.
Variable LA : Linalg S.
Implicit Types self : LKF S.

Lemma f_frame self t y p d self' :
  f LA self t y p = Ok (d, self') -> frame self self'.
Proof.
  destruct p as [[z eh] F_t]; unfold f; intros Hf.
  bind_inv Hf; bind_inv Hf; bind_inv Hf; destruct a1 as [de self1].
  do 14 bind_inv Hf; injection Hf as _ <-.
  exact (d_eta_frame _ _ _ _ _ _ E1).
Qed.

Lemma euler_step_frame self p h t y y' self' :
  euler_step (f LA) p h self t y = Ok (y', self') -> frame self self'.
Proof.
  unfold euler_step; intros He.
  bind_inv He; destruct a as [d self1]; bind_inv He; injection He as _ <-.
  exact (f_frame _ _ _ _ E).
Qed.

Lemma euler_steps_frame p h k self t y y' self' :
  euler_steps (f LA) p h k self t y = Ok (y', self') -> frame self self'.
Proof.
  revert self t y; induction k as [|k IH]; intros self t y He; simpl in He.
  - injection He as _ <-; apply frame_refl.
  - bind_inv He; destruct a as [y1 self1].
    eapply frame_trans; [exact (euler_step_frame _ _ _ _ _ E) | eauto].
Qed.

Lemma well_shaped_frame self self' :
  frame self self' -> well_shaped self -> well_shaped self'.
Proof.
  intros Hfr; unfold well_shaped.
  destruct (frame_fields Hfr)
    as (-> & -> & -> & _ & _ & _ & _ & _ & -> & -> & _); auto.
Qed.

(** Warm-up, or a candidate turned down: the derivative of the drift
    correction is the zero matrix and nothing is raised by the gate. *)
Lemma d_eta_rejected self t P eta eh de self' :
  rejected LA (gate_fails S) self t P eh = true ->
  d_eta LA self t P eta eh = Ok (de, self') ->
  de = zeros S (ndim self) (ndim self) /\
  d_eta LA self t P eta eh = Ok (zeros S (ndim self) (ndim self), self').
Proof.
  intros Hrej Hd; unfold rejected, gate_fails, d_eta in *.
  destruct (fgt S t (tau self)).
  - bind_inv Hd; destruct a as [e self1].
    destruct (frame_fields (eta_new_frame _ _ _ _ E))
      as (_ & _ & _ & _ & _ & _ & Eb & _).
    cbn [bind]; apply negb_true_iff in Hrej; rewrite Eb, Hrej in Hd |- *.
    now injection Hd as <- <-.
  - now injection Hd as <- <-.
Qed.

Lemma rejected_mono (ex1 ex2 : S -> S -> bool) self t P eh :
  (forall a b, ex1 a b = true -> ex2 a b = true) ->
  rejected LA ex1 self t P eh = true -> rejected LA ex2 self t P eh = true.
Proof.
  intros Hm; unfold rejected.
  destruct (fgt S t (tau self)); auto.
  destruct (eta_new LA self P eh) as [[e s1]|]; auto.
Qed.

Lemma all_rejected_mono (ex1 ex2 : S -> S -> bool) p h k :
  (forall a b, ex1 a b = true -> ex2 a b = true) ->
  forall self t y,
    all_rejected LA ex1 p h k self t y = true ->
    all_rejected LA ex2 p h k self t y = true.
Proof.
  intros Hm; induction k as [|k IH]; intros self t y; cbn [all_rejected];
    [reflexivity|].
  rewrite !andb_true_iff; intros [H1 H2]; split.
  - destruct (reshape (ndim self) (1 + 2 * ndim self) y); auto.
    revert H1; now apply rejected_mono.
  - destruct (euler_step (f LA) p h self t y) as [[y1 s1]|]; auto.
Qed.

End Tick.

Section Hold.
Variable S : Scalar.
Variable LA : Linalg S.
Implicit Types self : LKF S.

Hypothesis inv_shape : inv_keeps_shape LA.

Lemma load_vars_inv (A : Type) n (y : vec A) x P eta :
  load_vars n y = Ok (x, P, eta) ->
  exists st, reshape n (1 + 2 * n) y = Ok st /\
             x = cols 0 1 st /\ P = cols 1 (1 + n) st /\
             eta = cols_from (1 + n) st.
Proof.
  unfold load_vars, ode_shape; cbn [fst snd]; intros Hl.
  bind_inv Hl; injection Hl as <- <- <-; eauto.
Qed.

(** One sub-step whose candidate, if any, is turned down keeps the block
    [eta] of the augmented vector. *)
Lemma euler_step_hold z eh F_t h self t y y' self' x P eta :
  (forall a : S, fadd S a (fmul S h (zero S)) = a) ->
  well_shaped self -> length z = ndim self ->
  is_mat (ndim self) (ndim self) F_t ->
  load_vars (ndim self) y = Ok (x, P, eta) ->
  rejected LA (gate_fails S) self t P eh = true ->
  euler_step (f LA) (z, eh, F_t) h self t y = Ok (y', self') ->
  exists x' P', load_vars (ndim self) y' = Ok (x', P', eta).
Proof.
  intros Hlaw Hws Hz HFt Hload Hrej He.
  apply load_vars_inv in Hload as (st & Hst & -> & -> & ->).
  unfold euler_step in He; bind_inv He; destruct a as [d self1].
  bind_inv He; injection He as <- <-.
  destruct (f_layout _ _ _ _ Hws inv_shape Hz HFt E)
    as (st' & K & d_x & d_P & de & Hst' & _ & Hde & Hdx & HdP & Hd).
  rewrite Hst in Hst'; injection Hst' as <-.
  destruct (d_eta_rejected _ _ _ _ _ _ Hrej Hde) as [-> _].
  destruct (step_layout S h y Hst Hdx HdP (zeros_is_mat S _ _) Hd)
    as (y1 & Hy1 & _ & Hl1).
  rewrite E0 in Hy1; injection Hy1 as <-.
  destruct (reshape_inv _ _ _ Hst) as (_ & Hm & _).
  destruct (split_state Hm) as (_ & _ & Heta & _).
  rewrite (upd_zeros S h Hlaw Heta) in Hl1; eauto.
Qed.

Lemma euler_steps_hold z eh F_t h k :
  (forall a : S, fadd S a (fmul S h (zero S)) = a) ->
  forall self t y y' self' x P eta,
    well_shaped self -> length z = ndim self ->
    is_mat (ndim self) (ndim self) F_t ->
    load_vars (ndim self) y = Ok (x, P, eta) ->
    all_rejected LA (gate_fails S) (z, eh, F_t) h k self t y = true ->
    euler_steps (f LA) (z, eh, F_t) h k self t y = Ok (y', self') ->
    exists x' P', load_vars (ndim self) y' = Ok (x', P', eta).
Proof.
  intros Hlaw; induction k as [|k IH];
    intros self t y y' self' x P eta Hws Hz HFt Hload Hrej He.
  - simpl in He; injection He as <- <-; eauto.
  - cbn [euler_steps] in He; cbn [all_rejected] in Hrej.
    bind_inv He; destruct a as [y1 self1].
    apply andb_true_iff in Hrej as [Hrej1 Hrej2].
    pose proof Hload as Hl0.
    apply load_vars_inv in Hl0 as (st & Hst & Ex & EP & Eeta).
    rewrite Hst in Hrej1; cbn [fst snd] in Hrej1; rewrite <- EP in Hrej1.
    edestruct euler_step_hold as (x1 & P1 & Hload1);
      [exact Hlaw | exact Hws | exact Hz | exact HFt | exact Hload
      | exact Hrej1 | exact E |].
    pose proof (euler_step_frame _ _ _ _ _ _ E) as Hfr.
    destruct (frame_fields Hfr) as (_ & _ & _ & _ & _ & _ & _ & _ & En & _).
    rewrite <- En in *.
    eapply (IH self1); eauto using well_shaped_frame.
Qed.

End Hold.

(** ** The anatomy of a tick *)

Section CallFacts.
Variable S : Scalar.
Variable LA : Linalg S.
Implicit Types self : LKF S.

Lemma call_inv nsub self z self' xo e :
  call LA nsub self z = Ok (self', (xo, e)) ->
  let p := (z, err_hist self, F self (clock self)) in
  exists y' self2 x P eta xH,
    euler_steps (f LA) p (substep nsub self) nsub
                (set_r self (set_f_params (r self) p))
                (clock self) (r_y (r self)) = Ok (y', self2) /\
    load_vars (ndim self) y' = Ok (x, P, eta) /\
    squeezed_matmul (squeeze x) (transpose (H self)) = Ok xH /\
    bcast1 (fsub S) z xH = Ok e /\
    xo = squeeze x /\
    self' = append_err_hist
              (set_vars
                 (append_P_hist
                    (set_r self2 {| r_y := y';
                                    r_t := fadd S (clock self) (dt self);
                                    r_params := Some p |}) P) x P eta) e.
Proof.
  intros Hc p; unfold call, integrate, record_and_return in Hc.
  cbn [set_r set_f_params r r_params r_t r_y clock dt] in Hc.
  bind_inv Hc; destruct a as [r2 self2'].
  bind_inv E; destruct a as [y' self2].
  destruct (forallb (is_finite S) y'); [|discriminate E].
  injection E as <- <-.
  pose proof (euler_steps_frame _ _ _ _ _ _ _ E0) as Hfr.
  destruct (frame_fields Hfr)
    as (EH & _ & _ & _ & _ & _ & _ & _ & En & _).
  cbn [set_r set_f_params r r_params r_t r_y clock dt ndim H] in Hc, En, EH.
  bind_inv Hc; destruct a as [[x P] eta].
  cbn [append_P_hist set_vars H] in Hc.
  bind_inv Hc; bind_inv Hc; injection Hc as <- <- <-.
  cbn [H set_r append_P_hist set_vars] in E1.
  rewrite En in E; rewrite EH in E1.
  exists y', self2, x, P, eta, a; repeat split; auto.
Qed.

(** What a successful tick leaves in the attributes. *)
Lemma call_fields nsub self z self' xo e :
  call LA nsub self z = Ok (self', (xo, e)) ->
  H self' = H self /\ Q self' = Q self /\ R self' = R self /\
  dt self' = dt self /\ tau self' = tau self /\ eps self' = eps self /\
  eta_bnd self' = eta_bnd self /\ gamma self' = gamma self /\
  ndim self' = ndim self /\ F self' = F self /\
  err_hist self' = err_hist self ++ [e] /\
  P_hist self' = P_hist self ++ [P_t self'] /\
  clock self' = fadd S (clock self) (dt self) /\
  synced self' /\
  xo = squeeze (x_t self') /\
  exists xH, squeezed_matmul (squeeze (x_t self')) (transpose (H self))
             = Ok xH /\ bcast1 (fsub S) z xH = Ok e.
Proof.
  intros Hc; apply call_inv in Hc; cbv zeta in Hc.
  destruct Hc as (y' & self2 & x & P & eta & xH & He & Hl & Hm & Hb & -> & ->).
  pose proof (euler_steps_frame _ _ _ _ _ _ _ He) as Hfr.
  destruct (frame_fields Hfr)
    as (EH & EQ & ER & Edt & Etau & Eeps & Ebnd & Eg & En & EF & Eeh & EPh
        & _).
  cbn in *.
  repeat (split; [first [assumption | reflexivity | congruence]|]).
  split; [unfold synced; cbn; now rewrite En|].
  split; [reflexivity | eauto].
Qed.

End CallFacts.

(** ** The history buffers *)

Section Buffers.
Variable S : Scalar.
Variable LA : Linalg S.
Implicit Types self : LKF S.

Lemma run_app nsub zs1 : forall self zs2 self' outs,
  run LA nsub self (zs1 ++ zs2) = Ok (self', outs) ->
  exists mid o1 o2,
    run LA nsub self zs1 = Ok (mid, o1) /\
    run LA nsub mid zs2 = Ok (self', o2) /\
    outs = o1 ++ o2.
Proof.
  induction zs1 as [|z zs1 IH]; intros self zs2 self' outs Hr.
  - exists self, [], outs; auto.
  - cbn [app run] in Hr |- *.
    bind_inv Hr; destruct a as [self1 out].
    bind_inv Hr; destruct a as [self2 outs'].
    injection Hr as <- <-.
    destruct (IH _ _ _ _ E0) as (mid & o1 & o2 & H1 & H2 & ->).
    exists mid, (out :: o1), o2; cbn [bind]; rewrite H1; cbn [bind]; auto.
Qed.

Lemma run_buffers nsub zs : forall self self' outs,
  run LA nsub self zs = Ok (self', outs) ->
  length outs = length zs /\
  err_hist self' = err_hist self ++ map snd outs /\
  exists Ps, length Ps = length zs /\ P_hist self' = P_hist self ++ Ps.
Proof.
  induction zs as [|z zs IH]; intros self self' outs Hr; cbn [run] in Hr.
  - injection Hr as <- <-; cbn; rewrite !app_nil_r.
    repeat split; exists []; rewrite app_nil_r; auto.
  - bind_inv Hr; destruct a as [self1 [xo e]].
    bind_inv Hr; destruct a as [self2 outs'].
    injection Hr as <- <-.
    apply call_fields in E
      as (_ & _ & _ & _ & _ & _ & _ & _ & _ & _ & Eeh & EPh & _).
    destruct (IH _ _ _ E0) as (Hlen & Herr & Ps & HPs & HP).
    cbn [length map snd]; repeat split.
    + now rewrite Hlen.
    + now rewrite Herr, Eeh, <- app_assoc.
    + exists (P_t self1 :: Ps); cbn [length]; split; [now rewrite HPs|].
      now rewrite HP, EPh, <- app_assoc.
Qed.

Lemma run_last nsub zs : forall self self' outs,
  run LA nsub self zs = Ok (self', outs) -> zs <> [] ->
  exists Ps, P_hist self' = Ps ++ [P_t self'].
Proof.
  induction zs as [|z zs IH]; intros self self' outs Hr Hne; [congruence|].
  cbn [run] in Hr.
  bind_inv Hr; destruct a as [self1 [xo e]].
  bind_inv Hr; destruct a as [self2 outs'].
  injection Hr as <- <-.
  destruct zs as [|z' zs].
  - cbn [run] in E0; injection E0 as <- <-.
    apply call_fields in E
      as (_ & _ & _ & _ & _ & _ & _ & _ & _ & _ & _ & EPh & _); eauto.
  - apply (IH _ _ _ E0); discriminate.
Qed.

End Buffers.

Lemma bind_ok_inv (A B : Type) (m : result A) (k : A -> result B) (b : B) :
  bind m k = Ok b -> exists a, m = Ok a /\ k a = Ok b.
Proof. destruct m; [eauto | discriminate]. Qed.

(** C8.  From a freshly constructed filter, after [k] ticks that return
    normally each history buffer has exactly [k] entries; the innovation
    buffer lists, in order, the innovations the ticks returned; and for
    every [j <= k] the buffers as they stood after [j] ticks are the first
    [j] entries of the final buffers, entry [j] of the covariance buffer
    being the covariance tick [j] left: entries are appended one per tick
    and never removed or reordered. *)
Theorem history_buffers_grow (S : Scalar) (LA : Linalg S)
        (x0 : vec S) (F : S -> mat S) (H Q R : mat S)
        (dt tau eta_bnd eps gamma : S) (nsub : nat)
        (zs : list (vec S)) (self0 self' : LKF S)
        (outs : list (squeezed S * vec S)) :
  init x0 F H Q R dt tau eta_bnd eps gamma = Ok self0 ->
  run LA nsub self0 zs = Ok (self', outs) ->
  length (err_hist self') = length zs /\
  length (P_hist self') = length zs /\
  err_hist self' = map snd outs /\
  forall j, j <= length zs ->
    exists selfj outsj,
      run LA nsub self0 (firstn j zs) = Ok (selfj, outsj) /\
      err_hist selfj = firstn j (err_hist self') /\
      P_hist selfj = firstn j (P_hist self') /\
      (0 < j -> nth_error (P_hist self') (j - 1) = Some (P_t selfj)).
Proof.
  intros Hinit Hrun.
  destruct (init_ok S x0 F H Q R dt tau eta_bnd eps gamma) as (iv & _ & Hi).
  rewrite Hi in Hinit; injection Hinit as <-.
  pose proof Hrun as Hb.
  apply run_buffers in Hb as (Hlen & Herr & Ps & HPs & HP).
  cbn [err_hist P_hist app] in Herr, HP.
  repeat split.
  - now rewrite Herr, length_map.
  - now rewrite HP.
  - exact Herr.
  - intros j Hj.
    rewrite <- (firstn_skipn j zs) in Hrun.
    apply run_app in Hrun as (mid & o1 & o2 & H1 & H2 & ->).
    exists mid, o1; split; [exact H1|].
    pose proof H1 as Hb1.
    apply run_buffers in Hb1 as (Hl1 & He1 & Ps1 & HPs1 & HP1).
    pose proof H2 as Hb2.
    apply run_buffers in Hb2 as (Hl2 & He2 & Ps2 & HPs2 & HP2).
    cbn [err_hist P_hist app] in He1, HP1.
    assert (Hjl : length (firstn j zs) = j) by (rewrite length_firstn; lia).
    assert (Hmid : length (P_hist mid) = j) by (rewrite HP1; lia).
    assert (Hmide : length (err_hist mid) = j)
      by (rewrite He1, length_map; lia).
    repeat split.
    + rewrite He2, firstn_app, <- Hmide, firstn_all, Nat.sub_diag.
      now rewrite firstn_O, app_nil_r.
    + rewrite HP2, firstn_app, <- Hmid, firstn_all, Nat.sub_diag.
      now rewrite firstn_O, app_nil_r.
    + intros Hpos.
      apply run_last in H1 as (Qs & HQs).
      2:{ intros Hnil; rewrite Hnil in Hjl; simpl in Hjl; lia. }
      rewrite HP2, HQs.
      assert (HlQ : length Qs = j - 1).
      { rewrite HQs, length_app in Hmid; simpl in Hmid; lia. }
      rewrite <- app_assoc, nth_error_app2 by lia.
      now rewrite HlQ, Nat.sub_diag.
Qed.

Lemma history_buffers_grow_witness :
  exists (self0 self' : LKF Exact.scalar) outs,
    Sample.open_gate = Ok self0 /\
    run Exact.linalg 1 self0 Sample.zs = Ok (self', outs) /\
    length (err_hist self') = 4 /\
    length (P_hist self') = 4 /\
    err_hist self' = map snd outs.
Proof.
  destruct (@ok_inv _ (self0 <- Sample.open_gate ;;
                       run Exact.linalg 1 self0 Sample.zs))
    as [[self' outs] Hb]; [vm_compute; reflexivity|].
  apply bind_ok_inv in Hb as (self0 & Hi & Hr).
  exists self0, self', outs; split; [exact Hi|]; split; [exact Hr|].
  destruct (@history_buffers_grow Exact.scalar Exact.linalg
              Sample.x0 Sample.F0 Sample.I2 Sample.I2 Sample.I2 Sample.dt0
              Sample.tau0 (Sample.c 100) Sample.eps0 Sample.gamma0
              1 Sample.zs self0 self' outs Hi Hr)
    as (H1 & H2 & H3 & _); auto.
Defined.

(** ** Holding the drift correction *)

Section HoldTick.
Variable S : Scalar.
Variable LA : Linalg S.
Implicit Types self : LKF S.

Lemma well_shaped_set_r self r' : well_shaped self -> well_shaped (set_r self r').
Proof. destruct self; exact (fun Hw => Hw). Qed.

(** A tick all of whose candidates fail the gate test leaves the drift
    correction as the integrator held it. *)
Lemma call_hold nsub self z self' out :
  inv_keeps_shape LA ->
  (forall a : S, fadd S a (fmul S (substep nsub self) (zero S)) = a) ->
  well_shaped self -> length z = ndim self -> synced self ->
  tick_rejected LA (gate_fails S) nsub self z = true ->
  call LA nsub self z = Ok (self', out) ->
  eta_t self' = eta_t self.
Proof.
  intros Hinv Hlaw Hws Hz Hsync Hrej Hc.
  destruct out as [xo e]; apply call_inv in Hc; cbv zeta in Hc.
  destruct Hc as (y' & self2 & x & P & eta & xH & He & Hl & _ & _ & _ & ->).
  cbn [eta_t append_err_hist set_vars].
  pose proof Hws as (_ & _ & _ & _ & HF).
  edestruct (euler_steps_hold Hinv) as (x1 & P1 & Hl1);
    [exact Hlaw | apply well_shaped_set_r; exact Hws | exact Hz
    | apply (HF (clock self)) | exact Hsync | exact Hrej | exact He |].
  cbn [ndim set_r] in Hl1; rewrite Hl in Hl1; now injection Hl1 as _ _ ->.
Qed.

End HoldTick.

(** C3.  Take a tick of a well-shaped filter whose attributes agree with
    the integrator's vector, and suppose every candidate [eta_new] computed
    during the tick has norm greater than [eta_bnd].  Then the tick, if it
    returns, leaves [eta] exactly as it was; and every evaluation of the
    drift field, in whatever state of the filter, that computes such a
    candidate returns normally with the zero matrix as derivative of the
    drift correction: the rejection raises nothing and shows only in the
    unchanged [eta].  The arithmetic is
    assumed to satisfy [a > b -> not (a <= b)] and [a + h * 0 = a] for the
    sub-step length [h]. *)
Theorem gate_rejection_holds_eta (S : Scalar) (LA : Linalg S) (nsub : nat)
        (self self' : LKF S) (z : vec S) (out : squeezed S * vec S) :
  inv_keeps_shape LA ->
  (forall a b : S, fgt S a b = true -> fle S a b = false) ->
  (forall a : S, fadd S a (fmul S (substep nsub self) (zero S)) = a) ->
  well_shaped self -> length z = ndim self -> synced self ->
  tick_rejected LA (fgt S) nsub self z = true ->
  call LA nsub self z = Ok (self', out) ->
  eta_t self' = eta_t self /\
  forall (s s1 : LKF S) t P eta eh e,
    fgt S t (tau s) = true ->
    eta_new LA s P eh = Ok (e, s1) ->
    fgt S (norm LA e) (eta_bnd s) = true ->
    d_eta LA s t P eta eh = Ok (zeros S (ndim s) (ndim s), s1).
Proof.
  intros Hinv Hord Hlaw Hws Hz Hsync Hrej Hc; split.
  - eapply call_hold; eauto.
    unfold tick_rejected in *; revert Hrej; apply all_rejected_mono.
    intros a b Hab; unfold gate_fails; now rewrite (Hord _ _ Hab).
  - intros s s1 t P eta eh e Ht He Hn.
    unfold d_eta; rewrite Ht, He; cbn [bind].
    destruct (frame_fields (eta_new_frame _ _ _ _ He))
      as (_ & _ & _ & _ & _ & _ & Eb & _).
    now rewrite Eb, (Hord _ _ Hn).
Qed.

(** ** Invariants of a run *)

Lemma get_ok (A : Type) (d : A) (m : result A) :
  is_ok m = true -> m = Ok (get d m).
Proof. destruct m; [reflexivity | discriminate]. Qed.

Section RunInvariants.
Variable S : Scalar.
Variable LA : Linalg S.
Implicit Types self : LKF S.

Lemma init_synced x0 F H Q R dt tau eta_bnd eps gamma self :
  init x0 F H Q R dt tau eta_bnd eps gamma = Ok self -> synced self.
Proof.
  intros Hi.
  destruct (init_ok S x0 F H Q R dt tau eta_bnd eps gamma)
    as (iv & Hiv & Hinit).
  rewrite Hinit in Hi; injection Hi as <-.
  unfold synced; cbn.
  apply (load_vars_pack (newaxis_is_mat x0) (eye_is_mat S _)
                        (zeros_is_mat S _ _) Hiv).
Qed.

Lemma call_well_shaped nsub self z self' out :
  call LA nsub self z = Ok (self', out) ->
  well_shaped self -> well_shaped self'.
Proof.
  destruct out as [xo e]; intros Hc; apply call_fields in Hc.
  destruct Hc as (EH & EQ & ER & _ & _ & _ & _ & _ & En & EF & _).
  unfold well_shaped; now rewrite EH, EQ, ER, En, EF.
Qed.

Lemma run_invariants nsub zs : forall self self' outs,
  run LA nsub self zs = Ok (self', outs) ->
  well_shaped self -> synced self ->
  well_shaped self' /\ synced self' /\
  ndim self' = ndim self /\ tau self' = tau self /\
  eta_bnd self' = eta_bnd self /\ dt self' = dt self.
Proof.
  induction zs as [|z zs IH]; intros self self' outs Hr Hws Hsy;
    cbn [run] in Hr.
  - now injection Hr as <- <-.
  - bind_inv Hr; destruct a as [self1 [xo e]].
    bind_inv Hr; destruct a as [self2 outs'].
    injection Hr as <- <-.
    assert (Hws1 : well_shaped self1)
      by (eapply call_well_shaped; eassumption).
    apply call_fields in E
      as (_ & _ & _ & Edt & Etau & _ & Eb & _ & En & _ & _ & _ & _ & Hsy1 & _).
    edestruct IH as (? & ? & ? & ? & ? & ?);
      [exact E0 | exact Hws1 | exact Hsy1 |].
    split; [assumption|]; split; [assumption|].
    repeat split; congruence.
Qed.

End RunInvariants.

(** ** The exact instance satisfies the laws assumed above *)

Module ExactFacts.

Lemma gt_not_le (a b : Exact.scalar) :
  fgt Exact.scalar a b = true -> fle Exact.scalar a b = false.
Proof. cbn; unfold Exact.gt, Exact.le; apply negb_true_iff. Qed.

Lemma add_mul_zero (h a : Exact.scalar) :
  fadd Exact.scalar a (fmul Exact.scalar h (zero Exact.scalar)) = a.
Proof.
  cbn; change (zero Exact.scalar) with (Q2Qc 0).
  now rewrite Qcmult_0_r, Qcplus_0_r.
Qed.

Lemma mul_comm (a b : Exact.scalar) :
  fmul Exact.scalar a b = fmul Exact.scalar b a.
Proof. apply Qcmult_comm. Qed.

Lemma inverse_keeps_shape : inv_keeps_shape Exact.linalg.
Proof.
  intros n M X HM HX; cbn in HX; unfold Exact.inverse in HX.
  destruct M as [|[|a [|b [|? ?]]] [|[|c [|d [|? ?]]] [|? ?]]];
    try discriminate HX.
  - destruct (Exact.is_zero a); [discriminate|]; injection HX as <-.
    apply is_mat_length in HM; subst n; apply is_matb_spec; reflexivity.
  - destruct (Exact.is_zero _); [discriminate|]; injection HX as <-.
    apply is_mat_length in HM; subst n; apply is_matb_spec; reflexivity.
Qed.

(** A filter built from the sample configuration is well shaped, and stays
    so. *)
Lemma sample_well_shaped eta_bnd self :
  init Sample.x0 Sample.F0 Sample.I2 Sample.I2 Sample.I2 Sample.dt0
       Sample.tau0 eta_bnd Sample.eps0 Sample.gamma0 = Ok self ->
  well_shaped self /\ synced self /\ ndim self = 2.
Proof.
  intros Hi; split; [|split; [exact (init_synced _ _ _ _ _ _ _ _ _ _ Hi)|]].
  - destruct (init_ok Exact.scalar Sample.x0 Sample.F0 Sample.I2 Sample.I2
                      Sample.I2 Sample.dt0 Sample.tau0 eta_bnd Sample.eps0
                      Sample.gamma0) as (iv & _ & Hinit).
    rewrite Hinit in Hi; injection Hi as <-.
    unfold well_shaped; cbn [ndim H Q R F].
    split; [cbn; lia|].
    repeat (split; [apply is_matb_spec; reflexivity|]).
    intros t; apply is_matb_spec; reflexivity.
  - destruct (init_ok Exact.scalar Sample.x0 Sample.F0 Sample.I2 Sample.I2
                      Sample.I2 Sample.dt0 Sample.tau0 eta_bnd Sample.eps0
                      Sample.gamma0) as (iv & _ & Hinit).
    rewrite Hinit in Hi; now injection Hi as <-.
Qed.

Lemma sample_after k flt eta_bnd :
  flt = init Sample.x0 Sample.F0 Sample.I2 Sample.I2 Sample.I2 Sample.dt0
             Sample.tau0 eta_bnd Sample.eps0 Sample.gamma0 ->
  is_ok (self <- flt ;; run Exact.linalg 1 self (firstn k Sample.zs)) = true ->
  well_shaped (Sample.after k flt) /\ synced (Sample.after k flt) /\
  ndim (Sample.after k flt) = 2.
Proof.
  intros -> Hok; unfold Sample.after.
  apply (get_ok (Sample.blank, [])) in Hok.
  destruct (get _ _) as [self' outs]; cbn [fst].
  apply bind_ok_inv in Hok as (self0 & Hi & Hr).
  destruct (sample_well_shaped Hi) as (Hws & Hsy & En).
  edestruct run_invariants as (? & ? & ? & _);
    [exact Hr | exact Hws | exact Hsy |].
  split; [assumption|]; split; [assumption | congruence].
Qed.

End ExactFacts.

(** The fourth tick of the sample filter with the gate shut: the clock has
    passed [tau], a candidate is computed and turned down. *)
Lemma gate_rejection_holds_eta_witness :
  fgt Exact.scalar (clock (Sample.after 3 Sample.shut_gate))
      (tau (Sample.after 3 Sample.shut_gate)) = true /\
  exists self' out,
    call Exact.linalg 1 (Sample.after 3 Sample.shut_gate) Sample.z
    = Ok (self', out) /\
    eta_t self' = eta_t (Sample.after 3 Sample.shut_gate).
Proof.
  split; [vm_compute; reflexivity|].
  destruct (@ExactFacts.sample_after 3 Sample.shut_gate (Sample.c 0) eq_refl)
    as (Hws & Hsy & En); [vm_compute; reflexivity|].
  destruct (@ok_inv _ (call Exact.linalg 1 (Sample.after 3 Sample.shut_gate)
                            Sample.z)) as [[self' out] Hc];
    [vm_compute; reflexivity|].
  exists self', out; split; [exact Hc|].
  refine (proj1 (@gate_rejection_holds_eta Exact.scalar Exact.linalg 1
                   (Sample.after 3 Sample.shut_gate) self' Sample.z out
                   ExactFacts.inverse_keeps_shape ExactFacts.gt_not_le
                   (ExactFacts.add_mul_zero _) Hws _ Hsy _ Hc)).
  - rewrite En; reflexivity.
  - vm_compute; reflexivity.
Defined.

(** ** A delay window that is never exceeded *)

Section WarmUp.
Variable S : Scalar.
Variable LA : Linalg S.
Implicit Types self : LKF S.

Lemma all_rejected_warm_up ex p h k : forall self t y,
  (forall t', fgt S t' (tau self) = false) ->
  all_rejected LA ex p h k self t y = true.
Proof.
  induction k as [|k IH]; intros self t y Hinf; cbn [all_rejected];
    [reflexivity|].
  apply andb_true_iff; split.
  - destruct (reshape _ _ y); [|reflexivity].
    unfold rejected; now rewrite Hinf.
  - destruct (euler_step (f LA) p h self t y) as [[y1 self1]|] eqn:E;
      [|reflexivity].
    apply IH; intros t'.
    apply euler_step_frame in E.
    destruct (frame_fields E) as (_ & _ & _ & _ & -> & _); apply Hinf.
Qed.

Lemma run_warm_up nsub zs : forall self self' outs,
  inv_keeps_shape LA ->
  (forall h a : S, fadd S a (fmul S h (zero S)) = a) ->
  (forall t, fgt S t (tau self) = false) ->
  well_shaped self -> synced self ->
  Forall (fun z => length z = ndim self) zs ->
  run LA nsub self zs = Ok (self', outs) ->
  eta_t self' = eta_t self.
Proof.
  induction zs as [|z zs IH]; intros self self' outs Hinv Hlaw Hinf Hws Hsy
                                     Hzs Hr; cbn [run] in Hr.
  - now injection Hr as <- <-.
  - bind_inv Hr; destruct a as [self1 out].
    bind_inv Hr; destruct a as [self2 outs'].
    injection Hr as <- <-.
    inversion Hzs as [|? ? Hz Hzs']; subst.
    assert (Heta : eta_t self1 = eta_t self).
    { eapply call_hold; eauto.
      unfold tick_rejected; apply all_rejected_warm_up; exact Hinf. }
    assert (Hws1 : well_shaped self1)
      by (eapply call_well_shaped; eassumption).
    destruct out as [xo e]; apply call_fields in E
      as (_ & _ & _ & _ & Etau & _ & _ & _ & En & _ & _ & _ & _ & Hsy1 & _).
    rewrite <- Heta; eapply IH; eauto.
    + intros t; rewrite Etau; apply Hinf.
    + now rewrite En.
Qed.

End WarmUp.

(** C5.  With a delay window [tau] that no time exceeds, which is what
    [float('inf')] is, the drift correction of a well-shaped filter is the
    zero matrix after every tick of every run that returns: after the whole
    run and after each of its prefixes.  The arithmetic is assumed to
    satisfy [a + h * 0 = a]. *)
Theorem eta_zero_when_tau_infinite (S : Scalar) (LA : Linalg S)
        (x0 : vec S) (F0 : S -> mat S) (H0 Q0 R0 : mat S)
        (dt0 tau0 eta_bnd0 eps0 gamma0 : S) (nsub : nat)
        (zs : list (vec S)) (self0 self' : LKF S)
        (outs : list (squeezed S * vec S)) :
  inv_keeps_shape LA ->
  (forall t : S, fgt S t tau0 = false) ->
  (forall h a : S, fadd S a (fmul S h (zero S)) = a) ->
  0 < length x0 ->
  is_mat (length x0) (length x0) H0 ->
  is_mat (length x0) (length x0) Q0 ->
  is_mat (length x0) (length x0) R0 ->
  (forall t, is_mat (length x0) (length x0) (F0 t)) ->
  Forall (fun z => length z = length x0) zs ->
  init x0 F0 H0 Q0 R0 dt0 tau0 eta_bnd0 eps0 gamma0 = Ok self0 ->
  run LA nsub self0 zs = Ok (self', outs) ->
  eta_t self' = zeros S (length x0) (length x0) /\
  forall j selfj outsj,
    run LA nsub self0 (firstn j zs) = Ok (selfj, outsj) ->
    eta_t selfj = zeros S (length x0) (length x0).
Proof.
  intros Hinv Hinf Hlaw Hn HH HQ HR HF Hzs Hinit Hrun.
  pose proof (init_synced _ _ _ _ _ _ _ _ _ _ Hinit) as Hsy.
  destruct (init_ok S x0 F0 H0 Q0 R0 dt0 tau0 eta_bnd0 eps0 gamma0)
    as (iv & _ & Hi).
  rewrite Hi in Hinit; injection Hinit as Es.
  assert (Hws : well_shaped self0)
    by (rewrite <- Es; unfold well_shaped; cbn; auto 10).
  assert (En : ndim self0 = length x0) by now rewrite <- Es.
  assert (Etau : tau self0 = tau0) by now rewrite <- Es.
  assert (Eeta : eta_t self0 = zeros S (length x0) (length x0))
    by now rewrite <- Es.
  clear Es Hi.
  assert (Hgen : forall zs' s' o',
             Forall (fun z => length z = length x0) zs' ->
             run LA nsub self0 zs' = Ok (s', o') ->
             eta_t s' = zeros S (length x0) (length x0)).
  { intros zs' s' o' Hzs' Hr; rewrite <- Eeta.
    eapply run_warm_up;
      [exact Hinv | exact Hlaw | intros t; rewrite Etau; apply Hinf
      | exact Hws | exact Hsy | rewrite En; exact Hzs' | exact Hr]. }
  split; [exact (Hgen _ _ _ Hzs Hrun)|].
  intros j selfj outsj; apply Hgen.
  apply Forall_forall; intros z Hz; rewrite Forall_forall in Hzs.
  apply Hzs; rewrite <- (firstn_skipn j zs); apply in_or_app; now left.
Qed.

Module WithInfFacts.

Lemma never_exceeded (t : WithInf.scalar) :
  fgt WithInf.scalar t WithInf.inf = false.
Proof. destruct t; reflexivity. Qed.

Lemma inf_add_mul_zero (h a : WithInf.scalar) :
  fadd WithInf.scalar a (fmul WithInf.scalar h (zero WithInf.scalar)) = a.
Proof.
  destruct h as [x|], a as [y|]; cbn; try reflexivity.
  - f_equal; change (Exact.of_int 0) with (Q2Qc 0).
    now rewrite Qcmult_0_r, Qcplus_0_r.
  - f_equal; change (Exact.of_int 0) with (Q2Qc 0).
    now rewrite Qcplus_0_r.
Qed.

Lemma length_sequence (A : Type) (l : list (result A)) (l' : list A) :
  sequence l = Ok l' -> length l' = length l.
Proof.
  revert l'; induction l as [|m l IH]; intros l' Hs; cbn [sequence] in Hs.
  - now injection Hs as <-.
  - bind_inv Hs; bind_inv Hs; injection Hs as <-; cbn; now rewrite (IH a0).
Qed.

Lemma inf_inverse_keeps_shape : inv_keeps_shape WithInf.linalg.
Proof.
  intros n M X HM HX; cbn in HX.
  bind_inv HX; bind_inv HX; injection HX as <-.
  apply length_sequence in E; rewrite length_map in E.
  apply is_mat_length in HM.
  assert (En : n = length a) by (symmetry; exact (eq_trans E HM)).
  clear E HM; subst n.
  unfold Exact.inverse in E0.
  destruct a as [|[|p [|q [|? ?]]] [|[|u [|v [|? ?]]] [|? ?]]];
    try discriminate E0.
  - destruct (Exact.is_zero p); [discriminate|]; injection E0 as <-.
    apply is_matb_spec; reflexivity.
  - destruct (Exact.is_zero _); [discriminate|]; injection E0 as <-.
    apply is_matb_spec; reflexivity.
Qed.

End WithInfFacts.

(** Four ticks of the sample filter with [tau = inf]. *)
Lemma eta_zero_when_tau_infinite_witness :
  exists self0 self' outs,
    SampleInf.never_learning = Ok self0 /\
    run WithInf.linalg 1 self0 SampleInf.zs = Ok (self', outs) /\
    eta_t self' = zeros WithInf.scalar 2 2.
Proof.
  destruct (@ok_inv _ (self0 <- SampleInf.never_learning ;;
                       run WithInf.linalg 1 self0 SampleInf.zs))
    as [[self' outs] Hb]; [vm_compute; reflexivity|].
  apply bind_ok_inv in Hb as (self0 & Hi & Hr).
  exists self0, self', outs; split; [exact Hi|]; split; [exact Hr|].
  refine (proj1 (@eta_zero_when_tau_infinite WithInf.scalar WithInf.linalg
                   SampleInf.x0 SampleInf.F0 SampleInf.I2 SampleInf.I2
                   SampleInf.I2 (Some Sample.dt0) WithInf.inf
                   (Some (Sample.c 100)) (Some Sample.eps0)
                   (Some Sample.gamma0) 1 SampleInf.zs self0 self' outs
                   WithInfFacts.inf_inverse_keeps_shape
                   WithInfFacts.never_exceeded WithInfFacts.inf_add_mul_zero
                   _ _ _ _ _ _ Hi Hr)).
  - cbn; lia.
  - apply is_matb_spec; reflexivity.
  - apply is_matb_spec; reflexivity.
  - apply is_matb_spec; reflexivity.
  - intros t; apply is_matb_spec; reflexivity.
  - repeat constructor.
Defined.

(** ** The Kalman gain *)

Section Gain.
Variable S : Scalar.
Variable LA : Linalg S.
Implicit Types self : LKF S.

(** Every successful evaluation of [f] computes its gain by
    [kalman_gain] from the covariance block of the state it is given. *)
Lemma f_gain self t y p d self' :
  f LA self t y p = Ok (d, self') ->
  exists st K,
    reshape (ndim self) (1 + 2 * ndim self) y = Ok st /\
    kalman_gain LA self (cols 1 (1 + ndim self) st) = Ok K.
Proof.
  destruct p as [[z eh] F_t]; unfold f, ode_shape; cbn [fst snd]; intros Hf.
  bind_inv Hf; bind_inv Hf; eauto.
Qed.

(** With a symmetric observation matrix the code's gain is the
    specification's. *)
Lemma kalman_gain_symmetric self P :
  transpose (H self) = H self ->
  kalman_gain LA self P = kalman_gain_spec LA self P.
Proof. intros Hsym; unfold kalman_gain, kalman_gain_spec; now rewrite Hsym. Qed.

End Gain.

(** C1.  The code multiplies by [H], not by its transpose.  On the fresh
    filter with [H = [[1, 1], [0, 1]]], [R = I], [P = I] the gain computed
    by line 38 is [H] itself, the specification's [P . H^T . R^-1] is
    [[1, 0], [1, 1]], and the first evaluation of the drift field on the
    observation [(1, 0)] yields the state derivative [(1, 0)] where the
    specification's gain would give [(1, 1)]. *)
Theorem kalman_gain_omits_transpose :
  (self <- Sample.skew ;;
   K <- kalman_gain Exact.linalg self (P_t self) ;; Ok (Exact.show2 K))
  = Ok (Exact.show2 Sample.H_skew) /\
  (self <- Sample.skew ;;
   K <- kalman_gain_spec Exact.linalg self (P_t self) ;; Ok (Exact.show2 K))
  = Ok (Exact.show2 (transpose Sample.H_skew)) /\
  Exact.show2 Sample.H_skew <> Exact.show2 (transpose Sample.H_skew) /\
  (self <- Sample.skew ;;
   '(d, _) <- f Exact.linalg self (clock self) (r_y (r self))
                (Sample.z10, err_hist self, F self (clock self)) ;;
   '(d_x, _, _) <- load_vars 2 d ;; Ok (Exact.show2 d_x))
  = Ok (Exact.show2 [[Sample.c 1]; [Sample.c 0]]).
Proof.
  split; [vm_compute; reflexivity|].
  split; [vm_compute; reflexivity|].
  split; [vm_compute; discriminate|].
  vm_compute; reflexivity.
Qed.

(** ** The lookback *)

Section Lookback.
Context {B : Type}.

(** [l[-k]] for [1 <= k <= len(l)] is the entry [k - 1] places before the
    last one. *)
Lemma py_index_neg (l : list B) (k : nat) :
  1 <= k <= length l ->
  py_index l (- Z.of_nat k) = match nth_error l (length l - k) with
                             | Some b => Ok b
                             | None => Err IndexError
                             end /\
  length l - k = (length l - 1) - (k - 1).
Proof.
  intros Hk; split; [|lia]; unfold py_index.
  assert (Hneg : (- Z.of_nat k <? 0)%Z = true) by (apply Z.ltb_lt; lia).
  rewrite Hneg.
  replace (Z.of_nat (length l) + - Z.of_nat k)%Z
    with (Z.of_nat (length l - k)) by lia.
  assert (Hin : ((0 <=? Z.of_nat (length l - k))
                 && (Z.of_nat (length l - k) <? Z.of_nat (length l)))%Z
                = true).
  { apply andb_true_iff; split; [apply Z.leb_le | apply Z.ltb_lt]; lia. }
  now rewrite Hin, Nat2Z.id.
Qed.

(** [l[-1]] is the last entry. *)
Lemma py_index_last (l : list B) (b : B) :
  py_index (l ++ [b]) (-1) = Ok b.
Proof.
  destruct (@py_index_neg (l ++ [b]) 1) as [Hi _];
    [rewrite length_app; simpl; lia|].
  change (- Z.of_nat 1)%Z with (-1)%Z in Hi; rewrite Hi.
  rewrite length_app, Nat.add_sub; cbn [length].
  now rewrite nth_error_app2, Nat.sub_diag by lia.
Qed.

End Lookback.

(** With [tau_n = int(tau / dt) = k] and at least [k >= 1] entries in each
    buffer, the learning rule reads the last entry of each buffer and the
    entry [k - 1] places before it. *)
Lemma lookback_reads (S : Scalar) (self : LKF S) (eh : list (vec S))
      (k : nat) :
  trunc S (fdiv S (tau self) (dt self)) = Ok (Z.of_nat k) ->
  1 <= k <= length eh -> k <= length (P_hist self) ->
  exists e_t e_tau p_t p_tau,
    lookback self eh = Ok (newaxis e_t, newaxis e_tau, p_t, p_tau) /\
    nth_error eh (length eh - 1) = Some e_t /\
    nth_error eh (length eh - 1 - (k - 1)) = Some e_tau /\
    nth_error (P_hist self) (length (P_hist self) - 1) = Some p_t /\
    nth_error (P_hist self) (length (P_hist self) - 1 - (k - 1))
    = Some p_tau.
Proof.
  intros Hk He HP; unfold lookback; rewrite Hk; cbn [bind].
  destruct (@py_index_neg _ eh 1) as [E1 _]; [lia|].
  destruct (@py_index_neg _ eh k) as [E2 Ei2]; [lia|].
  destruct (@py_index_neg _ (P_hist self) 1) as [E3 _]; [lia|].
  destruct (@py_index_neg _ (P_hist self) k) as [E4 Ei4]; [lia|].
  change (- Z.of_nat 1)%Z with (-1)%Z in E1, E3.
  rewrite E1, E2, E3, E4, <- Ei2, <- Ei4.
  destruct (nth_error eh (length eh - 1)) as [e_t|] eqn:N1;
    [|apply nth_error_None in N1; lia].
  destruct (nth_error eh (length eh - k)) as [e_tau|] eqn:N2;
    [|apply nth_error_None in N2; lia].
  destruct (nth_error (P_hist self) (length (P_hist self) - 1))
    as [p_t|] eqn:N3; [|apply nth_error_None in N3; lia].
  destruct (nth_error (P_hist self) (length (P_hist self) - k))
    as [p_tau|] eqn:N4; [|apply nth_error_None in N4; lia].
  cbn [bind]; exists e_t, e_tau, p_t, p_tau; auto.
Qed.

(** C6.  After three ticks of the sample filter ([tau = 1], [dt = 1/2], so
    that [int(tau / dt) = 2]) the buffers hold three entries.  The learning
    rule reads the last entry and the entry before it, which is one tick
    older, not two: the innovation recorded two ticks before the most
    recent one, a different vector, is not read. *)
Theorem lookback_is_one_tick_short :
  trunc Exact.scalar
        (fdiv Exact.scalar (tau (Sample.after 3 Sample.open_gate))
              (dt (Sample.after 3 Sample.open_gate))) = Ok 2%Z /\
  length (err_hist (Sample.after 3 Sample.open_gate)) = 3 /\
  length (P_hist (Sample.after 3 Sample.open_gate)) = 3 /\
  ('(err_t, err_tau, p_t, p_tau) <-
     lookback (Sample.after 3 Sample.open_gate)
              (err_hist (Sample.after 3 Sample.open_gate)) ;;
   Ok (Exact.show2 err_t, Exact.show2 err_tau,
       Exact.show2 p_t, Exact.show2 p_tau))
  = Ok (Exact.show2
          (newaxis (nth 2 (err_hist (Sample.after 3 Sample.open_gate)) [])),
        Exact.show2
          (newaxis (nth 1 (err_hist (Sample.after 3 Sample.open_gate)) [])),
        Exact.show2 (nth 2 (P_hist (Sample.after 3 Sample.open_gate)) []),
        Exact.show2 (nth 1 (P_hist (Sample.after 3 Sample.open_gate)) [])) /\
  Exact.show1 (nth 1 (err_hist (Sample.after 3 Sample.open_gate)) [])
  <> Exact.show1 (nth 0 (err_hist (Sample.after 3 Sample.open_gate)) []).
Proof.
  split; [vm_compute; reflexivity|].
  split; [vm_compute; reflexivity|].
  split; [vm_compute; reflexivity|].
  split; [vm_compute; reflexivity|].
  vm_compute; discriminate.
Qed.

(** ** The learning rule *)

Section Candidate.
Variable S : Scalar.
Variable LA : Linalg S.
Implicit Types self : LKF S.

Hypothesis mul_zero : forall c : S, fmul S c (zero S) = zero S.
Hypothesis mul_add : forall c a b : S,
    fmul S c (fadd S a b) = fadd S (fmul S c a) (fmul S c b).
Hypothesis mul_assoc : forall c a b : S,
    fmul S (fmul S c a) b = fmul S c (fmul S a b).
Hypothesis div_mul : forall c a : S,
    fdiv S (fmul S c a) (two S) = fmul S (fdiv S c (two S)) a.

Lemma dot_scale (c : S) (u v : vec S) :
  dot (map (fmul S c) u) v = fmul S c (dot u v).
Proof.
  unfold dot; revert v; induction u as [|a u IH]; intros [|b v];
    cbn [map combine fold_right fst snd]; try (now rewrite mul_zero).
  now rewrite IH, mul_add, mul_assoc.
Qed.

Lemma ncols_scale (c : S) (M : mat S) : ncols (scale c M) = ncols M.
Proof. destruct M; [reflexivity | apply length_map]. Qed.

Lemma matmul_scale (c : S) (M N : mat S) :
  matmul (scale c M) N = (X <- matmul M N ;; Ok (scale c X)).
Proof.
  unfold matmul; rewrite ncols_scale.
  destruct (ncols M =? length N); [|reflexivity].
  cbn [bind]; f_equal; unfold scale; rewrite !map_map.
  apply map_ext; intros row; rewrite map_map.
  apply map_ext; intros col; apply dot_scale.
Qed.

Lemma divide_scale (c : S) (M : mat S) :
  divide (scale c M) (two S) = scale (fdiv S c (two S)) M.
Proof.
  unfold divide, scale; rewrite map_map; apply map_ext; intros row.
  rewrite map_map; apply map_ext; intros a; apply div_mul.
Qed.

(** Line 52 against the specification's product. *)
Lemma candidate_spec self (H_inv d_zz P_inv : mat S) :
  candidate self H_inv d_zz P_inv
  = (a <- matmul H_inv d_zz ;;
     b <- matmul a (transpose H_inv) ;;
     c <- matmul b P_inv ;;
     Ok (scale (fdiv S (gamma self) (two S)) c)).
Proof.
  unfold candidate; rewrite matmul_scale.
  destruct (matmul H_inv d_zz) as [a|]; [|reflexivity]; cbn [bind].
  rewrite matmul_scale.
  destruct (matmul a (transpose H_inv)) as [b|]; [|reflexivity]; cbn [bind].
  rewrite matmul_scale.
  destruct (matmul b P_inv) as [c|]; [|reflexivity]; cbn [bind].
  now rewrite divide_scale.
Qed.

(** Lines 42 to 52 compute the specification's formula over the entries
    the code's own lookback returns. *)
Lemma eta_new_refines self P eh :
  (x <- eta_new LA self P eh ;; Ok (fst x))
  = eta_new_from LA self P (lookback self eh).
Proof.
  unfold eta_new, eta_new_from, regularized_inverse.
  destruct (inv LA (H self)) as [H_inv|]; [|reflexivity]; cbn [bind].
  destruct (matmul (transpose P) P) as [PtP|]; [|reflexivity]; cbn [bind].
  destruct (madd PtP _) as [A|]; [|reflexivity]; cbn [bind].
  destruct (solve LA A (transpose P)) as [P_inv|]; [|reflexivity];
    cbn [bind].
  assert (Hlb : lookback (set_p_inv_t self P_inv) eh = lookback self eh)
    by (destruct self; reflexivity).
  rewrite Hlb.
  destruct (lookback self eh) as [[[[err_t err_tau] p_t] p_tau]|];
    [|reflexivity]; cbn [bind].
  assert (Hdz : innovation_rate (set_p_inv_t self P_inv) err_t err_tau p_t
                                p_tau
                = d_zz_spec self err_t err_tau p_t p_tau)
    by (destruct self; reflexivity).
  rewrite Hdz.
  destruct (d_zz_spec self err_t err_tau p_t p_tau) as [d_zz|];
    [|reflexivity]; cbn [bind].
  rewrite candidate_spec; destruct self; cbn.
  destruct (matmul H_inv d_zz) as [a|]; [|reflexivity]; cbn [bind].
  destruct (matmul a (transpose H_inv)) as [b|]; [|reflexivity]; cbn [bind].
  destruct (matmul b P_inv) as [c|]; reflexivity.
Qed.

End Candidate.

(** C2.  The candidate of the code is not the candidate of the
    specification.  At the start of the fourth tick of the sample filter,
    the first of its learning phase ([tau = 1], [dt = 1/2], three entries in
    each buffer), lines 42 to 52 return a candidate and so does the
    specification; the code's is the specification's formula
    [(gamma / 2) . H^-1 . d_zz . H^-T . P_inv] over the last entries of the
    buffers and those one tick before them, which the index [-tau_n] of
    lines 46 and 47 reads; over the most recent and the [tau]-ticks-ago
    entries that the specification names, two ticks before the last, the
    formula gives another matrix. *)
Theorem eta_new_differs_from_spec :
  fgt Exact.scalar (clock (Sample.after 3 Sample.open_gate))
      (tau (Sample.after 3 Sample.open_gate)) = true /\
  (x <- eta_new Exact.linalg (Sample.after 3 Sample.open_gate)
                (P_t (Sample.after 3 Sample.open_gate))
                (err_hist (Sample.after 3 Sample.open_gate)) ;;
   Ok (Exact.show2 (fst x)))
  = Ok [[(5 # 22)%Q; (-35 # 176)%Q]; [(-35 # 176)%Q; (15 # 176)%Q]] /\
  (e <- eta_new_spec Exact.linalg (Sample.after 3 Sample.open_gate)
                     (P_t (Sample.after 3 Sample.open_gate))
                     (err_hist (Sample.after 3 Sample.open_gate)) ;;
   Ok (Exact.show2 e))
  = Ok [[(-135 # 176)%Q; (-75 # 88)%Q]; [(-75 # 88)%Q; (-15 # 44)%Q]] /\
  (x <- eta_new Exact.linalg (Sample.after 3 Sample.open_gate)
                (P_t (Sample.after 3 Sample.open_gate))
                (err_hist (Sample.after 3 Sample.open_gate)) ;;
   Ok (Exact.show2 (fst x)))
  = (e <- eta_new_from Exact.linalg (Sample.after 3 Sample.open_gate)
                       (P_t (Sample.after 3 Sample.open_gate))
                       (lookback (Sample.after 3 Sample.open_gate)
                                 (err_hist (Sample.after 3 Sample.open_gate))) ;;
     Ok (Exact.show2 e)) /\
  (x <- eta_new Exact.linalg (Sample.after 3 Sample.open_gate)
                (P_t (Sample.after 3 Sample.open_gate))
                (err_hist (Sample.after 3 Sample.open_gate)) ;;
   Ok (Exact.show2 (fst x)))
  <> (e <- eta_new_spec Exact.linalg (Sample.after 3 Sample.open_gate)
                        (P_t (Sample.after 3 Sample.open_gate))
                        (err_hist (Sample.after 3 Sample.open_gate)) ;;
      Ok (Exact.show2 e)).
Proof.
  split; [vm_compute; reflexivity|].
  split; [vm_compute; reflexivity|].
  split; [vm_compute; reflexivity|].
  split; [vm_compute; reflexivity|].
  vm_compute; discriminate.
Qed.

(** ** Dimension mismatches *)

Section Mismatch.
Variable S : Scalar.
Variable LA : Linalg S.
Implicit Types self : LKF S.

Lemma matmul_ok_inv (M N X : mat S) :
  matmul M N = Ok X -> ncols M = length N.
Proof.
  unfold matmul; destruct (ncols M =? length N) eqn:E; [|discriminate].
  intros _; now apply Nat.eqb_eq.
Qed.

Lemma is_mat_of_ncols (A : Type) r c (M : mat A) :
  is_mat r c M -> 0 < length M -> is_mat (length M) (ncols M) M.
Proof.
  intros HM Hpos; pose proof (is_mat_length HM) as Hl.
  rewrite (ncols_is_mat HM) by lia; now rewrite Hl.
Qed.

(** An evaluation of [f] that returns has found [H] and [R] of shape
    [n x n]. *)
Lemma f_demands_shapes self t y p d self' r c :
  inv_wants_square LA -> 0 < ndim self -> is_mat r c (H self) ->
  f LA self t y p = Ok (d, self') ->
  is_mat (ndim self) (ndim self) (H self) /\
  is_mat (ndim self) (ndim self) (R self).
Proof.
  intros Hinv Hn HH Hf; destruct p as [[z eh] F_t].
  unfold f, ode_shape in Hf; cbn [fst snd] in Hf.
  bind_inv_as Hf Est; rename a into st.
  destruct (reshape_inv _ _ _ Est) as (_ & Hst & _).
  destruct (split_state Hst) as (Hx & HP & _).
  bind_inv_as Hf EK; rename a into K.
  unfold kalman_gain in EK.
  bind_inv_as EK EPH; rename a into PH.
  bind_inv_as EK ERinv; rename a into Rinv.
  bind_inv_as Hf Ede; destruct a as [de self1].
  destruct (frame_fields (d_eta_frame _ _ _ _ _ _ Ede))
    as (EH & _ & ER & _).
  rewrite ?EH, ?ER in Hf.
  bind_inv_as Hf EFest; bind_inv_as Hf EFx; bind_inv_as Hf EHx.
  (* shapes forced by the products that went through *)
  pose proof (matmul_ok_inv _ _ EPH) as HPH.
  rewrite (ncols_is_mat HP Hn) in HPH.
  pose proof (matmul_ok_inv _ _ EHx) as HHx.
  rewrite (is_mat_length Hx) in HHx.
  assert (HHn : is_mat (ndim self) (ndim self) (H self)).
  { pose proof (@is_mat_of_ncols _ r c (H self) HH) as Hs.
    rewrite <- HPH, HHx in Hs; apply Hs; lia. }
  split; [exact HHn|].
  destruct (Hinv _ _ ERinv) as (k & HRk & HRinvk).
  pose proof (matmul_shape EPH HP HHn Hn) as HPHs.
  pose proof (matmul_ok_inv _ _ EK) as HK.
  rewrite (ncols_is_mat HPHs Hn), (is_mat_length HRinvk) in HK.
  now subst k.
Qed.

End Mismatch.

(** ** Transposition *)

Lemma map_nth_seq (B : Type) (d : B) (l : list B) :
  map (fun i => nth i l d) (seq 0 (length l)) = l.
Proof.
  apply (nth_ext _ _ d d); [now rewrite length_map, length_seq|].
  intros i Hi; rewrite length_map, length_seq in Hi.
  rewrite (nth_indep _ d (nth 0 l d)) by now rewrite length_map, length_seq.
  rewrite (map_nth (fun i => nth i l d)), seq_nth by assumption.
  reflexivity.
Qed.

Section Transpose.
Context {A : Type}.
Variable d : A.

Lemma column_nth r c j (M : mat A) :
  is_mat r c M -> j < c -> column j M = map (fun row => nth j row d) M.
Proof.
  revert r; induction M as [|row M IH]; intros r HM Hj; [reflexivity|].
  destruct r as [|r]; [apply is_mat_length in HM; discriminate|].
  apply is_mat_cons in HM as [Hrow HM].
  change (column j (row :: M)) with (firstn 1 (skipn j row) ++ column j M).
  rewrite (IH r HM Hj); cbn [map].
  replace (firstn 1 (skipn j row)) with [nth j row d]; [reflexivity|].
  clear - Hrow Hj; subst c; revert j Hj.
  induction row as [|a row IH]; intros j Hj; [simpl in Hj; lia|].
  destruct j as [|j]; [reflexivity|].
  cbn [skipn nth]; apply IH; simpl in Hj; lia.
Qed.

Lemma transpose_nth r c (M : mat A) :
  is_mat r c M -> 0 < r ->
  transpose M = map (fun j => map (fun row => nth j row d) M) (seq 0 c).
Proof.
  intros HM Hr; unfold transpose; rewrite (ncols_is_mat HM Hr).
  apply map_ext_in; intros j Hj; apply in_seq in Hj.
  apply (column_nth HM); lia.
Qed.

Lemma transpose_involutive r c (M : mat A) :
  is_mat r c M -> 0 < r -> 0 < c -> transpose (transpose M) = M.
Proof.
  intros HM Hr Hc.
  pose proof (transpose_is_mat HM Hr) as HT.
  rewrite (transpose_nth HT Hc), (transpose_nth HM Hr).
  destruct HM as [Hl Hf]; rewrite Forall_forall in Hf.
  etransitivity; [|apply (map_nth_seq [] M)]; rewrite Hl.
  apply map_ext_in; intros i Hi; apply in_seq in Hi.
  rewrite map_map.
  assert (Hrow : length (nth i M []) = c) by (apply Hf, nth_In; lia).
  etransitivity; [|apply (map_nth_seq d (nth i M []))]; rewrite Hrow.
  apply map_ext; intros j.
  rewrite (nth_indep _ d (nth j [] d)) by (rewrite length_map; lia).
  now rewrite (map_nth (fun row => nth j row d)).
Qed.

End Transpose.

(** ** What a tick returns *)

Section Innovation.
Variable S : Scalar.
Implicit Types self : LKF S.

Hypothesis mul_comm : forall a b : S, fmul S a b = fmul S b a.

Lemma dot_comm (u v : vec S) : dot u v = dot v u.
Proof.
  unfold dot; revert v; induction u as [|a u IH]; intros [|b v];
    cbn [combine fold_right fst snd]; try reflexivity.
  now rewrite IH, mul_comm.
Qed.

(** [x @ H.T] on a 1-D [x] is the product [H . x]. *)
Lemma vecmat_transpose n (M : mat S) (v : vec S) :
  is_mat n n M -> 0 < n -> length v = n ->
  vecmat v (transpose M) = Ok (matvec M v).
Proof.
  intros HM Hn Hv; unfold vecmat, matvec.
  rewrite (is_mat_length (transpose_is_mat HM Hn)), Hv, Nat.eqb_refl.
  rewrite (transpose_involutive (zero S) HM Hn Hn).
  f_equal; apply map_ext; intros row; apply dot_comm.
Qed.

(** A column is the [newaxis] of its flattening; its squeeze is 1-D unless
    it has a single entry. *)
Lemma column_newaxis n (M : mat S) :
  is_mat n 1 M -> M = newaxis (ravel M) /\ length (ravel M) = n.
Proof.
  revert n; induction M as [|row M IH]; intros n HM.
  - apply is_mat_length in HM; simpl in HM; now subst.
  - destruct n as [|n]; [apply is_mat_length in HM; discriminate|].
    apply is_mat_cons in HM as [Hrow HM].
    destruct row as [|a [|? ?]]; try discriminate Hrow.
    destruct (IH n HM) as [IH1 IH2]; unfold newaxis, ravel in *.
    cbn [concat app map length]; split; [now rewrite <- IH1 | now rewrite IH2].
Qed.

Lemma squeeze_column n (M : mat S) :
  is_mat n 1 M ->
  (exists a, M = [[a]] /\ squeeze M = Dim0 a) \/
  (squeeze M = Dim1 (ravel M)).
Proof.
  intros HM; destruct M as [|[|a [|? ?]] [|? ?]]; cbn [squeeze]; eauto.
Qed.

End Innovation.

(** ** Views, allocation and in-place modification *)

Section ViewFacts.
Variable S : Scalar.
Implicit Types (h : heap S) (b : nat).

Lemma chunks_map (A B : Type) (g : A -> B) w r (l : list A) :
  chunks w r (map g l) = map (map g) (chunks w r l).
Proof.
  revert l; induction r as [|r IH]; intros l; cbn [chunks map];
    [reflexivity|].
  now rewrite firstn_map, skipn_map, IH.
Qed.

Lemma reshape_map (A B : Type) (g : A -> B) r w (l : list A) M :
  reshape r w l = Ok M -> reshape r w (map g l) = Ok (map (map g) M).
Proof.
  unfold reshape; rewrite length_map.
  destruct (length l =? r * w); [|discriminate].
  intros [= <-]; now rewrite chunks_map.
Qed.

Lemma cols_map (A B : Type) (g : A -> B) a c (M : mat A) :
  cols a c (map (map g) M) = map (map g) (cols a c M).
Proof.
  unfold cols; rewrite !map_map; apply map_ext; intros row.
  now rewrite skipn_map, firstn_map.
Qed.

Lemma cols_from_map (A B : Type) (g : A -> B) a (M : mat A) :
  cols_from a (map (map g) M) = map (map g) (cols_from a M).
Proof.
  unfold cols_from; rewrite !map_map; apply map_ext; intros row.
  now rewrite skipn_map.
Qed.

Lemma ravel_map (A B : Type) (g : A -> B) (M : mat A) :
  ravel (map (map g) M) = map g (ravel M).
Proof. unfold ravel; symmetry; apply concat_map. Qed.

Lemma buffer_alloc h (v : vec S) b :
  b < length h -> buffer (fst (alloc h v)) b = buffer h b.
Proof. intros Hb; unfold buffer, alloc; cbn [fst]; now apply app_nth1. Qed.

Lemma buffer_alloc_new h (v : vec S) :
  buffer (fst (alloc h v)) (length h) = v.
Proof.
  unfold buffer, alloc; cbn [fst].
  now rewrite app_nth2, Nat.sub_diag by lia.
Qed.

Lemma nth_middle_ne (A : Type) (l1 l2 : list A) (x y d : A) i :
  i <> length l1 -> nth i (l1 ++ x :: l2) d = nth i (l1 ++ y :: l2) d.
Proof.
  intros Hi; destruct (Nat.lt_ge_cases i (length l1)) as [Hlt|Hge].
  - now rewrite !app_nth1 by assumption.
  - rewrite !app_nth2 by assumption.
    destruct (i - length l1) as [|k] eqn:E; [lia | reflexivity].
Qed.

Lemma buffer_store h b b' (w : vec S) :
  b < length h -> b' <> b -> buffer (store h b w) b' = buffer h b'.
Proof.
  intros Hb Hne; unfold buffer, store; cbn [app].
  rewrite <- (firstn_skipn b h) at 3.
  destruct (skipn b h) as [|x rest] eqn:E.
  - apply (f_equal (@length _)) in E; rewrite length_skipn in E.
    simpl in E; lia.
  - assert (Hrest : skipn (Datatypes.S b) h = rest).
    { replace (Datatypes.S b) with (1 + b) by lia.
      now rewrite <- skipn_skipn, E. }
    rewrite Hrest; apply nth_middle_ne.
    rewrite length_firstn; lia.
Qed.

Lemma read1_store h b (w : vec S) (v : view1) :
  b < length h -> base1 v <> b -> read1 (store h b w) v = read1 h v.
Proof. intros Hb Hne; unfold read1; now rewrite buffer_store. Qed.

Lemma read2_store h b (w : vec S) (v : view2) :
  b < length h -> base2 v <> b -> read2 (store h b w) v = read2 h v.
Proof. intros Hb Hne; unfold read2; now rewrite buffer_store. Qed.

Lemma read1_alloc h (u : vec S) (v : view1) :
  base1 v < length h -> read1 (fst (alloc h u)) v = read1 h v.
Proof. intros Hb; unfold read1; now rewrite buffer_alloc. Qed.

Lemma read2_alloc h (u : vec S) (v : view2) :
  base2 v < length h -> read2 (fst (alloc h u)) v = read2 h v.
Proof. intros Hb; unfold read2; now rewrite buffer_alloc. Qed.

Lemma read1_alloc_new h (u : vec S) :
  read1 (fst (alloc h u)) (snd (alloc h u)) = u.
Proof.
  unfold read1; cbn [alloc snd base1 offs1].
  rewrite buffer_alloc_new; apply map_nth_seq.
Qed.

End ViewFacts.

Section TickOnObjects.
Variable S : Scalar.
Implicit Types (self : LKF S) (h : heap S).

(** Lines 88 to 94 on objects compute what they compute on values, and the
    copy they return lives in a buffer that none of the filter's arrays
    views. *)
Lemma record_and_return_on_objects self self' z xo e h rs :
  record_and_return self z = Ok (self', (xo, e)) ->
  read1 h (y_ref rs) = r_y (r self) ->
  Forall (fun b => b < length h) (bases rs) ->
  exists v h' rs' xc er,
    xo = Dim1 v /\
    record_and_return_refs (ndim self) (H self) h rs z
    = Ok (h', rs', (xc, er)) /\
    read1 h' xc = v /\ read1 h' er = e /\
    read2 h' (x_ref rs') = x_t self' /\
    read2 h' (P_ref rs') = P_t self' /\
    read2 h' (eta_ref rs') = eta_t self' /\
    base1 xc < length h' /\
    Forall (fun b => b <> base1 xc) (bases rs').
Proof.
  intros Hv Hh Hb; unfold record_and_return in Hv.
  bind_inv_as Hv El; destruct a as [[x P] eta].
  apply load_vars_inv in El as (st & Est & -> & -> & ->).
  cbn [H append_P_hist set_vars append_err_hist] in Hv.
  (* the offsets are reshaped as the values are *)
  pose (g := fun i => nth i (buffer h (base1 (y_ref rs))) (zero S)).
  assert (Hso : exists so,
             reshape (ndim self) (1 + 2 * ndim self) (offs1 (y_ref rs))
             = Ok so /\ st = map (map g) so).
  { exists (chunks (1 + 2 * ndim self) (ndim self) (offs1 (y_ref rs))).
    assert (Eoffs : reshape (ndim self) (1 + 2 * ndim self)
                            (offs1 (y_ref rs))
                    = Ok (chunks (1 + 2 * ndim self) (ndim self)
                                 (offs1 (y_ref rs)))).
    { unfold reshape in Est |- *; rewrite <- Hh in Est.
      unfold read1 in Est; rewrite length_map in Est.
      destruct (length (offs1 (y_ref rs))
                =? ndim self * (1 + 2 * ndim self));
        [reflexivity | discriminate]. }
    split; [exact Eoffs|].
    pose proof (reshape_map g _ _ _ Eoffs) as Est'.
    change (map g (offs1 (y_ref rs))) with (read1 h (y_ref rs)) in Est'.
    rewrite Hh, Est in Est'; now injection Est'. }
  destruct Hso as (so & Eoffs & ->); clear Est.
  assert (Hbase : base1 (y_ref rs) < length h) by (inversion Hb; assumption).
  assert (Hold : Forall (fun b => b < length h)
                        (map base2 (P_hist_ref rs)
                         ++ map base1 (err_hist_ref rs))).
  { unfold bases in Hb.
    inversion_clear Hb as [|? ? _ Hb1]; inversion_clear Hb1 as [|? ? _ Hb2].
    inversion_clear Hb2 as [|? ? _ Hb3]; inversion_clear Hb3 as [|? ? _ Hb4].
    exact Hb4. }
  rewrite cols_map, cols_map, cols_from_map in Hv.
  unfold record_and_return_refs, ode_shape; cbn [fst snd].
  rewrite Eoffs; cbn [bind offs2].
  remember (cols 0 1 so) as xo_ eqn:Exo.
  assert (Hsq : squeeze (map (map g) xo_) = Dim1 (map g (ravel xo_)) /\
                forall (T : Type) (u w : T),
                  match xo_ with [[_]] => u | _ => w end = w).
  { clear - Hv; destruct xo_ as [|[|i [|? ?]] [|? ?]];
      cbn [map squeeze squeezed_matmul bind] in Hv; try discriminate Hv;
      (split; [cbn [map squeeze]; now rewrite <- ravel_map | reflexivity]). }
  destruct Hsq as [Hsq Hmatch]; rewrite Hmatch; rewrite Hsq in Hv.
  cbn [squeezed_matmul copy] in Hv.
  bind_inv_as Hv ExH; bind_inv_as Hv Ee; injection Hv as <- <- <-.
  unfold read1 at 1; cbn [base1 offs1]; fold g.
  rewrite ExH; cbn [bind]; rewrite Ee; cbn [bind alloc].
  cbn [y_ref x_ref P_ref eta_ref P_hist_ref err_hist_ref].
  rename a into xH, a0 into e.
  set (xs := {| base1 := base1 (y_ref rs); offs1 := ravel xo_ |}).
  assert (Hxs : read1 (h ++ [e]) xs = map g (ravel xo_)).
  { change (h ++ [e]) with (fst (alloc h e)).
    now rewrite read1_alloc by exact Hbase. }
  assert (Hlen1 : length (h ++ [e]) = Datatypes.S (length h))
    by (rewrite length_app; simpl; lia).
  assert (Hbuf : buffer ((h ++ [e]) ++ [read1 (h ++ [e]) xs])
                        (base1 (y_ref rs))
                 = buffer h (base1 (y_ref rs))).
  { change ((h ++ [e]) ++ [read1 (h ++ [e]) xs])
      with (fst (alloc (h ++ [e]) (read1 (h ++ [e]) xs))).
    rewrite buffer_alloc by lia.
    change (h ++ [e]) with (fst (alloc h e)); now apply buffer_alloc. }
  eexists _, _, _, _, _.
  split; [reflexivity|]; split; [reflexivity|].
  cbn [x_t P_t eta_t x_ref P_ref eta_ref base1].
  split; [|split; [|split; [|split; [|split; [|split]]]]].
  - change ((h ++ [e]) ++ [read1 (h ++ [e]) xs])
      with (fst (alloc (h ++ [e]) (read1 (h ++ [e]) xs))).
    change {| base1 := length (h ++ [e]);
              offs1 := seq 0 (length (read1 (h ++ [e]) xs)) |}
      with (snd (alloc (h ++ [e]) (read1 (h ++ [e]) xs))).
    now rewrite read1_alloc_new.
  - change ((h ++ [e]) ++ [read1 (h ++ [e]) xs])
      with (fst (alloc (h ++ [e]) (read1 (h ++ [e]) xs))).
    rewrite read1_alloc by (cbn [base1]; lia).
    apply (read1_alloc_new h e).
  - unfold read2; cbn [base2 offs2]; now rewrite Hbuf.
  - unfold read2; cbn [base2 offs2]; now rewrite Hbuf.
  - unfold read2; cbn [base2 offs2]; now rewrite Hbuf.
  - rewrite !length_app; simpl; lia.
  - unfold bases; cbn [y_ref x_ref P_ref eta_ref P_hist_ref err_hist_ref
                       base1 base2].
    rewrite !map_app; cbn [map base1 base2].
    assert (Hall : Forall (fun b => b < length (h ++ [e]))
                          (base1 (y_ref rs) :: base1 (y_ref rs)
                           :: base1 (y_ref rs) :: base1 (y_ref rs)
                           :: (map base2 (P_hist_ref rs)
                               ++ [base1 (y_ref rs)])
                           ++ map base1 (err_hist_ref rs) ++ [length h])).
    { apply Forall_app in Hold as [Ho2 Ho1].
      repeat (apply Forall_cons; [lia|]).
      repeat (apply Forall_app; split);
        try (eapply Forall_impl; [|eassumption]; cbn; intros; lia);
        repeat constructor; lia. }
    eapply Forall_impl; [|exact Hall]; cbn beta; intros b Hlt; lia.
Qed.


(** Writing into a buffer none of the filter's arrays views changes none of
    them. *)
Lemma store_keeps_filter h (rs : refs) b (w : vec S) :
  b < length h -> Forall (fun b' => b' <> b) (bases rs) ->
  read1 (store h b w) (y_ref rs) = read1 h (y_ref rs) /\
  read2 (store h b w) (x_ref rs) = read2 h (x_ref rs) /\
  read2 (store h b w) (P_ref rs) = read2 h (P_ref rs) /\
  read2 (store h b w) (eta_ref rs) = read2 h (eta_ref rs) /\
  map (read2 (store h b w)) (P_hist_ref rs) = map (read2 h) (P_hist_ref rs) /\
  map (read1 (store h b w)) (err_hist_ref rs)
  = map (read1 h) (err_hist_ref rs).
Proof.
  intros Hb Hall; unfold bases in Hall.
  inversion_clear Hall as [|? ? Hy H1]; inversion_clear H1 as [|? ? Hx H2].
  inversion_clear H2 as [|? ? HP H3]; inversion_clear H3 as [|? ? He H4].
  apply Forall_app in H4 as [H5 H6].
  rewrite Forall_map in H5, H6; rewrite Forall_forall in H5, H6.
  repeat split; try (now apply read1_store); try (now apply read2_store).
  - apply map_ext_in; intros v Hv; apply read2_store; auto.
  - apply map_ext_in; intros v Hv; apply read1_store; auto.
Qed.

End TickOnObjects.

Section TickReturns.
Variable S : Scalar.
Variable LA : Linalg S.
Implicit Types (self : LKF S) (h : heap S).

(** A tick is the integration followed by lines 88 to 94. *)
Lemma call_tail nsub self z self' out :
  call LA nsub self z = Ok (self', out) ->
  exists mid,
    record_and_return mid z = Ok (self', out) /\
    ndim mid = ndim self /\ H mid = H self /\
    r_y (r mid) = r_y (r self').
Proof.
  intros Hc; pose proof Hc as Hc'.
  destruct out as [xo e]; apply call_fields in Hc'.
  unfold call in Hc; cbv zeta in Hc.
  bind_inv_as Hc Eint; destruct a as [r2 self2].
  exists (set_r self2 r2); split; [exact Hc|].
  unfold integrate in Eint; cbn [set_r set_f_params r r_params] in Eint.
  bind_inv_as Eint Est; destruct a as [y' self3].
  destruct (forallb (is_finite S) y'); [|discriminate Eint].
  injection Eint as <- <-.
  apply euler_steps_frame in Est.
  destruct (frame_fields Est) as (EH & _ & _ & _ & _ & _ & _ & _ & En & _).
  cbn [ndim H set_r] in EH, En |- *.
  split; [exact En|]; split; [exact EH|].
  unfold record_and_return in Hc; cbn [set_r r r_y ndim] in Hc.
  bind_inv_as Hc El; destruct a as [[x P] eta].
  cbn [H append_P_hist set_vars append_err_hist] in Hc.
  bind_inv_as Hc E1; bind_inv_as Hc E2; now injection Hc as <- _ _.
Qed.

(** The values a tick returns. *)
Lemma call_values nsub self z self' xo e :
  (forall a b : S, fmul S a b = fmul S b a) ->
  well_shaped self ->
  call LA nsub self z = Ok (self', (xo, e)) ->
  exists v, xo = Dim1 v /\ x_t self' = newaxis v /\
            bcast1 (fsub S) z (matvec (H self) v) = Ok e.
Proof.
  intros Hcomm (Hn & HH & _) Hc; apply call_fields in Hc.
  destruct Hc as (_ & _ & _ & _ & _ & _ & _ & _ & En & _ & _ & _ & _ & Hsy
                  & -> & xH & Hm & Hb).
  apply load_vars_inv in Hsy as (st & Est & Ex & _ & _).
  destruct (reshape_inv _ _ _ Est) as (_ & Hst & _).
  destruct (split_state Hst) as (Hx & _).
  rewrite <- Ex, En in Hx.
  destruct (@squeeze_column S _ _ Hx) as [(a & _ & Hsq)|Hsq];
    rewrite Hsq in Hm |- *.
  - discriminate Hm.
  - destruct (@column_newaxis S _ _ Hx) as [Hnew Hlen].
    cbn [squeezed_matmul] in Hm.
    rewrite (@vecmat_transpose S Hcomm _ _ _ HH Hn Hlen) in Hm.
    injection Hm as <-.
    exists (ravel (x_t self')); auto.
Qed.

End TickReturns.

(** For a state of dimension one no tick returns: the squeeze of line 91
    leaves a 0-dimensional array, which [@] refuses on line 92. *)
Lemma call_raises_when_ndim_is_one (S : Scalar) (LA : Linalg S) (nsub : nat)
      (self self' : LKF S) (z : vec S) (out : squeezed S * vec S) :
  ndim self = 1 -> call LA nsub self z <> Ok (self', out).
Proof.
  intros Hone Hc; destruct out as [xo e]; apply call_fields in Hc.
  destruct Hc as (_ & _ & _ & _ & _ & _ & _ & _ & En & _ & _ & _ & _ & Hsy
                  & _ & xH & Hm & _).
  apply load_vars_inv in Hsy as (st & Est & Ex & _ & _).
  destruct (reshape_inv _ _ _ Est) as (_ & Hst & _).
  destruct (split_state Hst) as (Hx & _).
  rewrite <- Ex, En, Hone in Hx.
  destruct (x_t self') as [|[|a [|? ?]] [|? ?]];
    try (apply is_matb_spec in Hx; discriminate Hx).
  discriminate Hm.
Qed.

(** C7.  A tick that returns on a well-shaped filter returns the updated
    state estimate, as a 1-D array [v] with [self.x_t = v[:, newaxis]],
    and the innovation [z - H . v] computed from it (multiplication being
    commutative, [v @ H.T] is [H . v]).  On objects: whatever heap holds
    the integrator's vector, lines 88 to 94 return for the estimate an
    array [xc] that holds [v] in a buffer of its own, so that an in-place
    modification of it, [store h' (base1 xc) w] for any [w], leaves every
    array the filter holds as it was: [self.r.y], [self.x_t], [self.P_t],
    [self.eta_t] and every entry of the two history buffers. *)
Theorem call_returns_copy_and_innovation (S : Scalar) (LA : Linalg S)
        (nsub : nat) (self self' : LKF S) (z : vec S)
        (xo : squeezed S) (e : vec S) (h : heap S) (rs : refs) :
  (forall a b : S, fmul S a b = fmul S b a) ->
  well_shaped self ->
  call LA nsub self z = Ok (self', (xo, e)) ->
  read1 h (y_ref rs) = r_y (r self') ->
  Forall (fun b => b < length h) (bases rs) ->
  exists v h' rs' xc er,
    xo = Dim1 v /\
    x_t self' = newaxis v /\
    bcast1 (fsub S) z (matvec (H self) v) = Ok e /\
    record_and_return_refs (ndim self) (H self) h rs z
    = Ok (h', rs', (xc, er)) /\
    read1 h' xc = v /\
    read1 h' er = e /\
    read2 h' (x_ref rs') = x_t self' /\
    forall w,
      read1 (store h' (base1 xc) w) (y_ref rs') = read1 h' (y_ref rs') /\
      read2 (store h' (base1 xc) w) (x_ref rs') = read2 h' (x_ref rs') /\
      read2 (store h' (base1 xc) w) (P_ref rs') = read2 h' (P_ref rs') /\
      read2 (store h' (base1 xc) w) (eta_ref rs') = read2 h' (eta_ref rs') /\
      map (read2 (store h' (base1 xc) w)) (P_hist_ref rs')
      = map (read2 h') (P_hist_ref rs') /\
      map (read1 (store h' (base1 xc) w)) (err_hist_ref rs')
      = map (read1 h') (err_hist_ref rs').
Proof.
  intros Hcomm Hws Hc Hh Hb.
  edestruct call_values as (v & Exo & Hx & He);
    [exact Hcomm | exact Hws | exact Hc |].
  edestruct call_tail as (mid & Htail & En & EH & Ey); [exact Hc|].
  rewrite <- Ey in Hh.
  edestruct record_and_return_on_objects
    as (v' & h' & rs' & xc & er & Hv' & Href & Hxc & Her & Hxr & _ & _
        & Hlt & Hne); [exact Htail | exact Hh | exact Hb |].
  rewrite Exo in Hv'; injection Hv' as <-.
  rewrite En, EH in Href.
  exists v, h', rs', xc, er.
  repeat (split; [assumption|]).
  intros w; now apply store_keeps_filter.
Qed.

(** The first tick of the sample filter, the integrator's vector being the
    only buffer of the heap. *)
Lemma call_returns_copy_and_innovation_witness :
  exists self' v e h' rs' xc er,
    call Exact.linalg 1 (Sample.after 0 Sample.open_gate) Sample.z
    = Ok (self', (Dim1 v, e)) /\
    bcast1 (fsub Exact.scalar) Sample.z
           (matvec (H (Sample.after 0 Sample.open_gate)) v) = Ok e /\
    record_and_return_refs
      (ndim (Sample.after 0 Sample.open_gate))
      (H (Sample.after 0 Sample.open_gate))
      [r_y (r self')] (Sample.only_y (length (r_y (r self')))) Sample.z
    = Ok (h', rs', (xc, er)) /\
    read1 h' xc = v /\
    read1 (store h' (base1 xc) []) (y_ref rs') = read1 h' (y_ref rs').
Proof.
  destruct (@ExactFacts.sample_after 0 Sample.open_gate (Sample.c 100) eq_refl)
    as (Hws & _ & _); [vm_compute; reflexivity|].
  destruct (@ok_inv _ (call Exact.linalg 1 (Sample.after 0 Sample.open_gate)
                            Sample.z)) as [[self' [xo e]] Hc];
    [vm_compute; reflexivity|].
  destruct (@call_returns_copy_and_innovation
              Exact.scalar Exact.linalg 1 (Sample.after 0 Sample.open_gate)
              self' Sample.z xo e [r_y (r self')]
              (Sample.only_y (length (r_y (r self'))))
              ExactFacts.mul_comm Hws Hc)
    as (v & h' & rs' & xc & er & -> & _ & He & Href & Hxc & _ & _ & Hst).
  - unfold read1; cbn [Sample.only_y y_ref base1 offs1 buffer nth].
    apply map_nth_seq.
  - repeat constructor.
  - exists self', v, e, h', rs', xc, er.
    repeat (split; [assumption|]); apply (Hst []).
Defined.

(** ** The drift field in warm-up *)

Section Returns.
Variable S : Scalar.
Variable LA : Linalg S.
Implicit Types self : LKF S.

Lemma matmul_ok r k c (M N : mat S) :
  is_mat r k M -> is_mat k c N -> 0 < r -> 0 < k ->
  exists X, matmul M N = Ok X /\ is_mat r c X.
Proof.
  intros HM HN Hr Hk; unfold matmul.
  rewrite (ncols_is_mat HM Hr), (is_mat_length HN), Nat.eqb_refl.
  eexists; split; [reflexivity|].
  eapply matmul_is_mat; [exact HM | exact HN | exact Hk |].
  unfold matmul.
  now rewrite (ncols_is_mat HM Hr), (is_mat_length HN), Nat.eqb_refl.
Qed.

Lemma bcast2_ok (op : S -> S -> S) r c (M N : mat S) :
  is_mat r c M -> is_mat r c N ->
  exists X, bcast2 op M N = Ok X /\ is_mat r c X.
Proof.
  intros HM HN; destruct (@bcast2_same S op r c M N HM HN) as [E Hs]; eauto.
Qed.

(** In warm-up ([t > tau] false), on a configuration of the expected
    shapes whose [R] numpy inverts, the drift field raises nothing: given
    an observation of length [n], a nominal dynamics matrix of shape
    [(n, n)] and a state vector of length [ode_ndim], it returns a
    derivative of length [ode_ndim] whose drift-correction block is zero,
    and leaves the filter as it was. *)
Theorem f_returns_in_warm_up self t y z eh F_t Rinv :
  well_shaped self -> inv_keeps_shape LA ->
  inv LA (R self) = Ok Rinv ->
  fgt S t (tau self) = false ->
  length z = ndim self -> is_mat (ndim self) (ndim self) F_t ->
  length y = ndim self * (1 + 2 * ndim self) ->
  exists d d_x d_P,
    f LA self t y (z, eh, F_t) = Ok (d, self) /\
    length d = ndim self * (1 + 2 * ndim self) /\
    load_vars (ndim self) d
    = Ok (d_x, d_P, zeros S (ndim self) (ndim self)).
Proof.
  intros (Hn & HH & HQ & HR & HF) Hinv HRinv Ht Hz HFt Hy.
  pose proof (Hinv _ _ _ HR HRinv) as HRi.
  unfold f, ode_shape; cbn [fst snd].
  destruct (chunks_is_mat (1 + 2 * ndim self) (ndim self) y Hy) as [Hst _].
  unfold reshape; rewrite Hy, Nat.eqb_refl; cbn [bind].
  set (st := chunks (1 + 2 * ndim self) (ndim self) y) in *.
  destruct (split_state Hst) as (Hx & HP & Heta & _).
  unfold kalman_gain.
  destruct (matmul_ok HP HH Hn Hn) as (PH & -> & HPH); cbn [bind].
  rewrite HRinv; cbn [bind].
  destruct (matmul_ok HPH HRi Hn Hn) as (K & -> & HK); cbn [bind].
  unfold d_eta; rewrite Ht; cbn [bind].
  destruct (bcast2_ok (fsub S) HFt Heta) as (Fe & EFe & HFe).
  unfold msub at 1; rewrite EFe; cbn [bind].
  destruct (matmul_ok HFe Hx Hn Hn) as (Fx & -> & HFx); cbn [bind].
  destruct (matmul_ok HH Hx Hn Hn) as (Hx' & -> & HHx); cbn [bind].
  assert (Hzc : is_mat (ndim self) 1 (newaxis z))
    by (rewrite <- Hz; apply newaxis_is_mat).
  destruct (bcast2_ok (fsub S) Hzc HHx) as (innov & Ei & Hi).
  unfold msub at 1; rewrite Ei; cbn [bind].
  destruct (matmul_ok HK Hi Hn Hn) as (Ki & -> & HKi); cbn [bind].
  destruct (bcast2_ok (fadd S) HFx HKi) as (d_x & Edx & Hdx).
  unfold madd at 1; rewrite Edx; cbn [bind].
  destruct (matmul_ok HFe HP Hn Hn) as (FP & -> & HFP); cbn [bind].
  destruct (matmul_ok HP (transpose_shape Hn HFe) Hn Hn)
    as (PFt & -> & HPFt); cbn [bind].
  destruct (bcast2_ok (fadd S) HFP HPFt) as (s1 & Es1 & Hs1).
  unfold madd at 1; rewrite Es1; cbn [bind].
  destruct (bcast2_ok (fadd S) Hs1 HQ) as (s2 & Es2 & Hs2).
  unfold madd at 1; rewrite Es2; cbn [bind].
  destruct (matmul_ok HK HR Hn Hn) as (KR & -> & HKR); cbn [bind].
  destruct (matmul_ok HKR (transpose_shape Hn HK) Hn Hn)
    as (KRK & -> & HKRK); cbn [bind].
  destruct (bcast2_ok (fsub S) Hs2 HKRK) as (d_P & EdP & HdP).
  unfold msub at 1; rewrite EdP; cbn [bind].
  pose proof (zeros_is_mat S (ndim self) (ndim self)) as Hz0.
  pose proof (pack_ok Hdx HdP Hz0) as Epack.
  rewrite Epack; cbn [bind].
  destruct (load_vars_pack Hdx HdP Hz0 Epack) as [Hlen Hload].
  eexists _, d_x, d_P; split; [reflexivity|].
  split; [exact Hlen | exact Hload].
Qed.

End Returns.

(** * Further properties of the code *)

(** ** The layout of the augmented state, read backwards *)

(** [load_vars] returns exactly on the vectors of length
    [ode_ndim = n * (1 + 2 * n)] and raises [ValueError] on every other; the
    blocks it returns have the shapes [(n, 1)], [(n, n)] and [(n, n)], and
    packing them again (lines 59 and 75) gives the vector back. *)
Theorem load_vars_inverts_pack (A : Type) (n : nat) (v : vec A) :
  match load_vars n v with
  | Ok (x, P, eta) =>
      length v = ode_ndim n /\
      is_mat n 1 x /\ is_mat n n P /\ is_mat n n eta /\
      pack x P eta = Ok v
  | Err e => e = ValueError /\ length v <> ode_ndim n
  end.
Proof.
  destruct (load_vars n v) as [[[x P] eta]|e] eqn:E.
  - apply load_vars_inv in E as (st & Est & -> & -> & ->).
    destruct (reshape_inv _ _ _ Est) as (Hlen & Hst & Hrav).
    destruct (split_state Hst) as (Hx & HP & Heta & Hzip).
    split; [exact Hlen|].
    split; [exact Hx|]; split; [exact HP|]; split; [exact Heta|].
    rewrite (pack_ok Hx HP Heta), <- Hzip, Hrav; reflexivity.
  - unfold load_vars, reshape, ode_shape in E; cbn [fst snd] in E.
    unfold ode_ndim, ode_shape; cbn [fst snd].
    destruct (length v =? n * (1 + 2 * n)) eqn:El; [discriminate E|].
    cbn [bind] in E; injection E as <-.
    split; [reflexivity | now apply Nat.eqb_neq].
Qed.

(** ** What every returning tick leaves behind *)

Section TickShape.
Variable S : Scalar.
Variable LA : Linalg S.
Implicit Types self : LKF S.

(** For a state of dimension one every tick raises, whatever the
    configuration and the observation: [np.squeeze] on line 91 leaves a
    0-dimensional array, which [@] refuses on line 92. *)
Theorem call_raises_for_scalar_state nsub self z :
  ndim self = 1 -> is_ok (call LA nsub self z) = false.
Proof.
  intros Hone; destruct (call LA nsub self z) as [[self' out]|e] eqn:E;
    [|reflexivity].
  exfalso; eapply call_raises_when_ndim_is_one; eassumption.
Qed.

(** Whatever the shapes of the configuration and of the observation, a
    tick that returns leaves an integrator vector of length [ode_ndim],
    attributes [x_t], [P_t] and [eta_t] that are its three blocks, of shapes
    [(n, 1)], [(n, n)] and [(n, n)], and returns as estimate the 1-D array
    of the [n] entries of [x_t]; the dimension [n] is not one. *)
Theorem call_reloads_attributes nsub self z self' xo e :
  call LA nsub self z = Ok (self', (xo, e)) ->
  length (r_y (r self')) = ode_ndim (ndim self) /\
  load_vars (ndim self) (r_y (r self'))
  = Ok (x_t self', P_t self', eta_t self') /\
  is_mat (ndim self) 1 (x_t self') /\
  is_mat (ndim self) (ndim self) (P_t self') /\
  is_mat (ndim self) (ndim self) (eta_t self') /\
  ndim self <> 1 /\
  xo = Dim1 (ravel (x_t self')) /\
  length (ravel (x_t self')) = ndim self.
Proof.
  intros Hc.
  assert (Hne : ndim self <> 1)
    by (intros Hone; eapply call_raises_when_ndim_is_one; eassumption).
  apply call_fields in Hc.
  destruct Hc as (_ & _ & _ & _ & _ & _ & _ & _ & En & _ & _ & _ & _ & Hsy
                  & -> & xH & Hm & _).
  unfold synced in Hsy; rewrite En in Hsy.
  pose proof Hsy as Hl.
  apply load_vars_inv in Hl as (st & Est & Ex & EP & Eeta).
  destruct (reshape_inv _ _ _ Est) as (Hlen & Hst & _).
  destruct (split_state Hst) as (Hx & HP & Heta & _).
  rewrite <- Ex in Hx; rewrite <- EP in HP; rewrite <- Eeta in Heta.
  split; [exact Hlen|]; split; [exact Hsy|].
  split; [exact Hx|]; split; [exact HP|]; split; [exact Heta|].
  split; [exact Hne|].
  destruct (@column_newaxis S _ _ Hx) as [_ Hlx].
  destruct (@squeeze_column S _ _ Hx) as [(a & _ & Hsq)|Hsq].
  - rewrite Hsq in Hm; discriminate Hm.
  - split; [exact Hsq | exact Hlx].
Qed.

(** No number of ticks changes the configuration: [F], [H], [Q], [R],
    [dt], [tau], [eps], [eta_bnd], [gamma] and [ndim] are those the
    constructor stored, after every run that returns. *)
Theorem run_keeps_configuration nsub zs : forall self self' outs,
  run LA nsub self zs = Ok (self', outs) ->
  F self' = F self /\ H self' = H self /\ Q self' = Q self /\
  R self' = R self /\ dt self' = dt self /\ tau self' = tau self /\
  eps self' = eps self /\ eta_bnd self' = eta_bnd self /\
  gamma self' = gamma self /\ ndim self' = ndim self.
Proof.
  induction zs as [|z zs IH]; intros self self' outs Hr; cbn [run] in Hr.
  - injection Hr as <- _; repeat split.
  - bind_inv_as Hr Ec; destruct a as [self1 [xo e]].
    bind_inv_as Hr Er; destruct a as [self2 outs']; injection Hr as <- _.
    apply call_fields in Ec.
    destruct Ec as (EH & EQ & ER & Edt & Etau & Eeps & Ebnd & Egam & En & EF
                    & _).
    destruct (IH _ _ _ Er)
      as (EF' & EH' & EQ' & ER' & Edt' & Etau' & Eeps' & Ebnd' & Egam' & En').
    repeat split; congruence.
Qed.

End TickShape.

(** A tick of the one-dimensional sample filter. *)
Lemma call_raises_for_scalar_state_witness :
  ndim Edge.scalar_state = 1 /\
  is_ok (call Exact.linalg 1 Edge.scalar_state [Sample.c 1]) = false.
Proof.
  split; [vm_compute; reflexivity|].
  apply call_raises_for_scalar_state; vm_compute; reflexivity.
Defined.

(** The first tick of the sample filter. *)
Lemma call_reloads_attributes_witness :
  exists self' xo e,
    call Exact.linalg 1 (Sample.after 0 Sample.open_gate) Sample.z
    = Ok (self', (xo, e)) /\
    length (r_y (r self')) = 10 /\
    is_mat 2 2 (P_t self') /\
    xo = Dim1 (ravel (x_t self')).
Proof.
  destruct (@ok_inv _ (call Exact.linalg 1 (Sample.after 0 Sample.open_gate)
                            Sample.z)) as [[self' [xo e]] Hc];
    [vm_compute; reflexivity|].
  exists self', xo, e; split; [exact Hc|].
  destruct (call_reloads_attributes _ _ _ _ Hc)
    as (Hlen & _ & _ & HP & _ & _ & Hxo & _).
  split; [exact Hlen|]; split; [exact HP | exact Hxo].
Defined.

(** Four ticks of the sample filter. *)
Lemma run_keeps_configuration_witness :
  exists self' outs,
    run Exact.linalg 1 (Sample.after 0 Sample.open_gate) Sample.zs
    = Ok (self', outs) /\
    H self' = H (Sample.after 0 Sample.open_gate) /\
    tau self' = tau (Sample.after 0 Sample.open_gate) /\
    ndim self' = ndim (Sample.after 0 Sample.open_gate).
Proof.
  destruct (@ok_inv _ (run Exact.linalg 1 (Sample.after 0 Sample.open_gate)
                           Sample.zs)) as [[self' outs] Hr];
    [vm_compute; reflexivity|].
  exists self', outs; split; [exact Hr|].
  destruct (@run_keeps_configuration _ _ _ _ _ _ _ Hr)
    as (_ & EH & _ & _ & _ & Etau & _ & _ & _ & En).
  split; [exact EH|]; split; [exact Etau | exact En].
Defined.

(** ** The drift field: what it stores and what it needs *)

Section DriftAnatomy.
Variable S : Scalar.
Variable LA : Linalg S.
Implicit Types self : LKF S.

(** An evaluation of [f] that returns has cut the state into its blocks and
    got its last block from [d_eta], which is also where the filter object
    it leaves behind comes from. *)
Lemma f_d_eta self t y z eh F_t d self' :
  f LA self t y (z, eh, F_t) = Ok (d, self') ->
  exists st de,
    reshape (ndim self) (1 + 2 * ndim self) y = Ok st /\
    d_eta LA self t (cols 1 (1 + ndim self) st)
          (cols_from (1 + ndim self) st) eh = Ok (de, self').
Proof.
  unfold f, ode_shape; cbn [fst snd]; intros Hf.
  bind_inv_as Hf Est; bind_inv_as Hf EK; bind_inv_as Hf Ede.
  destruct a1 as [de self1].
  do 14 bind_inv Hf; injection Hf as _ <-.
  exists a, de; split; [reflexivity | exact Ede].
Qed.

(** The steps of lines 42 to 52. *)
Lemma eta_new_inv self P eh e self' :
  eta_new LA self P eh = Ok (e, self') ->
  exists H_inv P_inv err_t err_tau p_t p_tau d_zz,
    inv LA (H self) = Ok H_inv /\
    regularized_inverse LA self P = Ok P_inv /\
    lookback self eh = Ok (err_t, err_tau, p_t, p_tau) /\
    innovation_rate self err_t err_tau p_t p_tau = Ok d_zz /\
    candidate self H_inv d_zz P_inv = Ok e /\
    self' = set_e_zz_t (set_p_inv_t self P_inv) d_zz.
Proof.
  unfold eta_new; intros He.
  bind_inv_as He EH; bind_inv_as He EP.
  assert (Hlb : lookback (set_p_inv_t self a0) eh = lookback self eh)
    by (destruct self; reflexivity).
  rewrite Hlb in He.
  bind_inv_as He El; destruct a1 as [[[err_t err_tau] p_t] p_tau].
  assert (Hdz : innovation_rate (set_p_inv_t self a0) err_t err_tau p_t p_tau
                = innovation_rate self err_t err_tau p_t p_tau)
    by (destruct self; reflexivity).
  rewrite Hdz in He.
  bind_inv_as He Ed.
  assert (Hc : candidate (set_e_zz_t (set_p_inv_t self a0) a1) a a1 a0
               = candidate self a a1 a0)
    by (destruct self; reflexivity).
  rewrite Hc in He.
  bind_inv_as He Ec; injection He as <- <-.
  exists a, a0, err_t, err_tau, p_t, p_tau, a1.
  repeat (split; [reflexivity || assumption|]); reflexivity.
Qed.

(** In the learning phase [d_eta] has computed a candidate, whether the
    gate lets it through or not. *)
Lemma d_eta_learning self t P eta eh de self' :
  fgt S t (tau self) = true ->
  d_eta LA self t P eta eh = Ok (de, self') ->
  exists e, eta_new LA self P eh = Ok (e, self').
Proof.
  intros Ht Hd; unfold d_eta in Hd; rewrite Ht in Hd.
  bind_inv_as Hd Ee; destruct a as [e self1]; exists e.
  destruct (fle S (norm LA e) (eta_bnd self1)).
  - bind_inv Hd; now injection Hd as _ <-.
  - now injection Hd as _ <-.
Qed.

(** An evaluation of [f] assigns no attribute of the filter but the two
    diagnostics [p_inv_t] and [e_zz_t] (lines 44 and 50), and in warm-up
    ([t > tau] false) it assigns none at all. *)
Theorem f_assigns_only_diagnostics self t y p d self' :
  f LA self t y p = Ok (d, self') ->
  self' = set_e_zz_t (set_p_inv_t self (p_inv_t self')) (e_zz_t self') /\
  (fgt S t (tau self) = false -> self' = self).
Proof.
  intros Hf; split; [eapply f_frame; exact Hf|].
  intros Ht; destruct p as [[z eh] F_t].
  apply f_d_eta in Hf as (st & de & _ & Hd).
  unfold d_eta in Hd; rewrite Ht in Hd; now injection Hd as _ <-.
Qed.

(** In the learning phase an evaluation of [f] that returns has stored
    both diagnostics, whether or not the gate of line 53 accepted the
    candidate: [p_inv_t] is the regularised inverse of the covariance block
    of the state it was given, [e_zz_t] the innovation rate over the entries
    the lookback read. *)
Theorem f_stores_diagnostics self t y z eh F_t d self' :
  fgt S t (tau self) = true ->
  f LA self t y (z, eh, F_t) = Ok (d, self') ->
  exists st err_t err_tau p_t p_tau,
    reshape (ndim self) (1 + 2 * ndim self) y = Ok st /\
    regularized_inverse LA self (cols 1 (1 + ndim self) st)
    = Ok (p_inv_t self') /\
    lookback self eh = Ok (err_t, err_tau, p_t, p_tau) /\
    innovation_rate self err_t err_tau p_t p_tau = Ok (e_zz_t self').
Proof.
  intros Ht Hf.
  apply f_d_eta in Hf as (st & de & Est & Hd).
  eapply d_eta_learning in Hd as (e & He); [|exact Ht].
  apply eta_new_inv in He
    as (H_inv & P_inv & err_t & err_tau & p_t & p_tau & d_zz & _ & EP & El
        & Ed & _ & ->).
  exists st, err_t, err_tau, p_t, p_tau.
  split; [exact Est|]; split; [exact EP|]; split; [exact El | exact Ed].
Qed.

(** [f] needs the inverse of [R] at every evaluation and the inverse of [H]
    at every evaluation of the learning phase: where [numpy.linalg.inv]
    raises on one of them, so does [f]. *)
Theorem f_needs_inverses self t y p e :
  inv LA (R self) = Err e \/
  (fgt S t (tau self) = true /\ inv LA (H self) = Err e) ->
  is_ok (f LA self t y p) = false.
Proof.
  intros Hinv; destruct (f LA self t y p) as [[d self']|e'] eqn:Hf;
    [exfalso | reflexivity].
  destruct p as [[z eh] F_t]; destruct Hinv as [HR|[Ht HH]].
  - apply f_gain in Hf as (st & K & _ & HK).
    unfold kalman_gain in HK; bind_inv HK.
    rewrite HR in HK; discriminate HK.
  - apply f_d_eta in Hf as (st & de & _ & Hd).
    eapply d_eta_learning in Hd as (e0 & He); [|exact Ht].
    apply eta_new_inv in He as (H_inv & ? & ? & ? & ? & ? & ? & EH & _).
    rewrite HH in EH; discriminate EH.
Qed.

End DriftAnatomy.

(** The evaluation that opens the first tick of the sample filter: the
    clock is at zero, below [tau]. *)
Lemma f_assigns_only_diagnostics_witness :
  exists d,
    f Exact.linalg (Sample.after 0 Sample.open_gate)
      (clock (Sample.after 0 Sample.open_gate))
      (r_y (r (Sample.after 0 Sample.open_gate)))
      (Sample.z, [], Sample.F0 (Sample.c 0))
    = Ok (d, Sample.after 0 Sample.open_gate).
Proof.
  destruct (@ok_inv _ (f Exact.linalg (Sample.after 0 Sample.open_gate)
                         (clock (Sample.after 0 Sample.open_gate))
                         (r_y (r (Sample.after 0 Sample.open_gate)))
                         (Sample.z, [], Sample.F0 (Sample.c 0))))
    as [[d self'] Hf]; [vm_compute; reflexivity|].
  exists d; rewrite Hf.
  destruct (f_assigns_only_diagnostics _ _ _ _ _ Hf) as [_ Hsame].
  rewrite Hsame; [reflexivity | vm_compute; reflexivity].
Defined.

(** The evaluation that opens the fourth tick of the sample filter with the
    gate shut: the clock has passed [tau] and the candidate is turned
    down. *)
Lemma f_stores_diagnostics_witness :
  exists d self' st,
    f Exact.linalg (Sample.after 3 Sample.shut_gate)
      (clock (Sample.after 3 Sample.shut_gate))
      (r_y (r (Sample.after 3 Sample.shut_gate)))
      (Sample.z, err_hist (Sample.after 3 Sample.shut_gate),
       Sample.F0 (Sample.c 0))
    = Ok (d, self') /\
    regularized_inverse
      Exact.linalg (Sample.after 3 Sample.shut_gate)
      (cols 1 (1 + ndim (Sample.after 3 Sample.shut_gate)) st)
    = Ok (p_inv_t self').
Proof.
  destruct (@ok_inv _ (f Exact.linalg (Sample.after 3 Sample.shut_gate)
                         (clock (Sample.after 3 Sample.shut_gate))
                         (r_y (r (Sample.after 3 Sample.shut_gate)))
                         (Sample.z, err_hist (Sample.after 3 Sample.shut_gate),
                          Sample.F0 (Sample.c 0))))
    as [[d self'] Hf]; [vm_compute; reflexivity|].
  pose proof Hf as Hf'.
  eapply f_stores_diagnostics in Hf' as (st & _ & _ & _ & _ & Est & EP & _);
    [|vm_compute; reflexivity].
  exists d, self', st; split; [exact Hf | exact EP].
Defined.

(** The sample filter with a singular [R]. *)
Lemma f_needs_inverses_witness :
  is_ok (f Exact.linalg Edge.singular_R (clock Edge.singular_R)
           (r_y (r Edge.singular_R))
           (Sample.z, [], Sample.F0 (Sample.c 0))) = false.
Proof.
  apply f_needs_inverses with (e := LinAlgError).
  left; vm_compute; reflexivity.
Defined.

(** ** The lookback at its edges *)

Section LookbackEdges.
Context {B : Type}.

(** [l[-0]] is [l[0]]: the first entry, not one counted from the end. *)
Lemma py_index_zero (l : list B) (d : B) :
  0 < length l -> py_index l 0 = Ok (hd d l).
Proof.
  destruct l as [|b l]; cbn [length]; [lia|]; intros _.
  unfold py_index; cbn [length].
  assert (Hin : ((0 <=? 0) && (0 <? Z.of_nat (Datatypes.S (length l))))%Z
                = true)
    by (apply andb_true_iff; split; [apply Z.leb_le | apply Z.ltb_lt]; lia).
  cbn [Z.ltb Z.compare]; rewrite Hin; reflexivity.
Qed.

Lemma py_index_minus_one (l : list B) (d : B) :
  0 < length l -> py_index l (-1) = Ok (last l d).
Proof.
  intros Hl; destruct (exists_last (l := l)) as (l' & b & ->).
  - intros ->; cbn in Hl; lia.
  - now rewrite py_index_last, last_last.
Qed.

(** Indexing a list raises nothing but [IndexError]. *)
Lemma py_index_cases (l : list B) (i : Z) :
  (exists b, py_index l i = Ok b) \/ py_index l i = Err IndexError.
Proof.
  unfold py_index.
  destruct ((0 <=? _) && _)%Z; [|now right].
  destruct (nth_error l _) as [b|]; [left; now exists b | now right].
Qed.

(** [l[-k]] raises on a list of fewer than [k] entries. *)
Lemma py_index_short (l : list B) (k : nat) :
  length l < k -> py_index l (- Z.of_nat k) = Err IndexError.
Proof.
  intros Hk; unfold py_index.
  assert (Hneg : (- Z.of_nat k <? 0)%Z = true) by (apply Z.ltb_lt; lia).
  rewrite Hneg.
  assert (Hout : (0 <=? Z.of_nat (length l) + - Z.of_nat k)%Z = false)
    by (apply Z.leb_gt; lia).
  now rewrite Hout.
Qed.

End LookbackEdges.

(** When the delay window is shorter than a tick, so that
    [int(tau / dt) = 0], the index [-tau_n] of lines 46 and 47 is [-0 = 0]:
    the learning rule compares the latest innovation and covariance with
    the oldest ones the buffers hold, those of the first tick, however long
    the filter has been running. *)
Theorem lookback_zero_window_reads_oldest (S : Scalar) (self : LKF S)
        (eh : list (vec S)) :
  trunc S (fdiv S (tau self) (dt self)) = Ok 0%Z ->
  0 < length eh -> 0 < length (P_hist self) ->
  lookback self eh
  = Ok (newaxis (last eh []), newaxis (hd [] eh),
        last (P_hist self) [], hd [] (P_hist self)).
Proof.
  intros Htr He HP; unfold lookback; rewrite Htr; cbn [bind Z.opp].
  rewrite (py_index_minus_one eh [] He), (py_index_zero eh [] He).
  rewrite (py_index_minus_one (P_hist self) [] HP).
  rewrite (py_index_zero (P_hist self) [] HP).
  reflexivity.
Qed.

(** With [tau_n = int(tau / dt) = k], the lookback raises [IndexError]
    whenever one of the two history buffers holds fewer than [k]
    entries. *)
Theorem lookback_raises_on_short_history (S : Scalar) (self : LKF S)
        (eh : list (vec S)) (k : nat) :
  trunc S (fdiv S (tau self) (dt self)) = Ok (Z.of_nat k) ->
  length eh < k \/ length (P_hist self) < k ->
  lookback self eh = Err IndexError.
Proof.
  intros Htr Hshort; unfold lookback; rewrite Htr; cbn [bind].
  destruct (py_index_cases eh (-1)) as [[e_t ->]| ->]; [|reflexivity].
  cbn [bind].
  destruct (py_index_cases eh (- Z.of_nat k)) as [[e_tau Etau]|Etau];
    rewrite Etau; [|reflexivity]; cbn [bind].
  destruct (py_index_cases (P_hist self) (-1)) as [[p_t ->]| ->];
    [|reflexivity]; cbn [bind].
  destruct Hshort as [Hs|Hs].
  - rewrite (py_index_short eh Hs) in Etau; discriminate Etau.
  - now rewrite (py_index_short (P_hist self) Hs).
Qed.

(** The sample configuration with [tau = 1/4] and [dt = 1/2], after two
    ticks. *)
Lemma lookback_zero_window_reads_oldest_witness :
  lookback (Edge.short_window 2) (err_hist (Edge.short_window 2))
  = Ok (newaxis (last (err_hist (Edge.short_window 2)) []),
        newaxis (hd [] (err_hist (Edge.short_window 2))),
        last (P_hist (Edge.short_window 2)) [],
        hd [] (P_hist (Edge.short_window 2))).
Proof.
  apply lookback_zero_window_reads_oldest.
  - vm_compute; reflexivity.
  - vm_compute; repeat constructor.
  - vm_compute; repeat constructor.
Defined.

(** The sample filter ([tau = 1], [dt = 1/2], so [tau_n = 2]) after one
    tick. *)
Lemma lookback_raises_on_short_history_witness :
  lookback (Sample.after 1 Sample.open_gate)
           (err_hist (Sample.after 1 Sample.open_gate))
  = Err IndexError.
Proof.
  apply lookback_raises_on_short_history with (k := 2).
  - vm_compute; reflexivity.
  - left; vm_compute; repeat constructor.
Defined.

(** ** Which arrays share a buffer after a tick *)

Section Aliasing.
Variable S : Scalar.
Implicit Types (h : heap S) (rs : refs).

(** An in-place modification of a buffer is what the arrays that view it
    read afterwards. *)
Lemma buffer_store_same h b (w : vec S) :
  b < length h -> buffer (store h b w) b = w.
Proof.
  intros Hb; unfold buffer, store.
  rewrite app_nth2; rewrite length_firstn, Nat.min_l by lia; [|lia].
  now rewrite Nat.sub_diag.
Qed.

(** The objects lines 88 to 94 leave behind. *)
Lemma record_and_return_refs_inv n (H0 : mat S) h rs z h' rs' xc er :
  record_and_return_refs n H0 h rs z = Ok (h', rs', (xc, er)) ->
  exists st err_t xv,
    reshape n (1 + 2 * n) (offs1 (y_ref rs)) = Ok st /\
    h' = (h ++ [err_t]) ++ [xv] /\
    er = {| base1 := length h; offs1 := seq 0 (length err_t) |} /\
    xc = {| base1 := length (h ++ [err_t]); offs1 := seq 0 (length xv) |} /\
    rs' = {| y_ref := y_ref rs;
             x_ref := {| base2 := base1 (y_ref rs); offs2 := cols 0 1 st |};
             P_ref := {| base2 := base1 (y_ref rs);
                         offs2 := cols 1 (1 + n) st |};
             eta_ref := {| base2 := base1 (y_ref rs);
                           offs2 := cols_from (1 + n) st |};
             P_hist_ref := P_hist_ref rs
                           ++ [{| base2 := base1 (y_ref rs);
                                  offs2 := cols 1 (1 + n) st |}];
             err_hist_ref := err_hist_ref rs ++ [er] |}.
Proof.
  unfold record_and_return_refs, ode_shape; cbn [fst snd]; intros Hv.
  bind_inv_as Hv Est; exists a.
  cbn [offs2 y_ref x_ref P_ref eta_ref P_hist_ref err_hist_ref] in Hv.
  remember (cols 0 1 a) as xo_ eqn:Exo.
  destruct xo_ as [|[|i [|? ?]] [|? ?]]; try discriminate Hv;
    bind_inv_as Hv ExH; bind_inv_as Hv Ee; cbn [alloc] in Hv;
    injection Hv as <- <- <- <-;
    eexists _, _; repeat (split; [reflexivity|]); reflexivity.
Qed.

(** The innovation a tick returns is the very array it has appended to
    [err_hist] (lines 93 and 94 append and return [err_t], without a copy):
    an in-place modification of the returned array, to any [w] of the same
    length, replaces the newest entry of the history by [w], the older
    entries staying as they were. *)
Theorem returned_innovation_is_history_entry n (H0 : mat S) h rs z h' rs'
        xc er :
  record_and_return_refs n H0 h rs z = Ok (h', rs', (xc, er)) ->
  Forall (fun b => b < length h) (bases rs) ->
  err_hist_ref rs' = err_hist_ref rs ++ [er] /\
  forall w,
    length w = length (read1 h' er) ->
    map (read1 (store h' (base1 er) w)) (err_hist_ref rs')
    = map (read1 h') (err_hist_ref rs) ++ [w].
Proof.
  intros Hv Hb.
  apply record_and_return_refs_inv in Hv
    as (st & e & xv & _ & -> & Eer & _ & ->).
  cbn [err_hist_ref]; split; [reflexivity|]; intros w Hw.
  assert (Hlen : length h < length ((h ++ [e]) ++ [xv]))
    by (rewrite !length_app; cbn [length]; lia).
  assert (Hread : read1 ((h ++ [e]) ++ [xv]) er = e).
  { rewrite Eer.
    change ((h ++ [e]) ++ [xv]) with (fst (alloc (h ++ [e]) xv)).
    rewrite read1_alloc by (cbn [base1]; rewrite length_app; cbn; lia).
    apply (read1_alloc_new h e). }
  rewrite Hread in Hw.
  rewrite map_app; cbn [map]; f_equal.
  - apply map_ext_in; intros v Hv; apply read1_store;
      [rewrite Eer; exact Hlen|].
    assert (Hv' : base1 v < length h).
    { unfold bases in Hb; rewrite Forall_forall in Hb; apply Hb.
      do 4 right; apply in_or_app; right; now apply in_map. }
    rewrite Eer; cbn [base1]; lia.
  - f_equal; rewrite Eer; unfold read1; cbn [base1 offs1].
    rewrite buffer_store_same by exact Hlen.
    rewrite <- Hw; apply map_nth_seq.
Qed.

(** The covariance a tick appends to [P_hist], like the attributes [x_t],
    [P_t] and [eta_t] it assigns, is a view of the integrator's vector
    [self.r.y] (lines 80, 81 and 88 to 90 reshape and slice, without a
    copy): after an in-place modification of that vector to any [w], the
    newest entry of [P_hist] and the three attributes read the blocks of
    [w]. *)
Theorem history_covariance_views_integrator n (H0 : mat S) h rs z h' rs'
        xc er :
  record_and_return_refs n H0 h rs z = Ok (h', rs', (xc, er)) ->
  base1 (y_ref rs) < length h ->
  y_ref rs' = y_ref rs /\
  P_hist_ref rs' = P_hist_ref rs ++ [P_ref rs'] /\
  forall w x P eta,
    offs1 (y_ref rs) = seq 0 (length w) ->
    load_vars n w = Ok (x, P, eta) ->
    read2 (store h' (base1 (y_ref rs)) w) (x_ref rs') = x /\
    read2 (store h' (base1 (y_ref rs)) w) (P_ref rs') = P /\
    read2 (store h' (base1 (y_ref rs)) w) (eta_ref rs') = eta /\
    map (read2 (store h' (base1 (y_ref rs)) w)) (P_hist_ref rs')
    = map (read2 (store h' (base1 (y_ref rs)) w)) (P_hist_ref rs) ++ [P].
Proof.
  intros Hv Hb.
  apply record_and_return_refs_inv in Hv
    as (st & e & xv & Est & -> & _ & _ & ->).
  cbn [y_ref x_ref P_ref eta_ref P_hist_ref].
  split; [reflexivity|]; split; [reflexivity|].
  intros w x P eta Hoffs Hl.
  assert (Hlen : base1 (y_ref rs) < length ((h ++ [e]) ++ [xv]))
    by (rewrite !length_app; cbn [length]; lia).
  pose (g := fun i => nth i w (zero S)).
  apply (reshape_map g) in Est.
  rewrite Hoffs in Est; unfold g in Est at 1; rewrite map_nth_seq in Est.
  apply load_vars_inv in Hl as (st' & Est' & -> & -> & ->).
  rewrite Est in Est'; injection Est' as <-.
  assert (HP : read2 (store ((h ++ [e]) ++ [xv]) (base1 (y_ref rs)) w)
                     {| base2 := base1 (y_ref rs);
                        offs2 := cols 1 (1 + n) st |}
               = cols 1 (1 + n) (map (map g) st)).
  { unfold read2; cbn [base2 offs2].
    rewrite buffer_store_same by exact Hlen; now rewrite cols_map. }
  split; [|split; [exact HP|split]].
  - unfold read2; cbn [base2 offs2].
    rewrite buffer_store_same by exact Hlen; now rewrite cols_map.
  - unfold read2; cbn [base2 offs2].
    rewrite buffer_store_same by exact Hlen; now rewrite cols_from_map.
  - rewrite map_app; cbn [map]; now rewrite HP.
Qed.

End Aliasing.

(** Lines 88 to 94 on the sample filter, the integrator's vector being the
    only buffer of the heap; the returned innovation is then reversed in
    place. *)
Lemma returned_innovation_is_history_entry_witness :
  exists h' rs' xc er,
    record_and_return_refs 2 Sample.I2 [Edge.y0] (Sample.only_y 10) Sample.z
    = Ok (h', rs', (xc, er)) /\
    map (read1 (store h' (base1 er) (rev (read1 h' er)))) (err_hist_ref rs')
    = [rev (read1 h' er)].
Proof.
  destruct (@ok_inv _ (record_and_return_refs 2 Sample.I2 [Edge.y0]
                         (Sample.only_y 10) Sample.z))
    as [[[h' rs'] [xc er]] Hv]; [vm_compute; reflexivity|].
  exists h', rs', xc, er; split; [exact Hv|].
  destruct (@returned_innovation_is_history_entry
              Exact.scalar 2 Sample.I2 [Edge.y0] (Sample.only_y 10) Sample.z
              h' rs' xc er Hv) as [_ Hw]; [repeat constructor|].
  apply (Hw (rev (read1 h' er))), length_rev.
Defined.

(** The same tick; the integrator's vector is then reversed in place. *)
Lemma history_covariance_views_integrator_witness :
  exists h' rs' xc er x P eta,
    record_and_return_refs 2 Sample.I2 [Edge.y0] (Sample.only_y 10) Sample.z
    = Ok (h', rs', (xc, er)) /\
    load_vars 2 (rev Edge.y0) = Ok (x, P, eta) /\
    read2 (store h' 0 (rev Edge.y0)) (P_ref rs') = P /\
    map (read2 (store h' 0 (rev Edge.y0))) (P_hist_ref rs') = [P].
Proof.
  destruct (@ok_inv _ (record_and_return_refs 2 Sample.I2 [Edge.y0]
                         (Sample.only_y 10) Sample.z))
    as [[[h' rs'] [xc er]] Hv]; [vm_compute; reflexivity|].
  destruct (@ok_inv _ (load_vars 2 (rev Edge.y0))) as [[[x P] eta] Hl];
    [vm_compute; reflexivity|].
  exists h', rs', xc, er, x, P, eta; split; [exact Hv|]; split; [exact Hl|].
  destruct (@history_covariance_views_integrator
              Exact.scalar 2 Sample.I2 [Edge.y0] (Sample.only_y 10) Sample.z
              h' rs' xc er Hv) as (_ & _ & Hw); [repeat constructor|].
  destruct (Hw (rev Edge.y0) x P eta) as (_ & HP & _ & Hhist);
    [vm_compute; reflexivity | exact Hl |].
  split; [exact HP | exact Hhist].
Defined.

(** The evaluation that opens the first tick of the sample filter. *)
Lemma f_returns_in_warm_up_witness :
  exists d d_x d_P,
    f Exact.linalg (Sample.after 0 Sample.open_gate)
      (clock (Sample.after 0 Sample.open_gate))
      (r_y (r (Sample.after 0 Sample.open_gate)))
      (Sample.z, [], Sample.F0 (Sample.c 0))
    = Ok (d, Sample.after 0 Sample.open_gate) /\
    load_vars (ndim (Sample.after 0 Sample.open_gate)) d
    = Ok (d_x, d_P,
          zeros Exact.scalar (ndim (Sample.after 0 Sample.open_gate))
                (ndim (Sample.after 0 Sample.open_gate))).
Proof.
  destruct (@ExactFacts.sample_after 0 Sample.open_gate (Sample.c 100) eq_refl)
    as (Hws & _ & En); [vm_compute; reflexivity|].
  edestruct (@f_returns_in_warm_up
               Exact.scalar Exact.linalg (Sample.after 0 Sample.open_gate)
               (clock (Sample.after 0 Sample.open_gate))
               (r_y (r (Sample.after 0 Sample.open_gate)))
               Sample.z [] (Sample.F0 (Sample.c 0)))
    as (d & d_x & d_P & Hf & _ & Hl);
    [ exact Hws | exact ExactFacts.inverse_keeps_shape
    | vm_compute; reflexivity | vm_compute; reflexivity
    | rewrite En; reflexivity
    | rewrite En; apply is_matb_spec; reflexivity
    | rewrite En; vm_compute; reflexivity |].
  exists d, d_x, d_P; split; [exact Hf | exact Hl].
Defined.

(** ** What broadcasting accepts *)

Section BroadcastShapes.
Variable S : Scalar.
Variable op : S -> S -> S.

Lemma bcast1_ok_inv (u v w : vec S) :
  bcast1 op u v = Ok w ->
  bcast_compatible (length u) (length v) /\
  length w = bcast_dim (length u) (length v).
Proof.
  unfold bcast1, bcast_compatible, bcast_dim.
  destruct (length u =? length v) eqn:E.
  - intros Hw; injection Hw as <-; apply Nat.eqb_eq in E.
    split; [now left | now apply length_map2].
  - apply Nat.eqb_neq in E.
    destruct u as [|a [|a' u]]; destruct v as [|b [|b' v]]; intros Hw;
      try discriminate Hw; injection Hw as <-;
      cbn [length Nat.eqb] in *; rewrite ?length_map; cbn [length];
      (split; [lia | reflexivity]) || (exfalso; lia).
Qed.

Lemma sequence_cons_inv (A : Type) (m : result A) (l : list (result A)) X :
  sequence (m :: l) = Ok X ->
  exists a X', m = Ok a /\ sequence l = Ok X' /\ X = a :: X'.
Proof.
  cbn [sequence]; intros Hs.
  bind_inv_as Hs Em; bind_inv_as Hs El; injection Hs as <-; eauto.
Qed.

(** Row by row. *)
Lemma rows_bcast cm cn : forall (M N X : mat S),
  Forall (fun row => length row = cm) M ->
  Forall (fun row => length row = cn) N ->
  length M = length N ->
  sequence (map2 (bcast1 op) M N) = Ok X ->
  length X = length M /\
  Forall (fun row => length row = bcast_dim cm cn) X /\
  (0 < length M -> bcast_compatible cm cn).
Proof.
  induction M as [|r M IH]; intros [|s N] X HM HN Hl Hs;
    try discriminate Hl; cbn [map2] in Hs.
  - injection Hs as <-; cbn; split; [reflexivity|]; split; [constructor|lia].
  - apply sequence_cons_inv in Hs as (a & X' & Ea & EX & ->).
    inversion HM as [|? ? Hr HM']; inversion HN as [|? ? Hs' HN']; subst.
    apply bcast1_ok_inv in Ea as [Hc Ha].
    injection Hl as Hl.
    destruct (IH N X' HM' HN' Hl EX) as (HlX & HX & _).
    cbn [length]; split; [now rewrite HlX|].
    split; [constructor; assumption | intros _; exact Hc].
Qed.

(** One row against every row. *)
Lemma row_bcast_l cm cn (r : vec S) : forall (N X : mat S),
  length r = cm ->
  Forall (fun row => length row = cn) N ->
  sequence (map (fun s => bcast1 op r s) N) = Ok X ->
  length X = length N /\
  Forall (fun row => length row = bcast_dim cm cn) X /\
  (0 < length N -> bcast_compatible cm cn).
Proof.
  induction N as [|s N IH]; intros X Hr HN Hs; cbn [map] in Hs.
  - injection Hs as <-; cbn; split; [reflexivity|]; split; [constructor|lia].
  - apply sequence_cons_inv in Hs as (a & X' & Ea & EX & ->).
    inversion HN as [|? ? Hs' HN']; subst.
    apply bcast1_ok_inv in Ea as [Hc Ha].
    destruct (IH X' eq_refl HN' EX) as (HlX & HX & _).
    cbn [length]; split; [now rewrite HlX|].
    split; [constructor; assumption | intros _; exact Hc].
Qed.

Lemma row_bcast_r cm cn (s : vec S) : forall (M X : mat S),
  length s = cn ->
  Forall (fun row => length row = cm) M ->
  sequence (map (fun r => bcast1 op r s) M) = Ok X ->
  length X = length M /\
  Forall (fun row => length row = bcast_dim cm cn) X /\
  (0 < length M -> bcast_compatible cm cn).
Proof.
  induction M as [|r M IH]; intros X Hs HM Hq; cbn [map] in Hq.
  - injection Hq as <-; cbn; split; [reflexivity|]; split; [constructor|lia].
  - apply sequence_cons_inv in Hq as (a & X' & Ea & EX & ->).
    inversion HM as [|? ? Hr HM']; subst.
    apply bcast1_ok_inv in Ea as [Hc Ha].
    destruct (IH X' eq_refl HM' EX) as (HlX & HX & _).
    cbn [length]; split; [now rewrite HlX|].
    split; [constructor; assumption | intros _; exact Hc].
Qed.

(** An elementwise operation on 2-D arrays that returns has found the
    numbers of rows compatible, and the numbers of columns too unless an
    operand has no row; the result has the broadcast shape. *)
Lemma bcast2_ok_inv rm cm rn cn (M N X : mat S) :
  is_mat rm cm M -> is_mat rn cn N ->
  bcast2 op M N = Ok X ->
  bcast_compatible rm rn /\
  is_mat (bcast_dim rm rn) (bcast_dim cm cn) X /\
  (0 < rm -> 0 < rn -> bcast_compatible cm cn).
Proof.
  intros [HlM HM] [HlN HN]; unfold bcast2, is_mat.
  destruct (length M =? length N) eqn:E.
  - apply Nat.eqb_eq in E; intros Hs.
    destruct (@rows_bcast cm cn M N X HM HN E Hs) as (HlX & HX & Hc).
    assert (Er : rm = rn) by congruence.
    split; [now left|]; unfold bcast_dim at 1.
    rewrite Er, Nat.eqb_refl.
    split; [split; [congruence | exact HX]|].
    intros Hrm _; apply Hc; lia.
  - apply Nat.eqb_neq in E.
    destruct M as [|r [|r' M]].
    + destruct N as [|s [|s' N]]; intros Hs; try discriminate Hs.
      cbn [map sequence] in Hs; injection Hs as <-.
      cbn [length] in *; subst rm rn.
      split; [right; now right|].
      split; [split; [reflexivity | constructor] | lia].
    + intros Hs; inversion HM as [|? ? Hr _]; subst.
      destruct (@row_bcast_l (length r) cn r N X eq_refl HN Hs)
        as (HlX & HX & Hc).
      cbn [length] in *.
      split; [right; now left|]; unfold bcast_dim at 1.
      destruct (1 =? length N) eqn:E1; [apply Nat.eqb_eq in E1; lia|].
      cbn [Nat.eqb].
      split; [split; assumption | intros _ Hrn; now apply Hc].
    + destruct N as [|s [|s' N]]; intros Hs; try discriminate Hs.
      inversion HN as [|? ? Hs' _]; subst.
      destruct (@row_bcast_r cm (length s) s (r :: r' :: M) X eq_refl HM Hs)
        as (HlX & HX & Hc).
      cbn [length] in *.
      split; [right; now right|]; unfold bcast_dim at 1.
      cbn [Nat.eqb].
      split; [split; assumption | intros Hrm _; apply Hc; lia].
Qed.

End BroadcastShapes.

(** ** Dimension mismatches that raise *)

Section MismatchRaises.
Variable S : Scalar.
Variable LA : Linalg S.
Implicit Types self : LKF S.

(** The steps of an evaluation of [f] that returns. *)
Lemma f_inv self t y z eh F_t d self' :
  f LA self t y (z, eh, F_t) = Ok (d, self') ->
  exists st K de F_est Fx Hx innov Kinnov d_x FP PFt s1 s2 KR KRKt d_P,
    reshape (ndim self) (1 + 2 * ndim self) y = Ok st /\
    kalman_gain LA self (cols 1 (1 + ndim self) st) = Ok K /\
    d_eta LA self t (cols 1 (1 + ndim self) st)
          (cols_from (1 + ndim self) st) eh = Ok (de, self') /\
    msub F_t (cols_from (1 + ndim self) st) = Ok F_est /\
    matmul F_est (cols 0 1 st) = Ok Fx /\
    matmul (H self) (cols 0 1 st) = Ok Hx /\
    msub (newaxis z) Hx = Ok innov /\
    matmul K innov = Ok Kinnov /\
    madd Fx Kinnov = Ok d_x /\
    matmul F_est (cols 1 (1 + ndim self) st) = Ok FP /\
    matmul (cols 1 (1 + ndim self) st) (transpose F_est) = Ok PFt /\
    madd FP PFt = Ok s1 /\
    madd s1 (Q self) = Ok s2 /\
    matmul K (R self) = Ok KR /\
    matmul KR (transpose K) = Ok KRKt /\
    msub s2 KRKt = Ok d_P /\
    pack d_x d_P de = Ok d.
Proof.
  unfold f, ode_shape; cbn [fst snd]; intros Hf.
  bind_inv_as Hf Est; bind_inv_as Hf EK; bind_inv_as Hf Ede.
  destruct a1 as [de self1].
  destruct (frame_fields (d_eta_frame _ _ _ _ _ _ Ede))
    as (EH & EQ & ER & _).
  rewrite ?EH, ?EQ, ?ER in Hf.
  bind_inv_as Hf E1; bind_inv_as Hf E2; bind_inv_as Hf E3.
  bind_inv_as Hf E4; bind_inv_as Hf E5; bind_inv_as Hf E6.
  bind_inv_as Hf E7; bind_inv_as Hf E8; bind_inv_as Hf E9.
  bind_inv_as Hf E10; bind_inv_as Hf E11; bind_inv_as Hf E12.
  bind_inv_as Hf E13; bind_inv_as Hf E14; injection Hf as <- <-.
  do 16 eexists; repeat (split; [reflexivity || eassumption|]); eassumption.
Qed.

Lemma bcast_dim_left n a :
  n <> 1 -> bcast_compatible a n -> bcast_dim a n = n.
Proof.
  unfold bcast_compatible, bcast_dim; intros Hn Hc.
  destruct (Nat.eqb_spec a n); [congruence|].
  destruct (Nat.eqb_spec a 1); [reflexivity | lia].
Qed.

Lemma bcast_dim_right n a : n <> 1 -> bcast_dim n a = n.
Proof.
  unfold bcast_dim; intros Hn.
  destruct (Nat.eqb_spec n a); [reflexivity|].
  destruct (Nat.eqb_spec n 1); [contradiction | reflexivity].
Qed.

(** An evaluation of [f] that returns on a state of dimension [n >= 2]
    has found a [Q] whose numbers of rows and of columns are [n] or 1, the
    nominal dynamics being some 2-D array. *)
Lemma f_demands_Q self t y z eh F_t d self' rf cf rq cq :
  2 <= ndim self ->
  is_mat rf cf F_t -> is_mat rq cq (Q self) ->
  f LA self t y (z, eh, F_t) = Ok (d, self') ->
  (rq = ndim self \/ rq = 1) /\ (cq = ndim self \/ cq = 1).
Proof.
  intros Hn2 HF HQ Hf.
  assert (Hn : 0 < ndim self) by lia.
  assert (Hne : ndim self <> 1) by lia.
  apply f_inv in Hf
    as (st & K & de & F_est & Fx & Hx & innov & Kinnov & d_x & FP & PFt & s1
        & s2 & KR & KRKt & d_P & Est & _ & _ & EFest & _ & _ & _ & _ & _ & EFP
        & EPFt & Es1 & Es2 & _).
  destruct (reshape_inv _ _ _ Est) as (_ & Hst & _).
  destruct (split_state Hst) as (_ & HP & Heta & _).
  destruct (@bcast2_ok_inv S (fsub S) _ _ _ _ _ _ _ HF Heta EFest)
    as (Hcr & HFest & Hcc).
  assert (Hrf : 0 < rf) by (unfold bcast_compatible in Hcr; lia).
  rewrite (bcast_dim_left Hne Hcr) in HFest.
  rewrite (bcast_dim_left Hne (Hcc Hrf Hn)) in HFest.
  pose proof (matmul_shape EFP HFest HP Hn) as HFP.
  pose proof (matmul_shape EPFt HP (transpose_shape Hn HFest) Hn) as HPFt.
  pose proof (madd_shape Es1 HFP HPFt) as Hs1.
  destruct (@bcast2_ok_inv S (fadd S) _ _ _ _ _ _ _ Hs1 HQ Es2)
    as (Hqr & _ & Hqc).
  assert (Hrq : 0 < rq) by (unfold bcast_compatible in Hqr; lia).
  specialize (Hqc Hn Hrq).
  unfold bcast_compatible in Hqr, Hqc; lia.
Qed.

(** Lines 91 to 92 return only for an observation of length [n] or 1, when
    [H] is [n x n] and [n >= 2]. *)
Lemma innovation_demands_length n (H0 : mat S) (x : mat S) (z xH e : vec S) :
  2 <= n -> is_mat n n H0 -> is_mat n 1 x ->
  squeezed_matmul (squeeze x) (transpose H0) = Ok xH ->
  bcast1 (fsub S) z xH = Ok e ->
  length z = n \/ length z = 1.
Proof.
  intros Hn2 HH Hx Hm Hb.
  assert (Hn : 0 < n) by lia.
  destruct (@squeeze_column S _ _ Hx) as [(a & _ & Hsq)|Hsq];
    rewrite Hsq in Hm; [discriminate Hm|].
  cbn [squeezed_matmul] in Hm; unfold vecmat in Hm.
  destruct (length (ravel x) =? length (transpose H0)); [|discriminate Hm].
  injection Hm as <-.
  apply bcast1_ok_inv in Hb as [Hc _].
  rewrite length_map in Hc.
  pose proof (transpose_is_mat HH Hn) as HHt.
  pose proof (transpose_is_mat HHt Hn) as HHtt.
  pose proof (is_mat_length HHtt) as El.
  unfold bcast_compatible, vec, mat in *; lia.
Qed.

End MismatchRaises.

(** C9, as the code has it.  Nothing in the constructor or in [__call__]
    checks dimensions; an error arises where a numpy operation refuses its
    operands.  For [n = len(x0) >= 1], [H] and [Q] being 2-D arrays and
    [F(t)] a 2-D array: if [H] or [R] is not [n x n], or the length of the
    observation is neither [n] nor 1, or the number of rows or of columns of
    [Q] is neither [n] nor 1, then the constructor returns and the first
    tick fails with an error.  (A dimension 1 in place of [n] is what numpy
    broadcasts.) *)
Theorem shape_errors_surface (S : Scalar) (LA : Linalg S)
        (x0 : vec S) (F0 : S -> mat S) (H0 Q0 R0 : mat S)
        (dt0 tau0 eta_bnd0 eps0 gamma0 : S) (nsub rh ch rq cq : nat)
        (z : vec S) :
  inv_wants_square LA ->
  0 < length x0 -> 0 < nsub ->
  is_mat rh ch H0 -> is_mat rq cq Q0 ->
  (forall t, exists rf cf, is_mat rf cf (F0 t)) ->
  ~ is_mat (length x0) (length x0) H0 \/
  ~ is_mat (length x0) (length x0) R0 \/
  (length z <> length x0 /\ length z <> 1) \/
  (rq <> length x0 /\ rq <> 1) \/
  (cq <> length x0 /\ cq <> 1) ->
  exists self0 e,
    init x0 F0 H0 Q0 R0 dt0 tau0 eta_bnd0 eps0 gamma0 = Ok self0 /\
    call LA nsub self0 z = Err e.
Proof.
  intros Hinv Hn Hsub HH HQ HF Hbad.
  destruct (init_ok S x0 F0 H0 Q0 R0 dt0 tau0 eta_bnd0 eps0 gamma0)
    as (iv & _ & Hi).
  destruct (init x0 F0 H0 Q0 R0 dt0 tau0 eta_bnd0 eps0 gamma0)
    as [self0|] eqn:Hinit; [|discriminate Hi].
  injection Hi as Es; exists self0.
  cut (exists e, call LA nsub self0 z = Err e);
    [intros [e He]; exists e; split; [reflexivity | exact He]|].
  assert (En : ndim self0 = length x0) by now rewrite Es.
  assert (EH : H self0 = H0) by now rewrite Es.
  assert (EQ : Q self0 = Q0) by now rewrite Es.
  assert (ER : R self0 = R0) by now rewrite Es.
  assert (EF : F self0 = F0) by now rewrite Es.
  clear Es Hinit.
  destruct (call LA nsub self0 z) as [[self' [xo e]]|e] eqn:Hc; [|eauto].
  exfalso.
  assert (Hne : length x0 <> 1).
  { intros E1; eapply call_raises_when_ndim_is_one; [|exact Hc].
    rewrite En; exact E1. }
  assert (Hn2 : 2 <= length x0) by lia.
  apply call_inv in Hc; cbv zeta in Hc.
  destruct Hc as (y' & self2 & x & P & eta & xH & He & Hl & Hm & Hb & _).
  destruct nsub as [|k]; [lia|]; cbn [euler_steps] in He.
  bind_inv_as He Estep; destruct a as [y1 self1].
  unfold euler_step in Estep; bind_inv_as Estep Ef; destruct a as [d self3].
  pose proof Ef as Ef'.
  eapply f_demands_shapes with (r := rh) (c := ch) in Ef;
    [| exact Hinv | cbn [ndim set_r]; rewrite En; exact Hn
     | cbn [H set_r]; rewrite EH; exact HH].
  destruct (HF (clock self0)) as (rf & cf & HFt).
  eapply f_demands_Q with (rf := rf) (cf := cf) (rq := rq) (cq := cq) in Ef';
    [| cbn [ndim set_r]; rewrite En; exact Hn2 | rewrite EF; exact HFt
     | cbn [Q set_r]; rewrite EQ; exact HQ].
  cbn [ndim H R Q set_r] in Ef, Ef'.
  rewrite En, ?EH, ?ER in *.
  destruct Ef as [HHn HRn]; destruct Ef' as [Hrq Hcq].
  apply load_vars_inv in Hl as (st & Est & -> & _ & _).
  destruct (reshape_inv _ _ _ Est) as (_ & Hst & _).
  destruct (split_state Hst) as (Hx & _).
  assert (Hz : length z = length x0 \/ length z = 1)
    by (eapply innovation_demands_length with (H0 := H0); eassumption).
  destruct Hbad as [Hb1|[Hb1|[Hb1|[Hb1|Hb1]]]];
    [contradiction | contradiction | lia | lia | lia].
Qed.

Module MismatchFacts.

Lemma inverse_wants_square : inv_wants_square Exact.linalg.
Proof.
  intros M X HX; cbn in HX; unfold Exact.inverse in HX.
  destruct M as [|[|a [|b [|? ?]]] [|[|c [|d [|? ?]]] [|? ?]]];
    try discriminate HX.
  - destruct (Exact.is_zero a); [discriminate|]; injection HX as <-.
    exists 1; split; apply is_matb_spec; reflexivity.
  - destruct (Exact.is_zero _); [discriminate|]; injection HX as <-.
    exists 2; split; apply is_matb_spec; reflexivity.
Qed.

End MismatchFacts.

(** An observation of length three on the two-dimensional sample
    filter. *)
Lemma shape_errors_surface_witness :
  exists self0 e,
    Sample.open_gate = Ok self0 /\
    call Exact.linalg 1 self0 [Sample.c 1; Sample.c 2; Sample.c 3] = Err e.
Proof.
  apply (@shape_errors_surface Exact.scalar Exact.linalg
           Sample.x0 Sample.F0 Sample.I2 Sample.I2 Sample.I2
           Sample.dt0 Sample.tau0 (Sample.c 100) Sample.eps0 Sample.gamma0
           1 2 2 2 2 [Sample.c 1; Sample.c 2; Sample.c 3]
           MismatchFacts.inverse_wants_square).
  - cbn; lia.
  - lia.
  - apply is_matb_spec; reflexivity.
  - apply is_matb_spec; reflexivity.
  - intros t; exists 2, 2; apply is_matb_spec; reflexivity.
  - right; right; left; cbn; lia.
Defined.

(** C9, as stated, fails: a process-noise covariance of shape [(1, 1)] and
    an observation of length one, on a two-dimensional state, are
    broadcast by numpy; construction and the first tick return. *)
Lemma dimension_mismatch_accepted :
  ~ dims_consistent Sample.x0 Sample.I2 Sample.Q_small Sample.I2
                    Sample.z_short /\
  exists self0 self' out,
    Sample.small_Q = Ok self0 /\
    call Exact.linalg 1 self0 Sample.z_short = Ok (self', out).
Proof.
  split.
  - intros (_ & HQ & _); apply is_matb_spec in HQ; discriminate HQ.
  - destruct (@ok_inv _ (self0 <- Sample.small_Q ;;
                         call Exact.linalg 1 self0 Sample.z_short))
      as [[self' out] Hb]; [vm_compute; reflexivity|].
    apply bind_ok_inv in Hb as (self0 & Hi & Hc); eauto.
Qed.
